(** * snow-track: the deformable snow field

    A shallow embedding of the snow field of [SnowFieldSystem] (the class
    file) and of [src/main.js] (the same algorithm over globals), and the
    properties of its construction and of its press, update and reset
    operations.

    State.  The typed arrays and the three geometry attributes are lists;
    a method is a function from state to state, a [for] loop a fold over its
    indices.  The scene, the lights, the renderer, the keyboard and the
    frames after the first one belong to the host and are left out; the
    first [animate ()], which [init] runs itself, is part of construction.

    Numbers.  JavaScript numbers are idealised as real numbers: rounding,
    overflow and the Float32 storage of the typed arrays are not modelled.
    The vector code of the normal estimator is written once over a small
    interface of arithmetic operations and instantiated twice: at [R], and
    at [option R], where [None] stands for a value that is not a finite
    number (NaN), so that the absence of NaN can be stated. *)

From Stdlib Require Import Reals Lra Lia ZArith List Bool Permutation Psatz.
From Stdlib Require Import Zfloor.
From Stdlib Require String Ascii.
Import ListNotations.

Open Scope R_scope.

(** ** Arithmetic interface *)

Class JsNumber (T : Type) := {
  lit : R -> T;                 (* a finite literal *)
  undef : T;                    (* what a read out of range evaluates to *)
  nadd : T -> T -> T;
  nsub : T -> T -> T;
  nmul : T -> T -> T;
  ndiv : T -> T -> T;
  nsqrt : T -> T;
  nor : T -> T -> T             (* [a || b]: [b] when [a] is 0 or NaN *)
}.

(** Real numbers: no NaN.  [undef] is never read on a well-formed state
    (all reads of the loops are in range). *)
#[export] Instance RealNumber : JsNumber R := {
  lit r := r;
  undef := 0;
  nadd := Rplus;
  nsub := Rminus;
  nmul := Rmult;
  ndiv := Rdiv;
  nsqrt := sqrt;
  nor a b := if Req_dec_T a 0 then b else a
}.

(** Numbers with NaN: [None] is NaN (or an infinity), absorbing for the
    arithmetic operations; a division by zero and the square root of a
    negative number produce it. *)
Definition lift2 (f : R -> R -> R) (a b : option R) : option R :=
  match a, b with
  | Some x, Some y => Some (f x y)
  | _, _ => None
  end.

Definition div_nan (a b : option R) : option R :=
  match a, b with
  | Some x, Some y => if Req_dec_T y 0 then None else Some (x / y)
  | _, _ => None
  end.

Definition sqrt_nan (a : option R) : option R :=
  match a with
  | Some x => if Rlt_dec x 0 then None else Some (sqrt x)
  | None => None
  end.

Definition or_nan (a b : option R) : option R :=
  match a with
  | Some x => if Req_dec_T x 0 then b else Some x
  | None => b
  end.

#[export] Instance NanNumber : JsNumber (option R) := {
  lit r := Some r;
  undef := None;
  nadd := lift2 Rplus;
  nsub := lift2 Rminus;
  nmul := lift2 Rmult;
  ndiv := div_nan;
  nsqrt := sqrt_nan;
  nor := or_nan
}.

(** ** Typed arrays

    A [Float32Array] is a list; an index is a JavaScript number, here an
    integer.  A read out of range gives [undefined], a write out of range is
    ignored (typed arrays do not grow). *)

Fixpoint update {A} (n : nat) (v : A) (l : list A) : list A :=
  match l, n with
  | [], _ => []
  | _ :: t, O => v :: t
  | h :: t, S n' => h :: update n' v t
  end.

Definition aget {T} `{JsNumber T} (a : list T) (k : Z) : T :=
  if (k <? 0)%Z then undef else nth (Z.to_nat k) a undef.

Definition aset {T} (a : list T) (k : Z) (v : T) : list T :=
  if (k <? 0)%Z then a else update (Z.to_nat k) v a.

(** [for (let i = 0; i < n; i++) body(i)] over a state. *)
Definition for_loop {S} (n : nat) (body : Z -> S -> S) (s : S) : S :=
  fold_left (fun s i => body (Z.of_nat i) s) (seq 0 n) s.

(** ** three.js

    [THREE.Vector3], [THREE.BufferAttribute] and [THREE.PlaneGeometry]
    belong to the three.js library, which the sources import and which is
    not part of them.  They are written here over the arithmetic interface,
    after the library and the spec's account of them. *)
Module THREE.

(** Modelled from the spec: [THREE.Vector3] (three.js, not in the sources),
    the 3D coordinate [(x, y, z)] of section 3. *)
Record Vector3 (T : Type) := mkVector3 { vx : T; vy : T; vz : T }.
Arguments mkVector3 {T} _ _ _.
Arguments vx {T} _.
Arguments vy {T} _.
Arguments vz {T} _.

Section Vector3Ops.
Context {T : Type} `{JsNumber T}.

(** Modelled from the spec: [new THREE.Vector3 ()], the zero vector the sum
    of the four cross products starts from. *)
Definition newVector3 : Vector3 T := mkVector3 (lit 0) (lit 0) (lit 0).

(** Modelled from the spec: [Vector3.subVectors (a, b)], the edge vector
    from [b] to [a]. *)
Definition subVectors (a b : Vector3 T) : Vector3 T :=
  mkVector3 (nsub (vx a) (vx b)) (nsub (vy a) (vy b)) (nsub (vz a) (vz b)).

(** Modelled from the spec: [Vector3.add (v)], the sum of section 4.1. *)
Definition add (a b : Vector3 T) : Vector3 T :=
  mkVector3 (nadd (vx a) (vx b)) (nadd (vy a) (vy b)) (nadd (vz a) (vz b)).

(** Modelled from the spec: [Vector3.crossVectors (a, b)], the cross product
    [a x b]. *)
Definition crossVectors (a b : Vector3 T) : Vector3 T :=
  mkVector3 (nsub (nmul (vy a) (vz b)) (nmul (vz a) (vy b)))
            (nsub (nmul (vz a) (vx b)) (nmul (vx a) (vz b)))
            (nsub (nmul (vx a) (vy b)) (nmul (vy a) (vx b))).

(** Modelled from the spec: [Vector3.length ()], the Euclidean length. *)
Definition vlength (v : Vector3 T) : T :=
  nsqrt (nadd (nadd (nmul (vx v) (vx v)) (nmul (vy v) (vy v)))
              (nmul (vz v) (vz v))).

(** Modelled from the spec: [Vector3.multiplyScalar (s)] and
    [Vector3.divideScalar (s)], which is [multiplyScalar (1 / s)]. *)
Definition multiplyScalar (v : Vector3 T) (s : T) : Vector3 T :=
  mkVector3 (nmul (vx v) s) (nmul (vy v) s) (nmul (vz v) s).

Definition divideScalar (v : Vector3 T) (s : T) : Vector3 T :=
  multiplyScalar v (ndiv (lit 1) s).

(** Modelled from the spec: [Vector3.normalize ()], the spec's "normalized".
    In three.js it is [divideScalar (length () || 1)]: a vector of length
    zero is divided by 1 and stays the zero vector. *)
Definition normalize (v : Vector3 T) : Vector3 T :=
  divideScalar v (nor (vlength v) (lit 1)).

(** Modelled from the spec: the accessors of a [BufferAttribute] with
    [itemSize = 3] over its flat array, the parallel buffers of section 4.1. *)
Definition getX (a : list T) (i : Z) : T := aget a (i * 3).
Definition getY (a : list T) (i : Z) : T := aget a (i * 3 + 1).
Definition getZ (a : list T) (i : Z) : T := aget a (i * 3 + 2).

Definition setY (a : list T) (i : Z) (y : T) : list T := aset a (i * 3 + 1) y.

Definition setXYZ (a : list T) (i : Z) (x y z : T) : list T :=
  aset (aset (aset a (i * 3 + 0) x) (i * 3 + 1) y) (i * 3 + 2) z.

End Vector3Ops.

(** Modelled from the spec: the vertices of [PlaneGeometry (width, height,
    widthSegments, heightSegments)], the flat square grid of section 4.1.
    Vertex [iy * gridX1 + ix] is [(ix * segment_width - width_half,
    - (iy * segment_height - height_half), 0)]; its normal is [(0, 0, 1)]. *)
Definition planeVertex (width height : R) (gridX gridY : Z) (ix iy : nat)
  : Vector3 R :=
  mkVector3 (INR ix * (width / IZR gridX) - width / 2)
            (- (INR iy * (height / IZR gridY) - height / 2))
            0.

Definition planeNormal : Vector3 R := mkVector3 0 0 1.

(** Modelled from the spec: [geometry.rotateX (angle)] on one vector; it is
    applied to the positions and to the normals. *)
Definition rotateX (angle : R) (v : Vector3 R) : Vector3 R :=
  mkVector3 (vx v)
            (cos angle * vy v - sin angle * vz v)
            (sin angle * vy v + cos angle * vz v).

(** The flat array of a list of vectors. *)
Definition flatten (l : list (Vector3 R)) : list R :=
  flat_map (fun v => [vx v; vy v; vz v]) l.

(** Modelled from the spec: the grid points of the plane in buffer order,
    rows [iy], then columns [ix] (row-major, section 3); none when
    [gridX + 1 <= 0]. *)
Definition gridPoints (gridX gridY : Z) : list (nat * nat) :=
  flat_map (fun iy => map (fun ix => (ix, iy)) (seq 0 (Z.to_nat (gridX + 1))))
           (seq 0 (Z.to_nat (gridY + 1))).

End THREE.
Import THREE.

(** * The snow field system *)

(** The options of the constructor that reach the snow field. *)
Record Options := mkOptions {
  opt_size : option R;
  opt_segments : option Z;
  opt_debugObject : option (R * R)   (* planar position of a provided object *)
}.

Record SnowFieldSystem := mkSystem {
  snowSize : R;
  snowSegments : Z;
  subdivision : R;
  (* snowGeometry.attributes *)
  position : list R;
  normal : list R;
  color : list R;
  (* the snow data *)
  count : nat;
  basePositions : list R;
  baseNormals : list R;
  elevations : list R;
  trackIntensity : list R
}.

Definition set_position (s : SnowFieldSystem) (a : list R) :=
  mkSystem (snowSize s) (snowSegments s) (subdivision s) a (normal s)
           (color s) (count s) (basePositions s) (baseNormals s)
           (elevations s) (trackIntensity s).

Definition set_normal (s : SnowFieldSystem) (a : list R) :=
  mkSystem (snowSize s) (snowSegments s) (subdivision s) (position s) a
           (color s) (count s) (basePositions s) (baseNormals s)
           (elevations s) (trackIntensity s).

Definition set_color (s : SnowFieldSystem) (a : list R) :=
  mkSystem (snowSize s) (snowSegments s) (subdivision s) (position s)
           (normal s) a (count s) (basePositions s) (baseNormals s)
           (elevations s) (trackIntensity s).

Definition set_basePositions (s : SnowFieldSystem) (a : list R) :=
  mkSystem (snowSize s) (snowSegments s) (subdivision s) (position s)
           (normal s) (color s) (count s) a (baseNormals s)
           (elevations s) (trackIntensity s).

Definition set_baseNormals (s : SnowFieldSystem) (a : list R) :=
  mkSystem (snowSize s) (snowSegments s) (subdivision s) (position s)
           (normal s) (color s) (count s) (basePositions s) a
           (elevations s) (trackIntensity s).

Definition set_elevations (s : SnowFieldSystem) (a : list R) :=
  mkSystem (snowSize s) (snowSegments s) (subdivision s) (position s)
           (normal s) (color s) (count s) (basePositions s) (baseNormals s)
           a (trackIntensity s).

Definition set_trackIntensity (s : SnowFieldSystem) (a : list R) :=
  mkSystem (snowSize s) (snowSegments s) (subdivision s) (position s)
           (normal s) (color s) (count s) (basePositions s) (baseNormals s)
           (elevations s) a.

(** [a || d] on an option that may be missing: the default replaces a missing
    value and the falsy value 0. *)
Definition or_default_R (a : option R) (d : R) : R :=
  match a with
  | Some x => if Req_dec_T x 0 then d else x
  | None => d
  end.

Definition or_default_Z (a : option Z) (d : Z) : Z :=
  match a with
  | Some x => if (x =? 0)%Z then d else x
  | None => d
  end.

(** [initSnowData]: the loop body and the method. *)
Definition initSnowData_body (positions : list R) (i : Z) (s : SnowFieldSystem)
  : SnowFieldSystem :=
  let s := set_basePositions s (aset (basePositions s) (i * 3) (getX positions i)) in
  let s := set_basePositions s (aset (basePositions s) (i * 3 + 1) (getY positions i)) in
  let s := set_basePositions s (aset (basePositions s) (i * 3 + 2) (getZ positions i)) in
  let s := set_baseNormals s (aset (baseNormals s) (i * 3) 0) in
  let s := set_baseNormals s (aset (baseNormals s) (i * 3 + 1) 1) in
  let s := set_baseNormals s (aset (baseNormals s) (i * 3 + 2) 0) in
  let s := set_elevations s (aset (elevations s) i 0) in
  set_trackIntensity s (aset (trackIntensity s) i 0).

(** [trackLength] is the length the intensity array is allocated with:
    [count] in the class, [count * 5000] in [main.js]. *)
Definition initSnowData_with (trackLength : nat -> nat)
  (size : R) (segments : Z) (sub : R) (positions normals colors : list R)
  : SnowFieldSystem :=
  let n := (List.length positions / 3)%nat in     (* positions.count *)
  let s := mkSystem size segments sub positions normals colors n
             (repeat 0 (n * 3)) (repeat 0 (n * 3)) (repeat 0 n)
             (repeat 0 (trackLength n)) in
  for_loop n (initSnowData_body positions) s.

(** [createSnowField]: the rotated plane, white vertex colours, then
    [initSnowData]. *)
Definition createSnowField_with (trackLength : nat -> nat)
  (size : R) (segments : Z) (sub : R) : SnowFieldSystem :=
  let pts := gridPoints segments segments in
  let positions :=
    flatten (map (fun p => rotateX (- PI / 2)
                             (planeVertex size size segments segments (fst p) (snd p)))
                 pts) in
  let normals := flatten (map (fun _ => rotateX (- PI / 2) planeNormal) pts) in
  let colors := repeat 1 (List.length positions / 3 * 3) in
  initSnowData_with trackLength size segments sub positions normals colors.

(** [init] as far as the snow field goes. *)
Definition init_with (trackLength : nat -> nat) (size : R) (segments : Z)
  : SnowFieldSystem :=
  createSnowField_with trackLength size segments (size / IZR segments).

(** The field of [new SnowFieldSystem (options)] as [createSnowField] leaves
    it, before [init] starts the animation. *)
Definition createdField (o : Options) : SnowFieldSystem :=
  init_with (fun n => n) (or_default_R (opt_size o) 20)
            (or_default_Z (opt_segments o) 100).

(** [getVertexIndex (x, z)] *)
Definition getVertexIndex (s : SnowFieldSystem) (x z : R) : Z :=
  let halfSize := snowSize s / 2 in
  let xIndex := Zfloor ((x + halfSize) / subdivision s) in
  let zIndex := Zfloor ((z + halfSize) / subdivision s) in
  let clampedXIndex := Z.max 0 (Z.min (snowSegments s) xIndex) in
  let clampedZIndex := Z.max 0 (Z.min (snowSegments s) zIndex) in
  (clampedZIndex * (snowSegments s + 1) + clampedXIndex)%Z.

(** The normal of vertex [i] as the second loop of [updateSnowGeometry]
    computes it from the position attribute. *)
Definition vertexNormal {T} `{JsNumber T} (positionAttribute : list T)
  (segments : Z) (i : Z) : Vector3 T :=
  let x := (i mod (segments + 1))%Z in
  let z := (i / (segments + 1))%Z in
  let left := if (0 <? x)%Z then (i - 1)%Z else i in
  let right := if (x <? segments)%Z then (i + 1)%Z else i in
  let top := if (0 <? z)%Z then (i - (segments + 1))%Z else i in
  let bottom := if (z <? segments)%Z then (i + (segments + 1))%Z else i in
  let pos k := mkVector3 (getX positionAttribute k) (getY positionAttribute k)
                         (getZ positionAttribute k) in
  let currentPos := pos i in
  let leftPos := pos left in
  let rightPos := pos right in
  let topPos := pos top in
  let bottomPos := pos bottom in
  let toRight := normalize (subVectors rightPos currentPos) in
  let toBottom := normalize (subVectors bottomPos currentPos) in
  let toLeft := normalize (subVectors leftPos currentPos) in
  let toTop := normalize (subVectors topPos currentPos) in
  let normal1 := normalize (crossVectors toRight toBottom) in
  let normal2 := normalize (crossVectors toBottom toLeft) in
  let normal3 := normalize (crossVectors toLeft toTop) in
  let normal4 := normalize (crossVectors toTop toRight) in
  normalize (add (add (add (add newVector3 normal1) normal2) normal3) normal4).

(** [updateSnowGeometry]: first loop (heights and colours). *)
Definition updateSnowGeometry_body1 (i : Z) (s : SnowFieldSystem)
  : SnowFieldSystem :=
  let s := set_position s
             (setY (position s) i
                   (aget (basePositions s) (i * 3 + 1) + aget (elevations s) i)) in
  let intensity := aget (trackIntensity s) i in
  let r := 1 - intensity * 0.2 in
  let g := 1 - intensity * 0.15 in
  let b := 1 - intensity * 0.1 in
  set_color s (setXYZ (color s) i r g b).

(** Second loop (normals). *)
Definition updateSnowGeometry_body2 (i : Z) (s : SnowFieldSystem)
  : SnowFieldSystem :=
  let n := vertexNormal (position s) (snowSegments s) i in
  set_normal s (setXYZ (normal s) i (vx n) (vy n) (vz n)).

Definition updateSnowGeometry (s : SnowFieldSystem) : SnowFieldSystem :=
  let s := for_loop (count s) updateSnowGeometry_body1 s in
  for_loop (count s) updateSnowGeometry_body2 s.

(** [pressSnow (x, z, radius, depth, colorIntensity)]: the loop body. *)
Definition pressSnow_body (x z radius depth colorIntensity : R) (i : Z)
  (s : SnowFieldSystem) : SnowFieldSystem :=
  let vx := aget (basePositions s) (i * 3) in
  let vz := aget (basePositions s) (i * 3 + 2) in
  let distance := sqrt ((vx - x) ^ 2 + (vz - z) ^ 2) in
  if Rlt_dec distance radius then
    let influence := 1 - distance / radius in
    let newElevation := Rmin (aget (elevations s) i) (- depth * influence) in
    let s := if Rlt_dec newElevation (aget (elevations s) i)
             then set_elevations s (aset (elevations s) i newElevation)
             else s in
    let newIntensity :=
      Rmax (aget (trackIntensity s) i) (colorIntensity * influence) in
    if Rgt_dec newIntensity (aget (trackIntensity s) i)
    then set_trackIntensity s (aset (trackIntensity s) i newIntensity)
    else s
  else s.

Definition pressSnow (x z radius depth colorIntensity : R) (s : SnowFieldSystem)
  : SnowFieldSystem :=
  updateSnowGeometry
    (for_loop (count s) (pressSnow_body x z radius depth colorIntensity) s).

(** The defaults of [pressSnow] and [createTrack]:
    [radius = 0.5], [depth = 0.1], [colorIntensity = 0.6]. *)
Definition createTrack (x z : R) (radius depth colorIntensity : option R)
  (s : SnowFieldSystem) : SnowFieldSystem :=
  pressSnow x z
    (match radius with Some r => r | None => 0.5 end)
    (match depth with Some d => d | None => 0.1 end)
    (match colorIntensity with Some c => c | None => 0.6 end) s.

(** A press as data: the five arguments of one [pressSnow] call. *)
Record Press := mkPress {
  centerX : R; centerZ : R; radius : R; depth : R; colorIntensity : R
}.

Definition press (p : Press) (s : SnowFieldSystem) : SnowFieldSystem :=
  pressSnow (centerX p) (centerZ p) (radius p) (depth p) (colorIntensity p) s.

Definition presses (l : list Press) (s : SnowFieldSystem) : SnowFieldSystem :=
  fold_left (fun s p => press p s) l s.

(** [addVehicleTrack (position, wheelOffset = 0.2)]: the five presses, in
    the order of the calls. *)
Definition vehiclePresses (px pz wheelOffset : R) : list Press :=
  let wheelRadius := 0.1 in
  let wheelDepth := 0.08 in
  [ mkPress (px - wheelOffset) (pz - wheelOffset) wheelRadius wheelDepth 0.8;
    mkPress (px + wheelOffset) (pz - wheelOffset) wheelRadius wheelDepth 0.8;
    mkPress (px - wheelOffset) (pz + wheelOffset) wheelRadius wheelDepth 0.8;
    mkPress (px + wheelOffset) (pz + wheelOffset) wheelRadius wheelDepth 0.8;
    mkPress px pz 0.3 0.05 0.4 ].

Definition addVehicleTrack (px pz wheelOffset : R) (s : SnowFieldSystem)
  : SnowFieldSystem :=
  let wheelRadius := 0.1 in
  let wheelDepth := 0.08 in
  let s := pressSnow (px - wheelOffset) (pz - wheelOffset) wheelRadius wheelDepth 0.8 s in
  let s := pressSnow (px + wheelOffset) (pz - wheelOffset) wheelRadius wheelDepth 0.8 s in
  let s := pressSnow (px - wheelOffset) (pz + wheelOffset) wheelRadius wheelDepth 0.8 s in
  let s := pressSnow (px + wheelOffset) (pz + wheelOffset) wheelRadius wheelDepth 0.8 s in
  pressSnow px pz 0.3 0.05 0.4 s.

(** [resetSnow ()] *)
Definition resetSnow_body (i : Z) (s : SnowFieldSystem) : SnowFieldSystem :=
  let s := set_elevations s (aset (elevations s) i 0) in
  set_trackIntensity s (aset (trackIntensity s) i 0).

Definition resetSnow (s : SnowFieldSystem) : SnowFieldSystem :=
  updateSnowGeometry (for_loop (count s) resetSnow_body s).

(** [updateVehiclePosition ()] while no key is down, as in the call of
    [animate ()] that ends [init]: the cube at planar position [cube], last
    seen at [last], is clamped to the field, and if that moved it, its track
    is added.  (The later frames belong to the host loop.) *)
Definition updateVehiclePosition_idle (s : SnowFieldSystem) (cube last : R * R)
  : SnowFieldSystem :=
  let limit := snowSize s / 2 - 1 in
  let x := Rmax (- limit) (Rmin limit (fst cube)) in
  let z := Rmax (- limit) (Rmin limit (snd cube)) in
  if Req_dec_T x (fst last)
  then if Req_dec_T z (snd last) then s else addVehicleTrack x z 0.2 s
  else addVehicleTrack x z 0.2 s.

(** [new SnowFieldSystem (options)]: [init] creates the field and the cube
    (the provided object, or a cube at the origin), remembers its position
    and runs the first [animate ()]. *)
Definition construct (o : Options) : SnowFieldSystem :=
  let cube := match opt_debugObject o with Some c => c | None => (0, 0) end in
  updateVehiclePosition_idle (createdField o) cube cube.

(** The top level of [main.js]: the same construction with the constants
    [snowSize = 20], [snowSegments = 100], an intensity array of
    [count * 5000] entries and the cube at the origin; its first [animate ()]
    makes the same five presses when the clamp moves the cube. *)
Module Main.
Definition snowSize : R := 20.
Definition snowSegments : Z := 100.
Definition created : SnowFieldSystem :=
  init_with (fun n => (n * 5000)%nat) snowSize snowSegments.
Definition initial : SnowFieldSystem :=
  updateVehiclePosition_idle created (0, 0) (0, 0).
End Main.

(** The invariant of the arrays: every loop index is in range.  The
    intensity array may be longer than [count] (it is in [main.js]). *)
Record wf (s : SnowFieldSystem) : Prop := mkWf {
  wf_base : List.length (basePositions s) = (count s * 3)%nat;
  wf_elev : List.length (elevations s) = count s;
  wf_track : (count s <= List.length (trackIntensity s))%nat;
  wf_position : List.length (position s) = (count s * 3)%nat;
  wf_normal : List.length (normal s) = (count s * 3)%nat;
  wf_color : List.length (color s) = (count s * 3)%nat;
  wf_size : snowSize s <> 0;
  wf_segments : snowSegments s <> 0%Z;
  wf_subdivision : subdivision s = snowSize s / IZR (snowSegments s);
  wf_count : count s = (Z.to_nat (snowSegments s + 1) * Z.to_nat (snowSegments s + 1))%nat;
  wf_xz : forall i, aget (position s) (i * 3) = aget (basePositions s) (i * 3) /\
                    aget (position s) (i * 3 + 2) = aget (basePositions s) (i * 3 + 2)
}.

(** * Vocabulary of the properties *)

(** ** Frames: what an operation leaves alone *)

(** The grid parameters and the base data of [t] are those of [s]. *)
Definition same_grid (s t : SnowFieldSystem) : Prop :=
  snowSize t = snowSize s /\ snowSegments t = snowSegments s /\
  subdivision t = subdivision s /\ count t = count s /\
  basePositions t = basePositions s /\ baseNormals t = baseNormals s.

(** The three geometry attributes of [t] are those of [s]. *)
Definition same_attributes (s t : SnowFieldSystem) : Prop :=
  position t = position s /\ normal t = normal s /\ color t = color s.

(** The elevations and track intensities of [t] are those of [s]. *)
Definition same_data (s t : SnowFieldSystem) : Prop :=
  elevations t = elevations s /\ trackIntensity t = trackIntensity s.

(** The geometry attributes of [t] have the lengths of those of [s]. *)
Definition same_lengths (s t : SnowFieldSystem) : Prop :=
  List.length (position t) = List.length (position s) /\
  List.length (normal t) = List.length (normal s) /\
  List.length (color t) = List.length (color s).

(** ** Presses *)

(** The distance of sample [i] to the centre of a press, and the values the
    press induces there. *)
Definition sampleDistance (s : SnowFieldSystem) (x z : R) (i : Z) : R :=
  sqrt ((aget (basePositions s) (i * 3) - x) ^ 2 +
        (aget (basePositions s) (i * 3 + 2) - z) ^ 2).

Definition pressedElevation (s : SnowFieldSystem) (x z r d : R) (i : Z) (e : R)
  : R :=
  if Rlt_dec (sampleDistance s x z i) r
  then Rmin e (- d * (1 - sampleDistance s x z i / r)) else e.

Definition pressedIntensity (s : SnowFieldSystem) (x z r c : R) (i : Z) (t : R)
  : R :=
  if Rlt_dec (sampleDistance s x z i) r
  then Rmax t (c * (1 - sampleDistance s x z i / r)) else t.

(** The presses the invariants are stated for: [depth >= 0], [radius > 0],
    [colorIntensity] in [[0, 1]]. *)
Definition validPress (p : Press) : Prop :=
  0 <= depth p /\ 0 < radius p /\ 0 <= colorIntensity p <= 1.

(** ** Loop invariants *)

(** The state after the first [n] iterations of the loop of [pressSnow]. *)
Definition press_inv (x z r d c : R) (s : SnowFieldSystem) (n : nat)
  (t : SnowFieldSystem) : Prop :=
  same_grid s t /\ same_attributes s t /\
  List.length (elevations t) = List.length (elevations s) /\
  List.length (trackIntensity t) = List.length (trackIntensity s) /\
  (forall k, (0 <= k < Z.of_nat n)%Z ->
     aget (elevations t) k = pressedElevation s x z r d k (aget (elevations s) k) /\
     aget (trackIntensity t) k =
       pressedIntensity s x z r c k (aget (trackIntensity s) k)) /\
  (forall k, ~ (0 <= k < Z.of_nat n)%Z ->
     aget (elevations t) k = aget (elevations s) k /\
     aget (trackIntensity t) k = aget (trackIntensity s) k).

(** The state after the first [n] iterations of the loop of [initSnowData]. *)
Definition init_inv (positions : list R) (s : SnowFieldSystem) (n : nat)
  (t : SnowFieldSystem) : Prop :=
  (snowSize t = snowSize s /\ snowSegments t = snowSegments s /\
   subdivision t = subdivision s /\ count t = count s) /\
  same_attributes s t /\
  (List.length (basePositions t) = List.length (basePositions s) /\
   List.length (baseNormals t) = List.length (baseNormals s) /\
   List.length (elevations t) = List.length (elevations s) /\
   List.length (trackIntensity t) = List.length (trackIntensity s)) /\
  (forall k, (0 <= k < Z.of_nat n * 3)%Z ->
     aget (basePositions t) k = aget positions k) /\
  (forall i, (0 <= i < Z.of_nat n)%Z ->
     aget (baseNormals t) (i * 3) = 0 /\ aget (baseNormals t) (i * 3 + 1) = 1 /\
     aget (baseNormals t) (i * 3 + 2) = 0) /\
  (forall k, aget (elevations t) k = 0) /\
  (forall k, aget (trackIntensity t) k = 0).

(** The normal estimator is kept folded in the invariants below. *)
Arguments vertexNormal : simpl never.

(** The state after the first [n] iterations of the first loop of
    [updateSnowGeometry] (heights and colours). *)
Definition update1_inv (s : SnowFieldSystem) (n : nat) (t : SnowFieldSystem)
  : Prop :=
  same_grid s t /\ same_data s t /\ normal t = normal s /\ same_lengths s t /\
  (forall i, aget (position t) (i * 3) = aget (position s) (i * 3) /\
             aget (position t) (i * 3 + 2) = aget (position s) (i * 3 + 2)) /\
  (forall i, (0 <= i < Z.of_nat n)%Z ->
     aget (position t) (i * 3 + 1) =
       aget (basePositions s) (i * 3 + 1) + aget (elevations s) i) /\
  (forall i, ~ (0 <= i < Z.of_nat n)%Z ->
     aget (position t) (i * 3 + 1) = aget (position s) (i * 3 + 1)) /\
  (forall i, (0 <= i < Z.of_nat n)%Z ->
     aget (color t) (i * 3) = 1 - aget (trackIntensity s) i * 0.2 /\
     aget (color t) (i * 3 + 1) = 1 - aget (trackIntensity s) i * 0.15 /\
     aget (color t) (i * 3 + 2) = 1 - aget (trackIntensity s) i * 0.1) /\
  (forall i c, ~ (0 <= i < Z.of_nat n)%Z -> (0 <= c < 3)%Z ->
     aget (color t) (i * 3 + c) = aget (color s) (i * 3 + c)).

(** The state after the first [n] iterations of its second loop (normals). *)
Definition update2_inv (s : SnowFieldSystem) (n : nat) (t : SnowFieldSystem)
  : Prop :=
  same_grid s t /\ same_data s t /\ position t = position s /\
  color t = color s /\ same_lengths s t /\
  (forall i, (0 <= i < Z.of_nat n)%Z ->
     aget (normal t) (i * 3) = vx (vertexNormal (position s) (snowSegments s) i) /\
     aget (normal t) (i * 3 + 1) = vy (vertexNormal (position s) (snowSegments s) i) /\
     aget (normal t) (i * 3 + 2) = vz (vertexNormal (position s) (snowSegments s) i)) /\
  (forall i c, ~ (0 <= i < Z.of_nat n)%Z -> (0 <= c < 3)%Z ->
     aget (normal t) (i * 3 + c) = aget (normal s) (i * 3 + c)).

(** ** Fresh grids *)

(** The position and normal buffers of the rotated plane of
    [createSnowField], and its number of vertices. *)
Definition planePositions (size : R) (segments : Z) : list R :=
  flatten (map (fun p => rotateX (- PI / 2)
                           (planeVertex size size segments segments (fst p) (snd p)))
               (gridPoints segments segments)).

Definition planeNormals (segments : Z) : list R :=
  flatten (map (fun _ => rotateX (- PI / 2) planeNormal)
               (gridPoints segments segments)).

Definition gridCount (segments : Z) : nat :=
  (Z.to_nat (segments + 1) * Z.to_nat (segments + 1))%nat.

(** The freshly constructed, all-zero states: of the class, and of
    [main.js]. *)
Definition fresh (s : SnowFieldSystem) : Prop :=
  ((exists o, s = construct o) \/ s = Main.initial) /\
  (forall k, aget (elevations s) k = 0) /\
  (forall k, aget (trackIntensity s) k = 0).

(** A small grid for concrete instances: [size = 2], [segments = 1], the four
    samples [(-1,-1)], [(1,-1)], [(-1,1)], [(1,1)]. *)
Definition grid2 : SnowFieldSystem := construct (mkOptions (Some 2) (Some 1%Z) None).

(** ** Completion of the constructor *)

(** The error the spec names for invalid construction arguments. *)
Inductive Error : Type := InvalidArgument.

(** How a call completes.  The constructor and [init] contain no [throw]:
    the only completion the sources give is a normal return. *)
Inductive Completion (A : Type) : Type :=
| Returned (a : A)
| Thrown (e : Error).
Arguments Returned {A} _.
Arguments Thrown {A} _.

(** [new SnowFieldSystem (options)] *)
Definition newSnowFieldSystem (o : Options) : Completion SnowFieldSystem :=
  Returned (construct o).

(** ** Normals *)

(** The current position of sample [i]: its base position lowered by its
    elevation. *)
Definition currentPosition (s : SnowFieldSystem) (i : Z) : Vector3 R :=
  mkVector3 (aget (basePositions s) (i * 3))
            (aget (basePositions s) (i * 3 + 1) + aget (elevations s) i)
            (aget (basePositions s) (i * 3 + 2)).

(** The index of the sample at grid coordinates [(x, z)], row-major. *)
Definition sampleIndex (s : SnowFieldSystem) (x z : Z) : Z :=
  (z * (snowSegments s + 1) + x)%Z.

(** Grid coordinates that name a sample. *)
Definition inGrid (s : SnowFieldSystem) (x z : Z) : bool :=
  (0 <=? x)%Z && (x <=? snowSegments s)%Z &&
  (0 <=? z)%Z && (z <=? snowSegments s)%Z.

(** The neighbour of [(x, z)] in direction [(dx, dz)]; at a grid boundary
    the sample itself (clamped, not wrapped). *)
Definition neighbor (s : SnowFieldSystem) (x z dx dz : Z) : Z :=
  if inGrid s (x + dx) (z + dz) then sampleIndex s (x + dx) (z + dz)
  else sampleIndex s x z.

(** The normalised edge vector from the sample to that neighbour. *)
Definition edgeTo (s : SnowFieldSystem) (x z dx dz : Z) : Vector3 R :=
  normalize (subVectors (currentPosition s (neighbor s x z dx dz))
                        (currentPosition s (sampleIndex s x z))).

(** The normal of the sample at grid coordinates [(x, z)] in the words of
    the spec (section 4.1, [deriveRenderAttributes]): the four axis-aligned
    neighbours, the sample itself standing in at a grid boundary; the four
    normalised edge vectors to the neighbours' current positions; the four
    normalised cross products right x bottom, bottom x left, left x top,
    top x right; their sum, normalised.  "Top" is the row [z - 1], "bottom"
    the row [z + 1]. *)
Definition spec_normal (s : SnowFieldSystem) (x z : Z) : Vector3 R :=
  let right := edgeTo s x z 1 0 in
  let bottom := edgeTo s x z 0 1 in
  let left := edgeTo s x z (-1) 0 in
  let top := edgeTo s x z 0 (-1) in
  normalize
    (add (add (add (normalize (crossVectors right bottom))
                   (normalize (crossVectors bottom left)))
              (normalize (crossVectors left top)))
         (normalize (crossVectors top right))).

(** The normal stored for sample [i]. *)
Definition storedNormal (s : SnowFieldSystem) (i : Z) : Vector3 R :=
  mkVector3 (getX (normal s) i) (getY (normal s) i) (getZ (normal s) i).

Definition zeroVector : Vector3 R := mkVector3 0 0 0.
Definition unitX : Vector3 R := mkVector3 1 0 0.
Definition unitZ : Vector3 R := mkVector3 0 0 1.
Definition upward : Vector3 R := mkVector3 0 1 0.
Definition downward : Vector3 R := mkVector3 0 (-1) 0.

(** A vector of finite components in the arithmetic with NaN. *)
Definition finite (v : Vector3 R) : Vector3 (option R) :=
  mkVector3 (Some (vx v)) (Some (vy v)) (Some (vz v)).

(** The estimate that short-circuits collapsed edges, in the words of the
    spec's degenerate case: the edge to a neighbour only where the neighbour
    exists, the face normal of a pair of adjacent edges only where both
    exist, and the normalised sum of the face normals that remain. *)
Definition edgeIfNeighbor (s : SnowFieldSystem) (x z dx dz : Z)
  : option (Vector3 R) :=
  if inGrid s (x + dx) (z + dz) then Some (edgeTo s x z dx dz) else None.

Definition faceNormal (a b : option (Vector3 R)) : list (Vector3 R) :=
  match a, b with
  | Some u, Some v => [normalize (crossVectors u v)]
  | _, _ => []
  end.

Definition skipping_normal (s : SnowFieldSystem) (x z : Z) : Vector3 R :=
  let right := edgeIfNeighbor s x z 1 0 in
  let bottom := edgeIfNeighbor s x z 0 1 in
  let left := edgeIfNeighbor s x z (-1) 0 in
  let top := edgeIfNeighbor s x z 0 (-1) in
  normalize
    (fold_left add
       (faceNormal right bottom ++ faceNormal bottom left ++
        faceNormal left top ++ faceNormal top right)
       newVector3).

(** A state whose samples lie on the fresh plane, all elevations zero. *)
Record flat (s : SnowFieldSystem) : Prop := mkFlat {
  flat_wf : wf s;
  flat_size : 0 < snowSize s;
  flat_segments : (0 < snowSegments s)%Z;
  flat_base : basePositions s = planePositions (snowSize s) (snowSegments s);
  flat_elev : forall i, (0 <= i < Z.of_nat (count s))%Z -> aget (elevations s) i = 0
}.

(** * The states the operations reach *)

(** One call of the public operations on the field. *)
Inductive step : SnowFieldSystem -> SnowFieldSystem -> Prop :=
| step_press (p : Press) (s : SnowFieldSystem) :
    validPress p -> step s (press p s)
| step_createTrack (x z : R) (r d c : option R) (s : SnowFieldSystem) :
    validPress (mkPress x z (match r with Some v => v | None => 0.5 end)
                        (match d with Some v => v | None => 0.1 end)
                        (match c with Some v => v | None => 0.6 end)) ->
    step s (createTrack x z r d c s)
| step_track (px pz wheelOffset : R) (s : SnowFieldSystem) :
    step s (addVehicleTrack px pz wheelOffset s)
| step_reset (s : SnowFieldSystem) : step s (resetSnow s)
| step_update (s : SnowFieldSystem) : step s (updateSnowGeometry s).

(** The states reached from construction, of the class or of [main.js]. *)
Inductive reachable : SnowFieldSystem -> Prop :=
| reach_construct (o : Options) : reachable (construct o)
| reach_main : reachable Main.initial
| reach_step (s t : SnowFieldSystem) : reachable s -> step s t -> reachable t.

(** The snow data within its bounds, and the position and colour attributes
    in step with it. *)
Record coherent (s : SnowFieldSystem) : Prop := mkCoherent {
  coherent_wf : wf s;
  coherent_elevation :
    forall i, (0 <= i < Z.of_nat (count s))%Z -> aget (elevations s) i <= 0;
  coherent_intensity :
    forall i, (0 <= i < Z.of_nat (count s))%Z -> 0 <= aget (trackIntensity s) i <= 1;
  coherent_position :
    forall i, (0 <= i < Z.of_nat (count s))%Z ->
      getY (position s) i = getY (basePositions s) i + aget (elevations s) i;
  coherent_color :
    forall i, (0 <= i < Z.of_nat (count s))%Z ->
      getX (color s) i = 1 - aget (trackIntensity s) i * 0.2 /\
      getY (color s) i = 1 - aget (trackIntensity s) i * 0.15 /\
      getZ (color s) i = 1 - aget (trackIntensity s) i * 0.1
}.

(** A grid on the plane of [createSnowField], with positive size and
    segments. *)
Record grounded (s : SnowFieldSystem) : Prop := mkGrounded {
  grounded_wf : wf s;
  grounded_size : 0 < snowSize s;
  grounded_segments : (0 < snowSegments s)%Z;
  grounded_base : basePositions s = planePositions (snowSize s) (snowSegments s)
}.

(** * The vehicle, the keyboard and the frame *)

(** [this.keys]: the four control keys. *)
Record Keys := mkKeys { key_w : bool; key_a : bool; key_s : bool; key_d : bool }.

(** [initControls ()] *)
Definition initControls : Keys := mkKeys false false false false.

(** The key listeners of [initEventListeners].  A key name is a string of
    ASCII characters; [e.key.toLowerCase () in this.keys] holds for the four
    names ["w"], ["a"], ["s"], ["d"] (the names the object inherits, such as
    ["constructor"], never reach the four flags). *)
Module Keyboard.
Import String Ascii.
Local Open Scope string_scope.

Definition lowerAscii (c : ascii) : ascii :=
  let n := nat_of_ascii c in
  if ((65 <=? n)%nat && (n <=? 90)%nat)%bool then ascii_of_nat (n + 32) else c.

(** [String.prototype.toLowerCase] on ASCII strings. *)
Fixpoint toLowerCase (s : string) : string :=
  match s with
  | EmptyString => EmptyString
  | String c t => String (lowerAscii c) (toLowerCase t)
  end.

Definition w : string := "w".
Definition a : string := "a".
Definition s : string := "s".
Definition d : string := "d".
Definition upper_w : string := "W".
Definition upper_a : string := "A".
Definition upper_s : string := "S".
Definition upper_d : string := "D".

(** [if (name in this.keys) this.keys[name] = v] *)
Definition setKey (k : Keys) (name : string) (v : bool) : Keys :=
  if String.eqb name w then mkKeys v (key_a k) (key_s k) (key_d k)
  else if String.eqb name a then mkKeys (key_w k) v (key_s k) (key_d k)
  else if String.eqb name s then mkKeys (key_w k) (key_a k) v (key_d k)
  else if String.eqb name d then mkKeys (key_w k) (key_a k) (key_s k) v
  else k.

(** The [keydown] and [keyup] listeners on [e.key]. *)
Definition keydown (k : Keys) (key : string) : Keys := setKey k (toLowerCase key) true.
Definition keyup (k : Keys) (key : string) : Keys := setKey k (toLowerCase key) false.

End Keyboard.

(** The cube and what [updateVehiclePosition] keeps about it. *)
Record Vehicle := mkVehicle {
  cubePosition : Vector3 R;     (* this.cube.position *)
  cubeRotationY : R;            (* this.cube.rotation.y *)
  lastPosition : Vector3 R;
  keys : Keys;
  movementSpeed : R
}.

(** Modelled from the spec: [Vector3.equals (v)] of three.js, the test
    whether the tracked position has changed since the last tick
    (section 6). *)
Definition equals (a b : Vector3 R) : bool :=
  if Req_dec_T (vx a) (vx b)
  then if Req_dec_T (vy a) (vy b)
       then if Req_dec_T (vz a) (vz b) then true else false
       else false
  else false.

(** Modelled from the spec: [Math.atan2 (y, x)] of JavaScript on real
    numbers, the angle of the direction of travel (signed zeros are not
    told apart). *)
Definition atan2 (y x : R) : R :=
  if Rlt_dec 0 x then atan (y / x)
  else if Rlt_dec x 0
       then if Rle_dec 0 y then atan (y / x) + PI else atan (y / x) - PI
       else if Rlt_dec 0 y then PI / 2
            else if Rlt_dec y 0 then - (PI / 2) else 0.

(** The four key tests that move the cube, in the order of the source:
    [w], [s], [a], [d]. *)
Definition moveByKeys (k : Keys) (speed : R) (p : Vector3 R) : Vector3 R :=
  let p := if key_w k then mkVector3 (vx p) (vy p) (vz p - speed) else p in
  let p := if key_s k then mkVector3 (vx p) (vy p) (vz p + speed) else p in
  let p := if key_a k then mkVector3 (vx p - speed) (vy p) (vz p) else p in
  if key_d k then mkVector3 (vx p + speed) (vy p) (vz p) else p.

(** The limit of the cube on the field and the clamp to it. *)
Definition fieldLimit (s : SnowFieldSystem) : R := snowSize s / 2 - 1.

Definition clampToField (s : SnowFieldSystem) (p : Vector3 R) : Vector3 R :=
  let limit := fieldLimit s in
  mkVector3 (Rmax (- limit) (Rmin limit (vx p))) (vy p)
            (Rmax (- limit) (Rmin limit (vz p))).

(** [updateVehiclePosition ()] of the class. *)
Definition updateVehiclePosition (w : SnowFieldSystem * Vehicle)
  : SnowFieldSystem * Vehicle :=
  let (s, v) := w in
  let oldPosition := cubePosition v in
  let k := keys v in
  let moved := key_w k || key_s k || key_a k || key_d k in
  let p := moveByKeys k (movementSpeed v) (cubePosition v) in
  let rotation :=
    if moved then
      let moveVector := normalize (subVectors p oldPosition) in
      if Rgt_dec (vlength moveVector) 0.001
      then atan2 (vx moveVector) (vz moveVector)
      else cubeRotationY v
    else cubeRotationY v in
  let p := clampToField s p in
  if equals p (lastPosition v)
  then (s, mkVehicle p rotation (lastPosition v) k (movementSpeed v))
  else (addVehicleTrack (vx p) (vz p) 0.2 s,
        mkVehicle p rotation p k (movementSpeed v)).

(** The body of [animate ()] in [main.js]: the same moves at the constant
    speed 0.05, the clamp, and the five presses written out; the cube is not
    turned. *)
Definition mainAnimate (w : SnowFieldSystem * Vehicle) : SnowFieldSystem * Vehicle :=
  let (s, v) := w in
  let k := keys v in
  let p := moveByKeys k 0.05 (cubePosition v) in
  let p := clampToField s p in
  if equals p (lastPosition v)
  then (s, mkVehicle p (cubeRotationY v) (lastPosition v) k (movementSpeed v))
  else
    let wheelRadius := 0.1 in
    let wheelDepth := 0.08 in
    let wheelOffset := 0.2 in
    let s := pressSnow (vx p - wheelOffset) (vz p - wheelOffset) wheelRadius wheelDepth 0.8 s in
    let s := pressSnow (vx p + wheelOffset) (vz p - wheelOffset) wheelRadius wheelDepth 0.8 s in
    let s := pressSnow (vx p - wheelOffset) (vz p + wheelOffset) wheelRadius wheelDepth 0.8 s in
    let s := pressSnow (vx p + wheelOffset) (vz p + wheelOffset) wheelRadius wheelDepth 0.8 s in
    let s := pressSnow (vx p) (vz p) 0.3 0.05 0.4 s in
    (s, mkVehicle p (cubeRotationY v) p k (movementSpeed v)).

(** What happens between and at the frames: a key goes down, a key goes up,
    or [animate ()] runs. *)
Inductive Event : Type :=
| KeyDown (key : String.string)
| KeyUp (key : String.string)
| Frame.

Definition withKeys (v : Vehicle) (k : Keys) : Vehicle :=
  mkVehicle (cubePosition v) (cubeRotationY v) (lastPosition v) k (movementSpeed v).

Definition handle (w : SnowFieldSystem * Vehicle) (e : Event)
  : SnowFieldSystem * Vehicle :=
  match e with
  | KeyDown key => (fst w, withKeys (snd w) (Keyboard.keydown (keys (snd w)) key))
  | KeyUp key => (fst w, withKeys (snd w) (Keyboard.keyup (keys (snd w)) key))
  | Frame => updateVehiclePosition w
  end.

Definition run (l : list Event) (w : SnowFieldSystem * Vehicle)
  : SnowFieldSystem * Vehicle :=
  fold_left handle l w.


(** The system as [init] leaves it: the field of [createSnowField], the
    cube (the provided object at height [cubeY] with rotation [rotation], or
    the default cube at [(0, 0.1, 0)]), the keys up, the cube's position
    remembered, and the first [animate ()] run. *)
Definition startCube (o : Options) (cubeY : R) : Vector3 R :=
  match opt_debugObject o with
  | Some c => mkVector3 (fst c) cubeY (snd c)
  | None => mkVector3 0 0.1 0
  end.

Definition startWorld (o : Options) (cubeY rotation : R) (speed : option R)
  : SnowFieldSystem * Vehicle :=
  updateVehiclePosition
    (createdField o,
     mkVehicle (startCube o cubeY) rotation (startCube o cubeY) initControls
               (or_default_R speed 0.05)).


(** Concrete instances: the small grid after one press at its first sample,
    and the default cube at its start, [(0, 0.1, 0)] with speed 0.05, with
    given keys. *)
Definition grid2_pressed : SnowFieldSystem := press (mkPress (-1) (-1) 1 0.1 0.6) grid2.

Definition parked (k : Keys) : Vehicle :=
  mkVehicle (mkVector3 0 0.1 0) 0 (mkVector3 0 0.1 0) k 0.05.

(** * Properties *)

(** ** Arrays and loops *)

Lemma update_length {A} (n : nat) (v : A) (l : list A) :
  List.length (update n v l) = List.length l.
Proof.
  revert n; induction l as [|h t IH]; intros [|n]; simpl; auto.
Qed.

Lemma nth_update_same {A} (n : nat) (v d : A) (l : list A) :
  (n < List.length l)%nat -> nth n (update n v l) d = v.
Proof.
  revert n; induction l as [|h t IH]; intros [|n] Hn; simpl in *; try lia; auto.
  apply IH; lia.
Qed.

Lemma nth_update_other {A} (n m : nat) (v d : A) (l : list A) :
  n <> m -> nth m (update n v l) d = nth m l d.
Proof.
  revert n m; induction l as [|h t IH]; intros [|n] [|m] Hnm; simpl;
    try reflexivity; try congruence.
  apply IH; congruence.
Qed.

Lemma aset_length {T} (a : list T) (k : Z) (v : T) :
  List.length (aset a k v) = List.length a.
Proof.
  unfold aset; destruct (k <? 0)%Z; auto using update_length.
Qed.

Lemma aget_aset_same {T} `{JsNumber T} (a : list T) (k : Z) (v : T) :
  (0 <= k < Z.of_nat (List.length a))%Z -> aget (aset a k v) k = v.
Proof.
  intros Hk; unfold aget, aset.
  destruct (Z.ltb_spec k 0); [lia|].
  apply nth_update_same; lia.
Qed.

Lemma aget_aset_other {T} `{JsNumber T} (a : list T) (k k' : Z) (v : T) :
  k <> k' -> aget (aset a k v) k' = aget a k'.
Proof.
  intros Hk; unfold aget, aset.
  destruct (Z.ltb_spec k' 0); [reflexivity|].
  destruct (Z.ltb_spec k 0); [reflexivity|].
  apply nth_update_other; lia.
Qed.

Lemma for_loop_0 {S} (body : Z -> S -> S) (s : S) : for_loop 0 body s = s.
Proof. reflexivity. Qed.

Lemma for_loop_S {S} (n : nat) (body : Z -> S -> S) (s : S) :
  for_loop (Datatypes.S n) body s = body (Z.of_nat n) (for_loop n body s).
Proof.
  unfold for_loop; rewrite seq_S, fold_left_app; reflexivity.
Qed.

(** A loop invariant [P n] carried through [for_loop]. *)
Lemma for_loop_ind {S} (P : nat -> S -> Prop) (body : Z -> S -> S) (s : S)
  (n : nat) :
  P O s ->
  (forall k t, (k < n)%nat -> P k t -> P (Datatypes.S k) (body (Z.of_nat k) t)) ->
  P n (for_loop n body s).
Proof.
  intros H0 Hstep.
  assert (Hall : forall k, (k <= n)%nat -> P k (for_loop k body s)).
  { induction k as [|k IH]; intros Hk; [exact H0|].
    rewrite for_loop_S; apply Hstep; [lia|apply IH; lia]. }
  apply Hall; lia.
Qed.

(** Two lists of one length with the same reads are equal. *)
Lemma aget_ext (a b : list R) :
  List.length a = List.length b ->
  (forall k, (0 <= k < Z.of_nat (List.length a))%Z -> aget a k = aget b k) ->
  a = b.
Proof.
  intros Hlen Hget; apply (nth_ext a b 0 0 Hlen).
  intros n Hn; specialize (Hget (Z.of_nat n)).
  unfold aget in Hget; destruct (Z.ltb_spec (Z.of_nat n) 0); [lia|].
  rewrite Nat2Z.id in Hget; apply Hget; lia.
Qed.

(** ** The frame of the deformation loops: what they leave alone *)

Lemma same_grid_refl s : same_grid s s.
Proof. repeat split. Qed.

Lemma same_grid_trans s t u : same_grid s t -> same_grid t u -> same_grid s u.
Proof. unfold same_grid; intuition congruence. Qed.

(** ** pressSnow *)

Lemma pressSnow_body_frame x z r d c i s :
  same_grid s (pressSnow_body x z r d c i s) /\
  same_attributes s (pressSnow_body x z r d c i s) /\
  List.length (elevations (pressSnow_body x z r d c i s)) = List.length (elevations s) /\
  List.length (trackIntensity (pressSnow_body x z r d c i s)) =
    List.length (trackIntensity s).
Proof.
  unfold pressSnow_body, same_grid, same_attributes.
  repeat match goal with |- context [if ?b then _ else _] => destruct b end;
    simpl; rewrite ?aset_length; repeat split.
Qed.

Lemma pressSnow_body_other x z r d c i s k :
  k <> i ->
  aget (elevations (pressSnow_body x z r d c i s)) k = aget (elevations s) k /\
  aget (trackIntensity (pressSnow_body x z r d c i s)) k = aget (trackIntensity s) k.
Proof.
  intros Hk; unfold pressSnow_body.
  repeat match goal with |- context [if ?b then _ else _] => destruct b end;
    simpl; rewrite ?aget_aset_other by congruence; split; reflexivity.
Qed.

Lemma pressSnow_body_same x z r d c i s :
  (0 <= i < Z.of_nat (List.length (elevations s)))%Z ->
  (i < Z.of_nat (List.length (trackIntensity s)))%Z ->
  aget (elevations (pressSnow_body x z r d c i s)) i =
    pressedElevation s x z r d i (aget (elevations s) i) /\
  aget (trackIntensity (pressSnow_body x z r d c i s)) i =
    pressedIntensity s x z r c i (aget (trackIntensity s) i).
Proof.
  intros He Ht; unfold pressSnow_body, pressedElevation, pressedIntensity.
  fold (sampleDistance s x z i).
  destruct (Rlt_dec (sampleDistance s x z i) r) as [Hd|Hd]; [|split; reflexivity].
  set (v := - d * (1 - sampleDistance s x z i / r)).
  set (w := c * (1 - sampleDistance s x z i / r)).
  destruct (Rlt_dec (Rmin (aget (elevations s) i) v) (aget (elevations s) i)) as [H1|H1];
    simpl;
    match goal with |- context [Rgt_dec ?a ?b] => destruct (Rgt_dec a b) as [H2|H2] end;
    simpl; rewrite ?aget_aset_same by lia; split; try reflexivity;
    try (unfold Rmin in *; destruct (Rle_dec (aget (elevations s) i) v); lra);
    try (unfold Rmax in *; destruct (Rle_dec (aget (trackIntensity s) i) w); lra).
Qed.

Lemma sampleDistance_grid s t x z i :
  basePositions t = basePositions s -> sampleDistance t x z i = sampleDistance s x z i.
Proof. intros E; unfold sampleDistance; rewrite E; reflexivity. Qed.

Lemma sampleDistance_nonneg s x z i : 0 <= sampleDistance s x z i.
Proof. apply sqrt_pos. Qed.

Lemma press_loop_spec x z r d c s n :
  (n <= List.length (elevations s))%nat ->
  (n <= List.length (trackIntensity s))%nat ->
  press_inv x z r d c s n (for_loop n (pressSnow_body x z r d c) s).
Proof.
  intros He Ht.
  apply (for_loop_ind (press_inv x z r d c s)).
  - unfold press_inv, same_attributes; repeat split; auto using same_grid_refl; lia.
  - intros k t Hk (Hg & Ha & Hle & Hlt & Hin & Hout).
    destruct (pressSnow_body_frame x z r d c (Z.of_nat k) t) as (Hg' & Ha' & Hle' & Hlt').
    assert (Hb : basePositions t = basePositions s) by apply Hg.
    unfold press_inv; repeat split.
    1-6: unfold same_grid in *; intuition congruence.
    1-3: unfold same_attributes in *; intuition congruence.
    1-2: congruence.
    + destruct (Z.eq_dec k0 (Z.of_nat k)) as [->|Hne].
      * destruct (pressSnow_body_same x z r d c (Z.of_nat k) t) as [E _]; [lia|lia|].
        rewrite E; unfold pressedElevation.
        rewrite (sampleDistance_grid s t) by exact Hb.
        destruct (Hout (Z.of_nat k)) as [E' _]; [lia|]; rewrite E'; reflexivity.
      * destruct (pressSnow_body_other x z r d c (Z.of_nat k) t k0 Hne) as [E _].
        rewrite E; apply Hin; lia.
    + destruct (Z.eq_dec k0 (Z.of_nat k)) as [->|Hne].
      * destruct (pressSnow_body_same x z r d c (Z.of_nat k) t) as [_ E]; [lia|lia|].
        rewrite E; unfold pressedIntensity.
        rewrite (sampleDistance_grid s t) by exact Hb.
        destruct (Hout (Z.of_nat k)) as [_ E']; [lia|]; rewrite E'; reflexivity.
      * destruct (pressSnow_body_other x z r d c (Z.of_nat k) t k0 Hne) as [_ E].
        rewrite E; apply Hin; lia.
    + destruct (pressSnow_body_other x z r d c (Z.of_nat k) t k0) as [E _]; [lia|].
      rewrite E; apply Hout; lia.
    + destruct (pressSnow_body_other x z r d c (Z.of_nat k) t k0) as [_ E]; [lia|].
      rewrite E; apply Hout; lia.
Qed.

(** ** updateSnowGeometry leaves the snow data alone *)

Lemma update_body1_frame i s :
  same_grid s (updateSnowGeometry_body1 i s) /\
  same_data s (updateSnowGeometry_body1 i s) /\
  same_lengths s (updateSnowGeometry_body1 i s) /\
  normal (updateSnowGeometry_body1 i s) = normal s.
Proof.
  unfold updateSnowGeometry_body1, same_grid, same_data, same_lengths, setY, setXYZ;
    simpl; rewrite ?aset_length; repeat split.
Qed.

Lemma update_body2_frame i s :
  same_grid s (updateSnowGeometry_body2 i s) /\
  same_data s (updateSnowGeometry_body2 i s) /\
  same_lengths s (updateSnowGeometry_body2 i s) /\
  position (updateSnowGeometry_body2 i s) = position s /\
  color (updateSnowGeometry_body2 i s) = color s.
Proof.
  unfold updateSnowGeometry_body2.
  generalize (vertexNormal (position s) (snowSegments s) i); intros n.
  unfold same_grid, same_data, same_lengths, setXYZ, set_normal;
    cbn [snowSize snowSegments subdivision position normal color count
         basePositions baseNormals elevations trackIntensity];
    rewrite ?aset_length; repeat split.
Qed.

Lemma update_loop1_frame n s :
  same_grid s (for_loop n updateSnowGeometry_body1 s) /\
  same_data s (for_loop n updateSnowGeometry_body1 s) /\
  same_lengths s (for_loop n updateSnowGeometry_body1 s) /\
  normal (for_loop n updateSnowGeometry_body1 s) = normal s.
Proof.
  apply (for_loop_ind (fun _ t => same_grid s t /\ same_data s t /\
                                  same_lengths s t /\ normal t = normal s)).
  - unfold same_grid, same_data, same_lengths; repeat split.
  - intros k t _ (Hg & Hd & Hl & Hn).
    destruct (update_body1_frame (Z.of_nat k) t) as (Hg' & Hd' & Hl' & Hn').
    unfold same_grid, same_data, same_lengths in *; intuition congruence.
Qed.

Lemma update_loop2_frame n s :
  same_grid s (for_loop n updateSnowGeometry_body2 s) /\
  same_data s (for_loop n updateSnowGeometry_body2 s) /\
  same_lengths s (for_loop n updateSnowGeometry_body2 s) /\
  position (for_loop n updateSnowGeometry_body2 s) = position s /\
  color (for_loop n updateSnowGeometry_body2 s) = color s.
Proof.
  apply (for_loop_ind (fun _ t => same_grid s t /\ same_data s t /\
            same_lengths s t /\ position t = position s /\ color t = color s)).
  - unfold same_grid, same_data, same_lengths; repeat split.
  - intros k t _ (Hg & Hd & Hl & Hp & Hc).
    destruct (update_body2_frame (Z.of_nat k) t) as (Hg' & Hd' & Hl' & Hp' & Hc').
    unfold same_grid, same_data, same_lengths in *; intuition congruence.
Qed.

Lemma updateSnowGeometry_frame s :
  same_grid s (updateSnowGeometry s) /\ same_data s (updateSnowGeometry s) /\
  same_lengths s (updateSnowGeometry s).
Proof.
  unfold updateSnowGeometry.
  destruct (update_loop1_frame (count s) s) as (Hg & Hd & Hl & _).
  destruct (update_loop2_frame (count (for_loop (count s) updateSnowGeometry_body1 s))
              (for_loop (count s) updateSnowGeometry_body1 s)) as (Hg' & Hd' & Hl' & _).
  unfold same_grid, same_data, same_lengths in *; intuition congruence.
Qed.

(** The snow data after one [pressSnow]. *)
Lemma pressSnow_spec x z r d c s :
  wf s ->
  same_grid s (pressSnow x z r d c s) /\
  List.length (elevations (pressSnow x z r d c s)) = List.length (elevations s) /\
  List.length (trackIntensity (pressSnow x z r d c s)) =
    List.length (trackIntensity s) /\
  (forall k, (0 <= k < Z.of_nat (count s))%Z ->
     aget (elevations (pressSnow x z r d c s)) k =
       pressedElevation s x z r d k (aget (elevations s) k) /\
     aget (trackIntensity (pressSnow x z r d c s)) k =
       pressedIntensity s x z r c k (aget (trackIntensity s) k)) /\
  (forall k, ~ (0 <= k < Z.of_nat (count s))%Z ->
     aget (elevations (pressSnow x z r d c s)) k = aget (elevations s) k /\
     aget (trackIntensity (pressSnow x z r d c s)) k = aget (trackIntensity s) k).
Proof.
  intros W; unfold pressSnow.
  destruct (press_loop_spec x z r d c s (count s)) as (Hg & Ha & Hle & Hlt & Hin & Hout).
  { rewrite (wf_elev s W); lia. }
  { apply (wf_track s W). }
  set (t := for_loop (count s) (pressSnow_body x z r d c) s) in *.
  destruct (updateSnowGeometry_frame t) as (Hg' & [He Ht] & _).
  rewrite He, Ht.
  split; [eapply same_grid_trans; eassumption|].
  split; [exact Hle|]. split; [exact Hlt|]. split; assumption.
Qed.

(** The two cases of one press at one sample. *)
Lemma pressSnow_sample (s : SnowFieldSystem) (x z r d c : R) (i : Z) :
  wf s -> (0 <= i < Z.of_nat (count s))%Z ->
  let dist := sqrt ((aget (basePositions s) (i * 3) - x) ^ 2 +
                    (aget (basePositions s) (i * 3 + 2) - z) ^ 2) in
  let s' := pressSnow x z r d c s in
  (dist < r ->
     aget (elevations s') i = Rmin (aget (elevations s) i) (- d * (1 - dist / r)) /\
     aget (trackIntensity s') i =
       Rmax (aget (trackIntensity s) i) (c * (1 - dist / r))) /\
  (dist >= r ->
     aget (elevations s') i = aget (elevations s) i /\
     aget (trackIntensity s') i = aget (trackIntensity s) i).
Proof.
  intros W Hi dist s'.
  destruct (pressSnow_spec x z r d c s W) as (_ & _ & _ & Hin & _).
  destruct (Hin i Hi) as [He Ht]; fold s' in He, Ht.
  unfold pressedElevation, pressedIntensity in He, Ht.
  change (sampleDistance s x z i) with dist in He, Ht.
  split; intros Hd; destruct (Rlt_dec dist r); try lra; auto.
Qed.

(** C1.  One call of [pressSnow] with a positive radius: a sample at planar
    distance [dist < radius] of the centre gets
    [elevation = min (old elevation, - depth * (1 - dist / radius))] and
    [trackIntensity = max (old intensity, colorIntensity * (1 - dist / radius))];
    a sample at distance [dist >= radius] keeps both values. *)
Theorem pressSnow_radial_update :
  forall (s : SnowFieldSystem) (x z r d c : R) (i : Z),
    wf s -> (0 <= i < Z.of_nat (count s))%Z -> 0 < r ->
    let dist := sqrt ((aget (basePositions s) (i * 3) - x) ^ 2 +
                      (aget (basePositions s) (i * 3 + 2) - z) ^ 2) in
    let s' := pressSnow x z r d c s in
    (dist < r ->
       aget (elevations s') i = Rmin (aget (elevations s) i) (- d * (1 - dist / r)) /\
       aget (trackIntensity s') i =
         Rmax (aget (trackIntensity s) i) (c * (1 - dist / r))) /\
    (dist >= r ->
       aget (elevations s') i = aget (elevations s) i /\
       aget (trackIntensity s') i = aget (trackIntensity s) i).
Proof.
  intros s x z r d c i W Hi _; exact (pressSnow_sample s x z r d c i W Hi).
Qed.

(** ** Construction *)

Lemma aget_aset_cases {T} `{JsNumber T} (a : list T) (k k' : Z) (v : T) :
  aget (aset a k v) k' = v \/ aget (aset a k v) k' = aget a k'.
Proof.
  destruct (Z.eq_dec k k') as [<-|Hne]; [|right; apply aget_aset_other; exact Hne].
  unfold aget, aset; destruct (Z.ltb_spec k 0); [right; reflexivity|].
  destruct (Nat.lt_ge_cases (Z.to_nat k) (List.length a)) as [Hlt|Hge].
  - left; apply nth_update_same; exact Hlt.
  - right; rewrite !nth_overflow; rewrite ?update_length; auto.
Qed.

Lemma flatten_length (l : list (Vector3 R)) :
  List.length (flatten l) = (List.length l * 3)%nat.
Proof.
  unfold flatten; induction l as [|v l IH]; simpl; [reflexivity|]; rewrite IH; lia.
Qed.

Lemma gridPoints_length (gx gy : Z) :
  List.length (gridPoints gx gy) = (Z.to_nat (gy + 1) * Z.to_nat (gx + 1))%nat.
Proof.
  unfold gridPoints.
  generalize (seq 0 (Z.to_nat (gx + 1))) (length_seq (Z.to_nat (gx + 1)) 0).
  intros row Hrow.
  rewrite <- (length_seq (Z.to_nat (gy + 1)) 0) at 2.
  induction (seq 0 (Z.to_nat (gy + 1))) as [|iy rows IH]; simpl; [reflexivity|].
  rewrite length_app, length_map, IH, Hrow; lia.
Qed.

Lemma aget_repeat_0 (n : nat) (k : Z) : aget (repeat 0 n) k = 0.
Proof.
  unfold aget; destruct (k <? 0)%Z; [reflexivity|].
  destruct (Nat.lt_ge_cases (Z.to_nat k) n).
  - apply nth_repeat_lt; assumption.
  - apply nth_overflow; rewrite repeat_length; assumption.
Qed.

Ltac aget_simpl :=
  repeat first
    [ rewrite aget_aset_other by lia
    | rewrite aget_aset_same by (rewrite ?aset_length; lia) ].

Lemma initSnowData_loop positions s n :
  (n * 3 <= List.length (basePositions s))%nat ->
  (n * 3 <= List.length (baseNormals s))%nat ->
  (forall k, aget (elevations s) k = 0) ->
  (forall k, aget (trackIntensity s) k = 0) ->
  init_inv positions s n (for_loop n (initSnowData_body positions) s).
Proof.
  intros Hb Hn He Ht.
  apply (for_loop_ind (init_inv positions s)).
  - unfold init_inv, same_attributes; repeat split; auto; lia.
  - intros k t Hk (Hf & Ha & (Hl1 & Hl2 & Hl3 & Hl4) & Hbase & Hnorm & Hel & Htr).
    unfold init_inv, same_attributes, initSnowData_body, getX, getY, getZ in *; simpl.
    rewrite !aset_length.
    split; [exact Hf|]. split; [exact Ha|]. split; [auto|].
    split; [|split; [|split]].
    + intros j Hj.
      destruct (Z.eq_dec j (Z.of_nat k * 3 + 2)) as [->|H2]; [aget_simpl; reflexivity|].
      destruct (Z.eq_dec j (Z.of_nat k * 3 + 1)) as [->|H1]; [aget_simpl; reflexivity|].
      destruct (Z.eq_dec j (Z.of_nat k * 3)) as [->|H0]; [aget_simpl; reflexivity|].
      aget_simpl; apply Hbase; lia.
    + intros i Hi.
      destruct (Z.eq_dec i (Z.of_nat k)) as [->|Hne].
      * aget_simpl; auto.
      * aget_simpl; apply Hnorm; lia.
    + intros j.
      destruct (aget_aset_cases (elevations t) (Z.of_nat k) j 0) as [E|E];
        rewrite E; auto.
    + intros j.
      destruct (aget_aset_cases (trackIntensity t) (Z.of_nat k) j 0) as [E|E];
        rewrite E; auto.
Qed.

Lemma planePositions_length size segments :
  List.length (planePositions size segments) = (gridCount segments * 3)%nat.
Proof.
  unfold planePositions; rewrite flatten_length, length_map, gridPoints_length.
  reflexivity.
Qed.

Lemma planeNormals_length segments :
  List.length (planeNormals segments) = (gridCount segments * 3)%nat.
Proof.
  unfold planeNormals; rewrite flatten_length, length_map, gridPoints_length.
  reflexivity.
Qed.

Lemma initSnowData_with_spec (trackLength : nat -> nat) (size : R)
  (segments : Z) (sub : R) (positions normals colors : list R) (n : nat) :
  List.length positions = (n * 3)%nat ->
  let s := initSnowData_with trackLength size segments sub positions normals colors in
  snowSize s = size /\ snowSegments s = segments /\ subdivision s = sub /\
  count s = n /\
  position s = positions /\ normal s = normals /\ color s = colors /\
  basePositions s = positions /\
  List.length (baseNormals s) = (n * 3)%nat /\
  (forall i, (0 <= i < Z.of_nat n)%Z ->
     aget (baseNormals s) (i * 3) = 0 /\ aget (baseNormals s) (i * 3 + 1) = 1 /\
     aget (baseNormals s) (i * 3 + 2) = 0) /\
  List.length (elevations s) = n /\
  List.length (trackIntensity s) = trackLength n /\
  (forall k, aget (elevations s) k = 0) /\
  (forall k, aget (trackIntensity s) k = 0).
Proof.
  intros Hlen; unfold initSnowData_with.
  rewrite Hlen, Nat.div_mul by discriminate.
  generalize (trackLength n); intros m.
  pose (s0 := mkSystem size segments sub positions normals colors n
                (repeat 0 (n * 3)) (repeat 0 (n * 3)) (repeat 0 n) (repeat 0 m)).
  fold s0.
  assert (E1 : basePositions s0 = repeat 0 (n * 3)) by reflexivity.
  assert (E2 : baseNormals s0 = repeat 0 (n * 3)) by reflexivity.
  assert (E3 : elevations s0 = repeat 0 n) by reflexivity.
  assert (E4 : trackIntensity s0 = repeat 0 m) by reflexivity.
  assert (E5 : position s0 = positions) by reflexivity.
  assert (E6 : normal s0 = normals) by reflexivity.
  assert (E7 : color s0 = colors) by reflexivity.
  assert (E8 : snowSize s0 = size /\ snowSegments s0 = segments /\
               subdivision s0 = sub /\ count s0 = n) by (repeat split).
  destruct E8 as (E8 & E9 & E10 & E11).
  destruct (initSnowData_loop positions s0 n)
    as ((H1 & H2 & H3 & H4) & (Hp & Hn & Hc) & (Hl1 & Hl2 & Hl3 & Hl4)
        & Hbase & Hnorm & Hel & Htr).
  { rewrite E1, repeat_length; lia. }
  { rewrite E2, repeat_length; lia. }
  { intros k; rewrite E3; apply aget_repeat_0. }
  { intros k; rewrite E4; apply aget_repeat_0. }
  clearbody s0.
  rewrite E1, repeat_length in Hl1. rewrite E2, repeat_length in Hl2.
  rewrite E3, repeat_length in Hl3. rewrite E4, repeat_length in Hl4.
  cbv zeta.
  repeat (split; [congruence|]).
  split.
  { apply aget_ext; [congruence|].
    intros k Hk; apply Hbase; rewrite Hl1 in Hk; lia. }
  split; [exact Hl2|]. split; [exact Hnorm|].
  split; [exact Hl3|]. split; [exact Hl4|]. split; assumption.
Qed.

(** What construction establishes, for the class ([trackLength n = n]) and
    for [main.js] ([trackLength n = n * 5000]). *)
Lemma init_with_spec (trackLength : nat -> nat) (size : R) (segments : Z) :
  let s := init_with trackLength size segments in
  snowSize s = size /\ snowSegments s = segments /\
  subdivision s = size / IZR segments /\
  count s = gridCount segments /\
  position s = planePositions size segments /\
  normal s = planeNormals segments /\
  color s = repeat 1 (gridCount segments * 3) /\
  basePositions s = planePositions size segments /\
  List.length (baseNormals s) = (gridCount segments * 3)%nat /\
  (forall i, (0 <= i < Z.of_nat (gridCount segments))%Z ->
     aget (baseNormals s) (i * 3) = 0 /\ aget (baseNormals s) (i * 3 + 1) = 1 /\
     aget (baseNormals s) (i * 3 + 2) = 0) /\
  List.length (elevations s) = gridCount segments /\
  List.length (trackIntensity s) = trackLength (gridCount segments) /\
  (forall k, aget (elevations s) k = 0) /\
  (forall k, aget (trackIntensity s) k = 0).
Proof.
  unfold init_with, createSnowField_with.
  fold (planePositions size segments). fold (planeNormals segments).
  rewrite planePositions_length, Nat.div_mul by discriminate.
  apply initSnowData_with_spec, planePositions_length.
Qed.

Lemma init_with_wf (trackLength : nat -> nat) (size : R) (segments : Z) :
  (forall n, (n <= trackLength n)%nat) -> size <> 0 -> segments <> 0%Z ->
  wf (init_with trackLength size segments).
Proof.
  intros Hn Hsize Hseg.
  destruct (init_with_spec trackLength size segments)
    as (Hsz & Hs & Hsub & Hc & Hp & Hno & Hco & Hb & _ & _ & He & Ht & _).
  constructor; rewrite ?Hc, ?Hp, ?Hno, ?Hco, ?Hb, ?He, ?Ht, ?Hs, ?Hsz, ?Hsub;
    rewrite ?planePositions_length, ?planeNormals_length, ?repeat_length; auto.
Qed.

Lemma or_default_R_nonzero (a : option R) (d : R) : d <> 0 -> or_default_R a d <> 0.
Proof.
  intros Hd; unfold or_default_R; destruct a as [x|]; [|exact Hd].
  destruct (Req_dec_T x 0); assumption.
Qed.

Lemma or_default_Z_nonzero (a : option Z) (d : Z) :
  d <> 0%Z -> or_default_Z a d <> 0%Z.
Proof.
  intros Hd; unfold or_default_Z; destruct a as [x|]; [|exact Hd].
  destruct (Z.eqb_spec x 0); assumption.
Qed.

Lemma createdField_wf (o : Options) : wf (createdField o).
Proof.
  unfold createdField; apply (init_with_wf (fun n => n)).
  - intros n; lia.
  - apply or_default_R_nonzero; lra.
  - apply or_default_Z_nonzero; lia.
Qed.

Lemma main_created_wf : wf Main.created.
Proof.
  unfold Main.created; apply (init_with_wf (fun n => (n * 5000)%nat)).
  - intros n; lia.
  - unfold Main.snowSize; lra.
  - unfold Main.snowSegments; lia.
Qed.

(** The invariant carries over to a state with the same grid, array lengths
    and planar coordinates. *)
Lemma wf_transport s t :
  wf s -> same_grid s t ->
  List.length (elevations t) = List.length (elevations s) ->
  List.length (trackIntensity t) = List.length (trackIntensity s) ->
  same_lengths s t ->
  (forall i, aget (position t) (i * 3) = aget (position s) (i * 3) /\
             aget (position t) (i * 3 + 2) = aget (position s) (i * 3 + 2)) ->
  wf t.
Proof.
  intros W (G1 & G2 & G3 & G4 & G5 & G6) He Ht (Lp & Ln & Lc) Hxz.
  destruct W as [W1 W2 W3 W4 W5 W6 W7 W8 W9 W10 W11].
  constructor; try congruence.
  intros i; destruct (Hxz i) as [E1 E2]; destruct (W11 i) as [E3 E4].
  rewrite G5; split; congruence.
Qed.

Lemma resetSnow_body_frame i s :
  same_grid s (resetSnow_body i s) /\ same_attributes s (resetSnow_body i s) /\
  List.length (elevations (resetSnow_body i s)) = List.length (elevations s) /\
  List.length (trackIntensity (resetSnow_body i s)) = List.length (trackIntensity s).
Proof.
  unfold resetSnow_body, same_grid, same_attributes; simpl.
  rewrite !aset_length; repeat split.
Qed.

(** ** updateSnowGeometry: what the two loops write *)

Ltac proj_simpl :=
  cbn [snowSize snowSegments subdivision position normal color count
       basePositions baseNormals elevations trackIntensity
       set_position set_normal set_color set_basePositions set_baseNormals
       set_elevations set_trackIntensity] in *.

Lemma update_loop1_spec s n :
  (n * 3 <= List.length (position s))%nat ->
  (n * 3 <= List.length (color s))%nat ->
  update1_inv s n (for_loop n updateSnowGeometry_body1 s).
Proof.
  intros Hp Hc.
  apply (for_loop_ind (update1_inv s)).
  - unfold update1_inv, same_grid, same_data, same_lengths.
    repeat split; intros; lia.
  - intros k t Hk (Hg & Hd & Hn & Hl & Hxz & Hy & Hy' & Hcol & Hcol').
    destruct (update_body1_frame (Z.of_nat k) t) as (Hg' & Hd' & Hl' & Hn').
    pose proof Hl as (Lp & _ & Lc).
    pose proof Hg as (_ & _ & _ & _ & Hb & _). pose proof Hd as (He & Ht).
    unfold update1_inv.
    split; [unfold same_grid in *; intuition congruence|].
    split; [unfold same_data in *; intuition congruence|].
    split; [congruence|].
    split; [unfold same_lengths in *; intuition congruence|].
    clear Hg' Hd' Hl' Hn'.
    unfold updateSnowGeometry_body1, setY, setXYZ; proj_simpl.
    rewrite Hb, He, Ht.
    split; [|split; [|split; [|split]]].
    + intros i; aget_simpl; apply Hxz.
    + intros i Hi. destruct (Z.eq_dec i (Z.of_nat k)) as [->|Hne].
      * aget_simpl; reflexivity.
      * aget_simpl; apply Hy; lia.
    + intros i Hi; aget_simpl; apply Hy'; lia.
    + intros i Hi. destruct (Z.eq_dec i (Z.of_nat k)) as [->|Hne].
      * replace (Z.of_nat k * 3 + 0)%Z with (Z.of_nat k * 3)%Z by lia.
        aget_simpl; auto.
      * aget_simpl; apply Hcol; lia.
    + intros i c Hi Hcc; aget_simpl; apply Hcol'; first [assumption | lia].
Qed.

Lemma update_loop2_spec s n :
  (n * 3 <= List.length (normal s))%nat ->
  update2_inv s n (for_loop n updateSnowGeometry_body2 s).
Proof.
  intros Hp.
  apply (for_loop_ind (update2_inv s)).
  - unfold update2_inv, same_grid, same_data, same_lengths.
    repeat split; intros; lia.
  - intros k t Hk (Hg & Hd & Hpos & Hcol & Hl & Hin & Hout).
    destruct (update_body2_frame (Z.of_nat k) t) as (Hg' & Hd' & Hl' & Hp' & Hc').
    pose proof Hl as (_ & Ln & _).
    pose proof Hg as (_ & Hseg & _).
    unfold update2_inv.
    split; [unfold same_grid in *; intuition congruence|].
    split; [unfold same_data in *; intuition congruence|].
    split; [congruence|]. split; [congruence|].
    split; [unfold same_lengths in *; intuition congruence|].
    clear Hg' Hd' Hl' Hp' Hc'.
    unfold updateSnowGeometry_body2, setXYZ; proj_simpl.
    rewrite Hpos, Hseg.
    split.
    + intros i Hi. destruct (Z.eq_dec i (Z.of_nat k)) as [->|Hne].
      * replace (Z.of_nat k * 3 + 0)%Z with (Z.of_nat k * 3)%Z by lia.
        aget_simpl; auto.
      * aget_simpl; apply Hin; lia.
    + intros i c Hi Hcc; aget_simpl; apply Hout; first [assumption | lia].
Qed.

(** The attributes after [updateSnowGeometry]. *)
Lemma updateSnowGeometry_spec s :
  wf s ->
  let t := updateSnowGeometry s in
  same_grid s t /\ same_data s t /\ same_lengths s t /\
  (forall i, aget (position t) (i * 3) = aget (position s) (i * 3) /\
             aget (position t) (i * 3 + 2) = aget (position s) (i * 3 + 2)) /\
  (forall i, (0 <= i < Z.of_nat (count s))%Z ->
     aget (position t) (i * 3 + 1) =
       aget (basePositions s) (i * 3 + 1) + aget (elevations s) i) /\
  (forall i, (0 <= i < Z.of_nat (count s))%Z ->
     aget (color t) (i * 3) = 1 - aget (trackIntensity s) i * 0.2 /\
     aget (color t) (i * 3 + 1) = 1 - aget (trackIntensity s) i * 0.15 /\
     aget (color t) (i * 3 + 2) = 1 - aget (trackIntensity s) i * 0.1) /\
  (forall i, (0 <= i < Z.of_nat (count s))%Z ->
     aget (normal t) (i * 3) = vx (vertexNormal (position t) (snowSegments s) i) /\
     aget (normal t) (i * 3 + 1) = vy (vertexNormal (position t) (snowSegments s) i) /\
     aget (normal t) (i * 3 + 2) = vz (vertexNormal (position t) (snowSegments s) i)).
Proof.
  intros W; unfold updateSnowGeometry.
  destruct (update_loop1_spec s (count s))
    as (Hg & Hd & Hn & Hl & Hxz & Hy & _ & Hcol & _).
  { rewrite (wf_position s W); lia. }
  { rewrite (wf_color s W); lia. }
  set (t := for_loop (count s) updateSnowGeometry_body1 s) in *.
  assert (Hct : count t = count s) by apply Hg.
  assert (Hst : snowSegments t = snowSegments s) by apply Hg.
  destruct (update_loop2_spec t (count t))
    as (Hg' & Hd' & Hp' & Hc' & Hl' & Hin & _).
  { destruct Hl as (_ & Ln & _); rewrite Ln, (wf_normal s W), Hct; lia. }
  rewrite Hct in *.
  set (u := for_loop (count s) updateSnowGeometry_body2 t) in *.
  cbv zeta. rewrite Hp', Hc'.
  split; [eapply same_grid_trans; eassumption|].
  split; [unfold same_data in *; intuition congruence|].
  split; [unfold same_lengths in *; intuition congruence|].
  split; [exact Hxz|]. split; [exact Hy|]. split; [exact Hcol|].
  intros i Hi; rewrite <- Hst; apply Hin; exact Hi.
Qed.

Lemma updateSnowGeometry_wf s : wf s -> wf (updateSnowGeometry s).
Proof.
  intros W.
  destruct (updateSnowGeometry_spec s W) as (Hg & (He & Ht) & Hl & Hxz & _).
  apply (wf_transport s); auto; congruence.
Qed.

Lemma pressSnow_wf x z r d c s : wf s -> wf (pressSnow x z r d c s).
Proof.
  intros W; unfold pressSnow; apply updateSnowGeometry_wf.
  destruct (press_loop_spec x z r d c s (count s))
    as (Hg & (Hp & Hn & Hc) & Hle & Hlt & _).
  { rewrite (wf_elev s W); lia. }
  { apply (wf_track s W). }
  apply (wf_transport s); auto.
  - unfold same_lengths; rewrite Hp, Hn, Hc; repeat split.
  - intros i; rewrite Hp; split; reflexivity.
Qed.

Lemma presses_wf l s : wf s -> wf (presses l s).
Proof.
  revert s; induction l as [|p l IH]; intros s W; simpl; [exact W|].
  apply IH, pressSnow_wf, W.
Qed.

Lemma createdField_spec (o : Options) :
  let size := or_default_R (opt_size o) 20 in
  let segments := or_default_Z (opt_segments o) 100 in
  let s := createdField o in
  snowSize s = size /\ snowSegments s = segments /\
  subdivision s = size / IZR segments /\
  count s = gridCount segments /\
  position s = planePositions size segments /\
  normal s = planeNormals segments /\
  color s = repeat 1 (gridCount segments * 3) /\
  basePositions s = planePositions size segments /\
  List.length (elevations s) = gridCount segments /\
  List.length (trackIntensity s) = gridCount segments /\
  (forall k, aget (elevations s) k = 0) /\
  (forall k, aget (trackIntensity s) k = 0).
Proof.
  intros size segments; unfold createdField; fold size; fold segments.
  destruct (init_with_spec (fun n => n) size segments)
    as (H1 & H2 & H3 & H4 & H5 & H6 & H7 & H8 & _ & _ & H9 & H10 & H11 & H12).
  cbv zeta; repeat split; assumption.
Qed.

(** ** The first frame of the constructor *)

Lemma press_same_grid p s : wf s -> same_grid s (press p s).
Proof.
  intros W; unfold press.
  destruct (pressSnow_spec (centerX p) (centerZ p) (radius p) (depth p)
              (colorIntensity p) s W) as (Hg & _); exact Hg.
Qed.

Lemma presses_same_grid l s : wf s -> same_grid s (presses l s).
Proof.
  revert s; induction l as [|p l IH]; intros s W; simpl; [apply same_grid_refl|].
  eapply same_grid_trans; [apply press_same_grid, W|].
  apply IH, pressSnow_wf, W.
Qed.

Lemma presses_app l1 l2 s : presses (l1 ++ l2) s = presses l2 (presses l1 s).
Proof. unfold presses; apply fold_left_app. Qed.

Lemma presses_lengths l s :
  wf s ->
  List.length (elevations (presses l s)) = List.length (elevations s) /\
  List.length (trackIntensity (presses l s)) = List.length (trackIntensity s).
Proof.
  revert s; induction l as [|p l IH]; intros s W; simpl; [split; reflexivity|].
  destruct (IH (press p s)) as [H1 H2]; [apply pressSnow_wf, W|].
  unfold press in *.
  destruct (pressSnow_spec (centerX p) (centerZ p) (radius p) (depth p)
              (colorIntensity p) s W) as (_ & Hle & Hlt & _).
  split; congruence.
Qed.

Lemma addVehicleTrack_presses px pz w s :
  addVehicleTrack px pz w s = presses (vehiclePresses px pz w) s.
Proof. reflexivity. Qed.

(** The first frame either leaves the field or adds one vehicle track. *)
Lemma updateVehiclePosition_idle_presses s cube last :
  exists l, updateVehiclePosition_idle s cube last = presses l s.
Proof.
  unfold updateVehiclePosition_idle.
  repeat match goal with |- context [Req_dec_T ?a ?b] => destruct (Req_dec_T a b) end;
    first [ exists []; reflexivity
          | eexists; apply addVehicleTrack_presses ].
Qed.

(** It leaves the field when the cube is within the limits. *)
Lemma updateVehiclePosition_idle_within s cube :
  - (snowSize s / 2 - 1) <= fst cube <= snowSize s / 2 - 1 ->
  - (snowSize s / 2 - 1) <= snd cube <= snowSize s / 2 - 1 ->
  updateVehiclePosition_idle s cube cube = s.
Proof.
  intros Hx Hz; unfold updateVehiclePosition_idle.
  assert (Ex : Rmax (- (snowSize s / 2 - 1)) (Rmin (snowSize s / 2 - 1) (fst cube)) = fst cube).
  { unfold Rmax, Rmin; repeat destruct (Rle_dec _ _); lra. }
  assert (Ez : Rmax (- (snowSize s / 2 - 1)) (Rmin (snowSize s / 2 - 1) (snd cube)) = snd cube).
  { unfold Rmax, Rmin; repeat destruct (Rle_dec _ _); lra. }
  rewrite Ex, Ez.
  destruct (Req_dec_T (fst cube) (fst cube)); [|congruence].
  destruct (Req_dec_T (snd cube) (snd cube)); [reflexivity|congruence].
Qed.

Lemma construct_reachable (o : Options) :
  exists l, construct o = presses l (createdField o).
Proof. apply updateVehiclePosition_idle_presses. Qed.

Lemma construct_wf (o : Options) : wf (construct o).
Proof.
  destruct (construct_reachable o) as [l ->].
  apply presses_wf, createdField_wf.
Qed.

Lemma construct_spec (o : Options) :
  let size := or_default_R (opt_size o) 20 in
  let segments := or_default_Z (opt_segments o) 100 in
  let s := construct o in
  snowSize s = size /\ snowSegments s = segments /\
  subdivision s = size / IZR segments /\
  count s = gridCount segments /\
  basePositions s = planePositions size segments /\
  List.length (elevations s) = gridCount segments /\
  List.length (trackIntensity s) = gridCount segments.
Proof.
  intros size segments s.
  destruct (construct_reachable o) as [l E].
  destruct (createdField_spec o)
    as (H1 & H2 & H3 & H4 & _ & _ & _ & H8 & H9 & H10 & _).
  destruct (presses_same_grid l (createdField o) (createdField_wf o))
    as (G1 & G2 & G3 & G4 & G5 & _).
  destruct (presses_lengths l (createdField o) (createdField_wf o)) as [L1 L2].
  subst size segments s; rewrite E.
  repeat (split; [congruence|]); congruence.
Qed.

(** With a size of at least 2 and the default cube, construction leaves the
    field as [createSnowField] made it. *)
Lemma construct_created (o : Options) :
  opt_debugObject o = None -> 2 <= or_default_R (opt_size o) 20 ->
  construct o = createdField o.
Proof.
  intros Hd Hsize; unfold construct; rewrite Hd.
  destruct (createdField_spec o) as (Hs & _).
  apply updateVehiclePosition_idle_within; rewrite Hs; simpl; lra.
Qed.

Lemma grid2_created : grid2 = createdField (mkOptions (Some 2) (Some 1%Z) None).
Proof.
  unfold grid2; apply construct_created; [reflexivity|].
  simpl; destruct (Req_dec_T 2 0); lra.
Qed.

Lemma main_initial_created : Main.initial = Main.created.
Proof.
  unfold Main.initial; apply updateVehiclePosition_idle_within;
    unfold Main.created;
    destruct (init_with_spec (fun n => (n * 5000)%nat) Main.snowSize Main.snowSegments)
      as (-> & _); unfold Main.snowSize; simpl; lra.
Qed.

Lemma grid2_fresh : fresh grid2.
Proof.
  split.
  - left; exists (mkOptions (Some 2) (Some 1%Z) None); reflexivity.
  - rewrite grid2_created.
    destruct (createdField_spec (mkOptions (Some 2) (Some 1%Z) None))
      as (_ & _ & _ & _ & _ & _ & _ & _ & _ & _ & He & Ht).
    split; assumption.
Qed.

Lemma grid2_count : count grid2 = 4%nat.
Proof.
  rewrite grid2_created.
  destruct (createdField_spec (mkOptions (Some 2) (Some 1%Z) None)) as (_ & _ & _ & Hc & _).
  exact Hc.
Qed.

Lemma pressSnow_radial_update_witness :
  wf grid2 /\ (0 <= 0 < Z.of_nat (count grid2))%Z /\ 0 < 1 /\
  let dist := sqrt ((aget (basePositions grid2) (0 * 3) - (-1)) ^ 2 +
                    (aget (basePositions grid2) (0 * 3 + 2) - (-1)) ^ 2) in
  let s' := pressSnow (-1) (-1) 1 0.1 0.6 grid2 in
  (dist < 1 ->
     aget (elevations s') 0 = Rmin (aget (elevations grid2) 0) (- (0.1) * (1 - dist / 1)) /\
     aget (trackIntensity s') 0 =
       Rmax (aget (trackIntensity grid2) 0) (0.6 * (1 - dist / 1))) /\
  (dist >= 1 ->
     aget (elevations s') 0 = aget (elevations grid2) 0 /\
     aget (trackIntensity s') 0 = aget (trackIntensity grid2) 0).
Proof.
  assert (W : wf grid2) by apply construct_wf.
  assert (Hi : (0 <= 0 < Z.of_nat (count grid2))%Z) by (rewrite grid2_count; lia).
  assert (Hr : 0 < 1) by lra.
  split; [exact W|]; split; [exact Hi|]; split; [exact Hr|].
  exact (pressSnow_radial_update grid2 (-1) (-1) 1 0.1 0.6 0 W Hi Hr).
Defined.

(** ** Invariants of the snow data *)

Lemma fresh_zero s :
  fresh s ->
  wf s /\ (forall k, aget (elevations s) k = 0) /\
  (forall k, aget (trackIntensity s) k = 0).
Proof.
  intros (Hc & He & Ht); split; [|split; assumption].
  destruct Hc as [[o ->]| ->]; [apply construct_wf|].
  rewrite main_initial_created; apply main_created_wf.
Qed.

Lemma influence_range (d r : R) : 0 <= d -> d < r -> 0 < 1 - d / r <= 1.
Proof.
  intros Hd Hr.
  assert (Hpos : 0 < r) by lra.
  assert (Hi : 0 < / r) by (apply Rinv_0_lt_compat; exact Hpos).
  assert (E : r * / r = 1) by (apply Rinv_r; lra).
  unfold Rdiv; split; nra.
Qed.

Lemma press_monotone p s k :
  wf s ->
  aget (elevations (press p s)) k <= aget (elevations s) k /\
  aget (trackIntensity s) k <= aget (trackIntensity (press p s)) k.
Proof.
  intros W; unfold press.
  destruct (pressSnow_spec (centerX p) (centerZ p) (radius p) (depth p)
              (colorIntensity p) s W) as (_ & _ & _ & Hin & Hout).
  assert (Hcase : (0 <= k < Z.of_nat (count s))%Z \/ ~ (0 <= k < Z.of_nat (count s))%Z)
    by lia.
  destruct Hcase as [Hk|Hk].
  - destruct (Hin k Hk) as [-> ->].
    unfold pressedElevation, pressedIntensity.
    destruct (Rlt_dec _ _); split; try lra; [apply Rmin_l | apply Rmax_l].
  - destruct (Hout k Hk) as [-> ->]; lra.
Qed.

Lemma press_bounds p s k :
  wf s -> validPress p ->
  (aget (elevations s) k <= 0 -> aget (elevations (press p s)) k <= 0) /\
  (0 <= aget (trackIntensity s) k <= 1 ->
   0 <= aget (trackIntensity (press p s)) k <= 1).
Proof.
  intros W (Hd & Hr & Hc).
  destruct (press_monotone p s k W) as [He Ht].
  split; [lra|]. intros Hb.
  unfold press in *.
  destruct (pressSnow_spec (centerX p) (centerZ p) (radius p) (depth p)
              (colorIntensity p) s W) as (_ & _ & _ & Hin & Hout).
  assert (Hcase : (0 <= k < Z.of_nat (count s))%Z \/ ~ (0 <= k < Z.of_nat (count s))%Z)
    by lia.
  destruct Hcase as [Hk|Hk].
  - destruct (Hin k Hk) as [_ ->].
    unfold pressedIntensity.
    destruct (Rlt_dec _ _) as [Hlt|]; [|exact Hb].
    pose proof (influence_range _ _ (sampleDistance_nonneg s _ _ k) Hlt) as Hinf.
    unfold Rmax; destruct (Rle_dec _ _); [nra|lra].
  - destruct (Hout k Hk) as [_ ->]; exact Hb.
Qed.

Lemma presses_monotone l s k :
  wf s ->
  aget (elevations (presses l s)) k <= aget (elevations s) k /\
  aget (trackIntensity s) k <= aget (trackIntensity (presses l s)) k.
Proof.
  revert s; induction l as [|p l IH]; intros s W; simpl; [lra|].
  destruct (IH (press p s)) as [H1 H2]; [apply pressSnow_wf, W|].
  destruct (press_monotone p s k W) as [H3 H4]; lra.
Qed.

Lemma presses_bounds l s k :
  wf s -> Forall validPress l ->
  aget (elevations s) k <= 0 -> 0 <= aget (trackIntensity s) k <= 1 ->
  aget (elevations (presses l s)) k <= 0 /\
  0 <= aget (trackIntensity (presses l s)) k <= 1.
Proof.
  revert s; induction l as [|p l IH]; intros s W Hv He Ht; simpl; [auto|].
  inversion Hv as [|? ? Hp Hl]; subst.
  destruct (press_bounds p s k W Hp) as [H1 H2].
  apply IH; [apply pressSnow_wf, W|exact Hl|auto|auto].
Qed.

(** C2.  From a freshly constructed state, after any sequence of presses
    with [depth >= 0], [radius > 0] and [colorIntensity] in [[0,1]], every
    sample has [elevation <= 0] and [trackIntensity] in [[0,1]]; along the
    sequence (after a prefix [l1], then after [l1 ++ l2]) the elevation does
    not increase and the intensity does not decrease. *)
Theorem presses_keep_invariants :
  forall (s : SnowFieldSystem) (l1 l2 : list Press) (i : Z),
    fresh s -> Forall validPress (l1 ++ l2) ->
    (0 <= i < Z.of_nat (count s))%Z ->
    let a := presses l1 s in
    let b := presses (l1 ++ l2) s in
    aget (elevations b) i <= 0 /\
    0 <= aget (trackIntensity b) i <= 1 /\
    aget (elevations b) i <= aget (elevations a) i /\
    aget (trackIntensity a) i <= aget (trackIntensity b) i.
Proof.
  intros s l1 l2 i Hf Hv Hi a b.
  destruct (fresh_zero s Hf) as (W & He & Ht).
  destruct (presses_bounds (l1 ++ l2) s i W Hv) as [B1 B2];
    [rewrite He; lra|rewrite Ht; lra|].
  fold b in B1, B2.
  assert (Eb : b = presses l2 a) by apply presses_app.
  destruct (presses_monotone l2 a i (presses_wf l1 s W)) as [M1 M2].
  rewrite <- Eb in M1, M2.
  repeat split; lra.
Qed.

Lemma presses_keep_invariants_witness :
  fresh grid2 /\
  Forall validPress ([mkPress (-1) (-1) 1 0.1 0.6] ++ [mkPress 1 1 3 0.05 0.4]) /\
  (0 <= 3 < Z.of_nat (count grid2))%Z /\
  let a := presses [mkPress (-1) (-1) 1 0.1 0.6] grid2 in
  let b := presses ([mkPress (-1) (-1) 1 0.1 0.6] ++ [mkPress 1 1 3 0.05 0.4]) grid2 in
  aget (elevations b) 3 <= 0 /\
  0 <= aget (trackIntensity b) 3 <= 1 /\
  aget (elevations b) 3 <= aget (elevations a) 3 /\
  aget (trackIntensity a) 3 <= aget (trackIntensity b) 3.
Proof.
  assert (Hf : fresh grid2) by apply grid2_fresh.
  assert (Hv : Forall validPress
                 ([mkPress (-1) (-1) 1 0.1 0.6] ++ [mkPress 1 1 3 0.05 0.4])).
  { repeat constructor; simpl; lra. }
  assert (Hi : (0 <= 3 < Z.of_nat (count grid2))%Z) by (rewrite grid2_count; lia).
  split; [exact Hf|]; split; [exact Hv|]; split; [exact Hi|].
  exact (presses_keep_invariants grid2 _ _ 3 Hf Hv Hi).
Defined.

(** ** Presses commute *)

Lemma aget_ext3 (a b : list R) (n : nat) :
  List.length a = (n * 3)%nat -> List.length b = (n * 3)%nat ->
  (forall i, (0 <= i < Z.of_nat n)%Z ->
     aget a (i * 3) = aget b (i * 3) /\ aget a (i * 3 + 1) = aget b (i * 3 + 1) /\
     aget a (i * 3 + 2) = aget b (i * 3 + 2)) ->
  a = b.
Proof.
  intros Ha Hb H; apply aget_ext; [congruence|].
  intros k Hk; rewrite Ha in Hk.
  assert (E : k = (k / 3 * 3 + k mod 3)%Z) by (pose proof (Z.div_mod k 3); lia).
  assert (Hm : (0 <= k mod 3 < 3)%Z) by (apply Z.mod_pos_bound; lia).
  destruct (H (k / 3)%Z) as (H0 & H1 & H2); [lia|].
  assert (Hc : (k mod 3 = 0 \/ k mod 3 = 1 \/ k mod 3 = 2)%Z) by lia.
  rewrite E; destruct Hc as [->| [->| ->]]; rewrite ?Z.add_0_r; assumption.
Qed.

Lemma system_eq (s t : SnowFieldSystem) :
  same_grid s t -> same_data s t -> same_attributes s t -> s = t.
Proof.
  destruct s, t; unfold same_grid, same_data, same_attributes; simpl.
  intros (-> & -> & -> & -> & -> & ->) (-> & ->) (-> & -> & ->); reflexivity.
Qed.

(** [updateSnowGeometry] is a function of the grid and of the snow data. *)
Lemma updateSnowGeometry_congr s t :
  wf s -> wf t -> same_grid s t -> same_data s t ->
  updateSnowGeometry s = updateSnowGeometry t.
Proof.
  intros Ws Wt Hg Hd.
  destruct (updateSnowGeometry_spec s Ws)
    as (Hgs & Hds & (Lp & Ln & Lc) & Hxz & Hy & Hcol & Hnor).
  destruct (updateSnowGeometry_spec t Wt)
    as (Hgt & Hdt & (Lp' & Ln' & Lc') & Hxz' & Hy' & Hcol' & Hnor').
  pose proof Hg as (_ & Hseg & _ & Hct & Hb & _). pose proof Hd as (He & Ht).
  rewrite Hct, Hseg, ?Hb, ?He, ?Ht in *.
  assert (Epos : position (updateSnowGeometry s) = position (updateSnowGeometry t)).
  { apply (aget_ext3 _ _ (count s)).
    - rewrite Lp; apply (wf_position s Ws).
    - rewrite Lp', (wf_position t Wt), Hct; reflexivity.
    - intros i Hi.
      destruct (Hxz i) as [X Z]; destruct (Hxz' i) as [X' Z'].
      destruct (wf_xz s Ws i) as [A B]; destruct (wf_xz t Wt i) as [A' B'].
      rewrite Hb in A', B'.
      rewrite X, X', Z, Z', (Hy i Hi), (Hy' i Hi); repeat split; congruence. }
  apply system_eq.
  - unfold same_grid in *; intuition congruence.
  - unfold same_data in *; intuition congruence.
  - split; [symmetry; exact Epos|]. split.
    + symmetry; apply (aget_ext3 _ _ (count s)).
      * rewrite Ln; apply (wf_normal s Ws).
      * rewrite Ln', (wf_normal t Wt), Hct; reflexivity.
      * intros i Hi; destruct (Hnor i Hi) as (-> & -> & ->).
        destruct (Hnor' i Hi) as (-> & -> & ->).
        rewrite Epos; repeat split; reflexivity.
    + symmetry; apply (aget_ext3 _ _ (count s)).
      * rewrite Lc; apply (wf_color s Ws).
      * rewrite Lc', (wf_color t Wt), Hct; reflexivity.
      * intros i Hi; destruct (Hcol i Hi) as (-> & -> & ->).
        destruct (Hcol' i Hi) as (-> & -> & ->).
        repeat split; reflexivity.
Qed.

Lemma press_loop_wf x z r d c s :
  wf s -> wf (for_loop (count s) (pressSnow_body x z r d c) s).
Proof.
  intros W.
  destruct (press_loop_spec x z r d c s (count s))
    as (Hg & (Hp & Hn & Hc) & Hle & Hlt & _).
  { rewrite (wf_elev s W); lia. }
  { apply (wf_track s W). }
  apply (wf_transport s); auto.
  - unfold same_lengths; rewrite Hp, Hn, Hc; repeat split.
  - intros i; rewrite Hp; split; reflexivity.
Qed.

Lemma pressedElevation_comm s x z r d x' z' r' d' i e :
  pressedElevation s x z r d i (pressedElevation s x' z' r' d' i e) =
  pressedElevation s x' z' r' d' i (pressedElevation s x z r d i e).
Proof.
  unfold pressedElevation.
  destruct (Rlt_dec _ r), (Rlt_dec _ r'); try reflexivity.
  unfold Rmin; repeat destruct (Rle_dec _ _); lra.
Qed.

Lemma pressedIntensity_comm s x z r c x' z' r' c' i t :
  pressedIntensity s x z r c i (pressedIntensity s x' z' r' c' i t) =
  pressedIntensity s x' z' r' c' i (pressedIntensity s x z r c i t).
Proof.
  unfold pressedIntensity.
  destruct (Rlt_dec _ r), (Rlt_dec _ r'); try reflexivity.
  unfold Rmax; repeat destruct (Rle_dec _ _); lra.
Qed.

Lemma pressedElevation_grid s t x z r d i e :
  basePositions t = basePositions s ->
  pressedElevation t x z r d i e = pressedElevation s x z r d i e.
Proof.
  intros E; unfold pressedElevation; rewrite (sampleDistance_grid s t) by exact E.
  reflexivity.
Qed.

Lemma pressedIntensity_grid s t x z r c i e :
  basePositions t = basePositions s ->
  pressedIntensity t x z r c i e = pressedIntensity s x z r c i e.
Proof.
  intros E; unfold pressedIntensity; rewrite (sampleDistance_grid s t) by exact E.
  reflexivity.
Qed.

(** Two presses, in either order, give the same state. *)
Lemma press_press_comm (p q : Press) (s : SnowFieldSystem) :
  wf s -> press q (press p s) = press p (press q s).
Proof.
  intros W.
  pose proof (pressSnow_wf (centerX p) (centerZ p) (radius p) (depth p)
                (colorIntensity p) s W) as Wp.
  pose proof (pressSnow_wf (centerX q) (centerZ q) (radius q) (depth q)
                (colorIntensity q) s W) as Wq.
  destruct (pressSnow_spec (centerX p) (centerZ p) (radius p) (depth p)
              (colorIntensity p) s W) as (Gp & LEp & LTp & INp & OUTp).
  destruct (pressSnow_spec (centerX q) (centerZ q) (radius q) (depth q)
              (colorIntensity q) s W) as (Gq & LEq & LTq & INq & OUTq).
  fold (press p s) in *. fold (press q s) in *.
  set (sp := press p s) in *. set (sq := press q s) in *.
  unfold press, pressSnow.
  destruct (press_loop_spec (centerX q) (centerZ q) (radius q) (depth q)
              (colorIntensity q) sp (count sp))
    as (G1 & A1 & LE1 & LT1 & IN1 & OUT1).
  { rewrite (wf_elev sp Wp); lia. } { apply (wf_track sp Wp). }
  destruct (press_loop_spec (centerX p) (centerZ p) (radius p) (depth p)
              (colorIntensity p) sq (count sq))
    as (G2 & A2 & LE2 & LT2 & IN2 & OUT2).
  { rewrite (wf_elev sq Wq); lia. } { apply (wf_track sq Wq). }
  apply updateSnowGeometry_congr; try (apply press_loop_wf; assumption).
  - unfold same_grid in *; intuition congruence.
  - assert (Cp : count sp = count s) by apply Gp.
    assert (Cq : count sq = count s) by apply Gq.
    assert (Bp : basePositions sp = basePositions s) by apply Gp.
    assert (Bq : basePositions sq = basePositions s) by apply Gq.
    rewrite Cp in *; rewrite Cq in *.
    split; apply aget_ext; try congruence; intros k _;
      (assert (Hcase : (0 <= k < Z.of_nat (count s))%Z \/
                       ~ (0 <= k < Z.of_nat (count s))%Z) by lia);
      destruct Hcase as [Hk|Hk].
    + destruct (IN1 k Hk) as [-> _]; destruct (IN2 k Hk) as [-> _].
      destruct (INp k Hk) as [-> _]; destruct (INq k Hk) as [-> _].
      rewrite (pressedElevation_grid s sp), (pressedElevation_grid s sq) by assumption.
      apply pressedElevation_comm.
    + destruct (OUT1 k Hk) as [-> _]; destruct (OUT2 k Hk) as [-> _].
      destruct (OUTp k Hk) as [-> _]; destruct (OUTq k Hk) as [-> _]; reflexivity.
    + destruct (IN1 k Hk) as [_ ->]; destruct (IN2 k Hk) as [_ ->].
      destruct (INp k Hk) as [_ ->]; destruct (INq k Hk) as [_ ->].
      rewrite (pressedIntensity_grid s sp), (pressedIntensity_grid s sq) by assumption.
      apply pressedIntensity_comm.
    + destruct (OUT1 k Hk) as [_ ->]; destruct (OUT2 k Hk) as [_ ->].
      destruct (OUTp k Hk) as [_ ->]; destruct (OUTq k Hk) as [_ ->]; reflexivity.
Qed.

Lemma presses_permutation l l' s :
  Permutation l l' -> wf s -> presses l s = presses l' s.
Proof.
  intros HP; revert s; induction HP as [|p l l' HP IH|p q l|l l' l'' _ IH1 _ IH2];
    intros s W; simpl.
  - reflexivity.
  - apply IH, pressSnow_wf, W.
  - rewrite (press_press_comm q p s W); reflexivity.
  - rewrite (IH1 s W); apply IH2, W.
Qed.


(** C8.  Two presses commute: from any well-formed state, press [A] then
    press [B] leaves every sample's elevation and track intensity equal to
    press [B] then press [A]; and the five presses of [addVehicleTrack] (four
    wheels and the centre) give the same per-sample state in any order. *)
Theorem presses_commute :
  forall (s : SnowFieldSystem) (A B : Press),
    wf s -> validPress A -> validPress B ->
    (forall i,
       aget (elevations (press B (press A s))) i =
         aget (elevations (press A (press B s))) i /\
       aget (trackIntensity (press B (press A s))) i =
         aget (trackIntensity (press A (press B s))) i) /\
    (forall (px pz wheelOffset : R) (l : list Press),
       Permutation (vehiclePresses px pz wheelOffset) l ->
       forall i,
         aget (elevations (presses l s)) i =
           aget (elevations (addVehicleTrack px pz wheelOffset s)) i /\
         aget (trackIntensity (presses l s)) i =
           aget (trackIntensity (addVehicleTrack px pz wheelOffset s)) i).
Proof.
  intros s A B W _ _; split.
  - intros i; rewrite (press_press_comm A B s W); split; reflexivity.
  - intros px pz w l HP i.
    rewrite addVehicleTrack_presses, (presses_permutation _ _ s HP W).
    split; reflexivity.
Qed.

Lemma presses_commute_witness :
  wf grid2 /\ validPress (mkPress (-1) (-1) 1 0.1 0.6) /\
  validPress (mkPress 1 1 3 0.05 0.4) /\
  (forall i,
     aget (elevations (press (mkPress 1 1 3 0.05 0.4)
                         (press (mkPress (-1) (-1) 1 0.1 0.6) grid2))) i =
       aget (elevations (press (mkPress (-1) (-1) 1 0.1 0.6)
                           (press (mkPress 1 1 3 0.05 0.4) grid2))) i /\
     aget (trackIntensity (press (mkPress 1 1 3 0.05 0.4)
                             (press (mkPress (-1) (-1) 1 0.1 0.6) grid2))) i =
       aget (trackIntensity (press (mkPress (-1) (-1) 1 0.1 0.6)
                               (press (mkPress 1 1 3 0.05 0.4) grid2))) i) /\
  (forall (px pz wheelOffset : R) (l : list Press),
     Permutation (vehiclePresses px pz wheelOffset) l ->
     forall i,
       aget (elevations (presses l grid2)) i =
         aget (elevations (addVehicleTrack px pz wheelOffset grid2)) i /\
       aget (trackIntensity (presses l grid2)) i =
         aget (trackIntensity (addVehicleTrack px pz wheelOffset grid2)) i).
Proof.
  assert (W : wf grid2) by apply construct_wf.
  assert (VA : validPress (mkPress (-1) (-1) 1 0.1 0.6))
    by (unfold validPress; simpl; lra).
  assert (VB : validPress (mkPress 1 1 3 0.05 0.4))
    by (unfold validPress; simpl; lra).
  split; [exact W|]; split; [exact VA|]; split; [exact VB|].
  exact (presses_commute grid2 _ _ W VA VB).
Defined.

(** ** A press with a non-positive radius *)

Lemma pressSnow_body_nonpositive x z r d c i s :
  r <= 0 -> pressSnow_body x z r d c i s = s.
Proof.
  intros Hr; unfold pressSnow_body.
  destruct (Rlt_dec _ r) as [Hlt|]; [|reflexivity].
  pose proof (sqrt_pos ((aget (basePositions s) (i * 3) - x) ^ 2 +
                        (aget (basePositions s) (i * 3 + 2) - z) ^ 2)).
  lra.
Qed.

(** C10.  A press with [radius <= 0] changes no elevation and no track
    intensity, whatever the state, the centre, the depth and the colour
    intensity: both arrays are left as they were. *)
Theorem pressSnow_nonpositive_radius :
  forall (s : SnowFieldSystem) (x z r d c : R),
    r <= 0 ->
    elevations (pressSnow x z r d c s) = elevations s /\
    trackIntensity (pressSnow x z r d c s) = trackIntensity s /\
    forall i,
      aget (elevations (pressSnow x z r d c s)) i = aget (elevations s) i /\
      aget (trackIntensity (pressSnow x z r d c s)) i = aget (trackIntensity s) i.
Proof.
  intros s x z r d c Hr.
  assert (E : for_loop (count s) (pressSnow_body x z r d c) s = s).
  { apply (for_loop_ind (fun _ t => t = s)); [reflexivity|].
    intros k t _ ->; apply pressSnow_body_nonpositive, Hr. }
  unfold pressSnow; rewrite E.
  destruct (updateSnowGeometry_frame s) as (_ & (He & Ht) & _).
  rewrite He, Ht; repeat split.
Qed.

Lemma pressSnow_nonpositive_radius_witness :
  -1 <= 0 /\
  elevations (pressSnow 0 0 (-1) 0.1 0.6 grid2) = elevations grid2 /\
  trackIntensity (pressSnow 0 0 (-1) 0.1 0.6 grid2) = trackIntensity grid2 /\
  forall i,
    aget (elevations (pressSnow 0 0 (-1) 0.1 0.6 grid2)) i = aget (elevations grid2) i /\
    aget (trackIntensity (pressSnow 0 0 (-1) 0.1 0.6 grid2)) i =
      aget (trackIntensity grid2) i.
Proof.
  assert (Hr : -1 <= 0) by lra.
  split; [exact Hr|].
  exact (pressSnow_nonpositive_radius grid2 0 0 (-1) 0.1 0.6 Hr).
Defined.

(** ** getVertexIndex *)

Lemma gridCount_Z (segments : Z) :
  (0 <= segments)%Z ->
  Z.of_nat (gridCount segments) = ((segments + 1) * (segments + 1))%Z.
Proof. intros H; unfold gridCount; lia. Qed.

(** C4.  On a grid with [segments > 0], [getVertexIndex (x, z)] is
    [zc * (segments + 1) + xc] with
    [xc = clamp (floor ((x + size/2) / subdivision), 0, segments)] and [zc]
    likewise; for all real [x], [z] the index satisfies
    [0 <= index < count = (segments + 1)^2]; and the index of [(x, z)] is the
    same after any sequence of presses. *)
Theorem getVertexIndex_in_range :
  forall (s : SnowFieldSystem) (x z : R),
    wf s -> (0 < snowSegments s)%Z ->
    let clamp v := Z.max 0 (Z.min (snowSegments s) v) in
    let xc := clamp (Zfloor ((x + snowSize s / 2) / subdivision s)) in
    let zc := clamp (Zfloor ((z + snowSize s / 2) / subdivision s)) in
    getVertexIndex s x z = (zc * (snowSegments s + 1) + xc)%Z /\
    (0 <= getVertexIndex s x z < Z.of_nat (count s))%Z /\
    Z.of_nat (count s) = ((snowSegments s + 1) ^ 2)%Z /\
    forall l, getVertexIndex (presses l s) x z = getVertexIndex s x z.
Proof.
  intros s x z W Hseg clamp xc zc.
  assert (Hc : Z.of_nat (count s) = ((snowSegments s + 1) * (snowSegments s + 1))%Z).
  { rewrite (wf_count s W); lia. }
  split; [reflexivity|].
  split; [|split].
  - unfold getVertexIndex; fold (clamp (Zfloor ((x + snowSize s / 2) / subdivision s))).
    fold (clamp (Zfloor ((z + snowSize s / 2) / subdivision s))).
    fold xc; fold zc.
    assert (Hx : (0 <= xc <= snowSegments s)%Z) by (unfold xc, clamp; lia).
    assert (Hz : (0 <= zc <= snowSegments s)%Z) by (unfold zc, clamp; lia).
    rewrite Hc; nia.
  - rewrite Hc; ring.
  - intros l; destruct (presses_same_grid l s W) as (E1 & E2 & E3 & _).
    unfold getVertexIndex; rewrite E1, E2, E3; reflexivity.
Qed.

Lemma grid2_segments : snowSegments grid2 = 1%Z.
Proof.
  rewrite grid2_created.
  destruct (createdField_spec (mkOptions (Some 2) (Some 1%Z) None)) as (_ & Hs & _).
  exact Hs.
Qed.

Lemma getVertexIndex_in_range_witness :
  wf grid2 /\ (0 < snowSegments grid2)%Z /\
  let clamp v := Z.max 0 (Z.min (snowSegments grid2) v) in
  let xc := clamp (Zfloor ((5 + snowSize grid2 / 2) / subdivision grid2)) in
  let zc := clamp (Zfloor ((-7 + snowSize grid2 / 2) / subdivision grid2)) in
  getVertexIndex grid2 5 (-7) = (zc * (snowSegments grid2 + 1) + xc)%Z /\
  (0 <= getVertexIndex grid2 5 (-7) < Z.of_nat (count grid2))%Z /\
  Z.of_nat (count grid2) = ((snowSegments grid2 + 1) ^ 2)%Z /\
  forall l, getVertexIndex (presses l grid2) 5 (-7) = getVertexIndex grid2 5 (-7).
Proof.
  assert (W : wf grid2) by apply construct_wf.
  assert (Hs : (0 < snowSegments grid2)%Z) by (rewrite grid2_segments; lia).
  split; [exact W|]; split; [exact Hs|].
  exact (getVertexIndex_in_range grid2 5 (-7) W Hs).
Defined.

(** ** Allocation of the per-sample arrays *)

Lemma construct_array_lengths (o : Options) :
  List.length (elevations (construct o)) = count (construct o) /\
  List.length (trackIntensity (construct o)) = count (construct o).
Proof.
  destruct (construct_spec o) as (_ & _ & _ & Hc & _ & He & Ht).
  rewrite He, Ht, Hc; split; reflexivity.
Qed.

(** C5 (the code departs from it).  In [main.js] the intensity array is
    allocated with [count * 5000] entries: with [count = 10201] that is
    51005000 entries, not [count]; the elevation array has [count] entries,
    and the class allocates both arrays with [count] entries. *)
Theorem main_trackIntensity_overallocated :
  Z.of_nat (count Main.initial) = 10201%Z /\
  Z.of_nat (List.length (elevations Main.initial)) = 10201%Z /\
  Z.of_nat (List.length (trackIntensity Main.initial)) = 51005000%Z /\
  List.length (trackIntensity Main.initial) <> count Main.initial /\
  forall o : Options,
    List.length (elevations (construct o)) = count (construct o) /\
    List.length (trackIntensity (construct o)) = count (construct o).
Proof.
  rewrite main_initial_created; unfold Main.created.
  destruct (init_with_spec (fun n => (n * 5000)%nat) Main.snowSize Main.snowSegments)
    as (_ & _ & _ & Hc & _ & _ & _ & _ & _ & _ & He & Ht & _).
  rewrite Hc, He, Ht.
  assert (E : Z.of_nat (gridCount Main.snowSegments) = 10201%Z).
  { rewrite gridCount_Z; unfold Main.snowSegments; lia. }
  split; [exact E|]. split; [exact E|].
  split; [rewrite Nat2Z.inj_mul, E; reflexivity|].
  split; [lia|apply construct_array_lengths].
Qed.

(** ** Construction and its arguments *)

(** C6 as stated fails: a negative size and a negative number of segments
    are not rejected; the constructor returns a grid without samples. *)
Lemma construction_nonpositive_not_rejected :
  -1 <= 0 /\ (-1 <= 0)%Z /\
  newSnowFieldSystem (mkOptions (Some (-1)) (Some (-1)%Z) None) <> Thrown InvalidArgument /\
  exists s, newSnowFieldSystem (mkOptions (Some (-1)) (Some (-1)%Z) None) = Returned s /\
            snowSize s = -1 /\ snowSegments s = (-1)%Z /\ count s = 0%nat.
Proof.
  split; [lra|]. split; [lia|]. split; [discriminate|].
  exists (construct (mkOptions (Some (-1)) (Some (-1)%Z) None)).
  destruct (construct_spec (mkOptions (Some (-1)) (Some (-1)%Z) None))
    as (Hsz & Hsg & _ & Hc & _).
  split; [reflexivity|].
  rewrite Hsz, Hsg, Hc; simpl.
  destruct (Req_dec_T (-1) 0); [lra|].
  split; [reflexivity|]. split; reflexivity.
Qed.

(** C6, amended.  Construction never fails: it returns a system whose size
    and segments are the given ones, except that a missing or zero value is
    replaced by the default (20, 100); a negative value is used as given.
    With [size > 0] and [segments > 0] it returns the grid of
    [(segments + 1)^2] samples with exactly these parameters. *)
Theorem construction_never_fails :
  forall o : Options,
    exists s : SnowFieldSystem,
      newSnowFieldSystem o = Returned s /\ wf s /\
      snowSize s = or_default_R (opt_size o) 20 /\
      snowSegments s = or_default_Z (opt_segments o) 100 /\
      (opt_size o = Some 0 \/ opt_size o = None -> snowSize s = 20) /\
      (opt_segments o = Some 0%Z \/ opt_segments o = None -> snowSegments s = 100%Z) /\
      (forall size, opt_size o = Some size -> size <> 0 -> snowSize s = size) /\
      (forall segments, opt_segments o = Some segments -> segments <> 0%Z ->
         snowSegments s = segments) /\
      (forall size segments,
         opt_size o = Some size -> opt_segments o = Some segments ->
         0 < size -> (0 < segments)%Z ->
         snowSize s = size /\ snowSegments s = segments /\
         subdivision s = size / IZR segments /\
         Z.of_nat (count s) = ((segments + 1) ^ 2)%Z).
Proof.
  intros o; exists (construct o).
  destruct (construct_spec o) as (Hsz & Hsg & Hsub & Hc & _).
  split; [reflexivity|]. split; [apply construct_wf|].
  split; [exact Hsz|]. split; [exact Hsg|].
  rewrite Hsz, Hsg, Hsub, Hc.
  split; [|split; [|split; [|split]]].
  - intros [-> | ->]; simpl; [destruct (Req_dec_T 0 0); [reflexivity|contradiction]
                             |reflexivity].
  - intros [-> | ->]; reflexivity.
  - intros size -> Hne; simpl; destruct (Req_dec_T size 0); [contradiction|reflexivity].
  - intros segments -> Hne; simpl.
    destruct (Z.eqb_spec segments 0); [contradiction|reflexivity].
  - intros size segments -> -> Hsize Hseg; simpl.
    destruct (Req_dec_T size 0); [lra|].
    destruct (Z.eqb_spec segments 0); [lia|].
    split; [reflexivity|]. split; [reflexivity|]. split; [reflexivity|].
    rewrite gridCount_Z; lia.
Qed.

(** ** The normal of a sample *)

Lemma add_newVector3 (v : Vector3 R) : add newVector3 v = v.
Proof.
  destruct v as [a b c]; unfold add, newVector3; simpl.
  rewrite !Rplus_0_l; reflexivity.
Qed.

Lemma sampleIndex_coords s x z :
  (0 <= x <= snowSegments s)%Z ->
  ((sampleIndex s x z) mod (snowSegments s + 1) = x /\
   (sampleIndex s x z) / (snowSegments s + 1) = z)%Z.
Proof.
  intros Hx; unfold sampleIndex; split.
  - rewrite Z.add_comm, Z.mod_add by lia. apply Z.mod_small; lia.
  - rewrite Z.add_comm, Z.div_add by lia. rewrite Z.div_small by lia; lia.
Qed.

Lemma sampleIndex_range s x z :
  wf s -> (0 <= x <= snowSegments s)%Z -> (0 <= z <= snowSegments s)%Z ->
  (0 <= sampleIndex s x z < Z.of_nat (count s))%Z.
Proof.
  intros W Hx Hz; rewrite (wf_count s W); unfold sampleIndex; nia.
Qed.

(** After [updateSnowGeometry] the position attribute holds the current
    positions. *)
Lemma updated_position s i :
  wf s -> (0 <= i < Z.of_nat (count s))%Z ->
  mkVector3 (getX (position (updateSnowGeometry s)) i)
            (getY (position (updateSnowGeometry s)) i)
            (getZ (position (updateSnowGeometry s)) i) = currentPosition s i.
Proof.
  intros W Hi.
  destruct (updateSnowGeometry_spec s W) as (_ & _ & _ & Hxz & Hy & _).
  destruct (Hxz i) as [X Z]; destruct (wf_xz s W i) as [X' Z'].
  unfold getX, getY, getZ, currentPosition.
  rewrite X, Z, X', Z', (Hy i Hi); reflexivity.
Qed.

Lemma vertexNormal_spec_normal s x z :
  wf s -> (0 <= x <= snowSegments s)%Z -> (0 <= z <= snowSegments s)%Z ->
  vertexNormal (position (updateSnowGeometry s)) (snowSegments s)
               (sampleIndex s x z) = spec_normal s x z.
Proof.
  intros W Hx Hz.
  assert (P : forall x' z', (0 <= x' <= snowSegments s)%Z ->
                            (0 <= z' <= snowSegments s)%Z ->
            mkVector3 (getX (position (updateSnowGeometry s)) (sampleIndex s x' z'))
                      (getY (position (updateSnowGeometry s)) (sampleIndex s x' z'))
                      (getZ (position (updateSnowGeometry s)) (sampleIndex s x' z'))
            = currentPosition s (sampleIndex s x' z')).
  { intros x' z' Hx' Hz'; apply updated_position; [exact W|].
    apply sampleIndex_range; assumption. }
  destruct (sampleIndex_coords s x z Hx) as [Ex Ez].
  unfold vertexNormal, spec_normal, edgeTo, neighbor, inGrid.
  rewrite Ex, Ez, add_newVector3.
  replace (sampleIndex s x z - 1)%Z with (sampleIndex s (x + -1) (z + 0))
    by (unfold sampleIndex; lia).
  replace (sampleIndex s x z + 1)%Z with (sampleIndex s (x + 1) (z + 0))
    by (unfold sampleIndex; lia).
  replace (sampleIndex s x z - (snowSegments s + 1))%Z
    with (sampleIndex s (x + 0) (z + -1)) by (unfold sampleIndex; lia).
  replace (sampleIndex s x z + (snowSegments s + 1))%Z
    with (sampleIndex s (x + 0) (z + 1)) by (unfold sampleIndex; lia).
  destruct (Z.ltb_spec 0 x), (Z.ltb_spec x (snowSegments s)),
           (Z.ltb_spec 0 z), (Z.ltb_spec z (snowSegments s));
    repeat match goal with
           | |- context [(?a <=? ?b)%Z] => destruct (Z.leb_spec a b); try lia
           end;
    cbn [andb]; rewrite !P by lia; reflexivity.
Qed.

(** The stored normal of a sample is the spec's estimate. *)
Lemma storedNormal_updated (s : SnowFieldSystem) (x z : Z) :
  wf s -> (0 <= x <= snowSegments s)%Z -> (0 <= z <= snowSegments s)%Z ->
  storedNormal (updateSnowGeometry s) (sampleIndex s x z) = spec_normal s x z.
Proof.
  intros W Hx Hz.
  destruct (updateSnowGeometry_spec s W) as (_ & _ & _ & _ & _ & _ & Hn).
  destruct (Hn (sampleIndex s x z) (sampleIndex_range s x z W Hx Hz)) as (N1 & N2 & N3).
  unfold storedNormal, getX, getY, getZ; rewrite N1, N2, N3.
  rewrite (vertexNormal_spec_normal s x z W Hx Hz).
  destruct (spec_normal s x z); reflexivity.
Qed.

(** C7.  For the sample at grid coordinates [(x, z)], the normal stored by
    [updateSnowGeometry] is the one the spec describes: neighbours clamped at
    the boundary, normalised edges from the current positions, the four
    normalised cross products in the order right x bottom, bottom x left,
    left x top, top x right, summed and normalised. *)
Theorem updateSnowGeometry_normal :
  forall (s : SnowFieldSystem) (x z : Z),
    wf s -> (0 <= x <= snowSegments s)%Z -> (0 <= z <= snowSegments s)%Z ->
    storedNormal (updateSnowGeometry s) (sampleIndex s x z) = spec_normal s x z.
Proof.
  intros s x z W Hx Hz; exact (storedNormal_updated s x z W Hx Hz).
Qed.

Lemma updateSnowGeometry_normal_witness :
  wf grid2 /\ (0 <= 1 <= snowSegments grid2)%Z /\ (0 <= 0 <= snowSegments grid2)%Z /\
  storedNormal (updateSnowGeometry grid2) (sampleIndex grid2 1 0) = spec_normal grid2 1 0.
Proof.
  assert (W : wf grid2) by apply construct_wf.
  assert (Hx : (0 <= 1 <= snowSegments grid2)%Z) by (rewrite grid2_segments; lia).
  assert (Hz : (0 <= 0 <= snowSegments grid2)%Z) by (rewrite grid2_segments; lia).
  split; [exact W|]; split; [exact Hx|]; split; [exact Hz|].
  exact (updateSnowGeometry_normal grid2 1 0 W Hx Hz).
Defined.

(** ** Collapsed edges at the boundary, and NaN *)

Lemma subVectors_self (p : Vector3 R) : subVectors p p = zeroVector.
Proof.
  unfold subVectors, zeroVector; simpl; rewrite !Rminus_diag; reflexivity.
Qed.

Lemma normalize_zero : normalize zeroVector = zeroVector.
Proof.
  unfold normalize, divideScalar, multiplyScalar, zeroVector; simpl.
  rewrite !Rmult_0_l; reflexivity.
Qed.

Lemma crossVectors_zero_l (v : Vector3 R) : crossVectors zeroVector v = zeroVector.
Proof.
  unfold crossVectors, zeroVector; simpl; f_equal; ring.
Qed.

Lemma crossVectors_zero_r (v : Vector3 R) : crossVectors v zeroVector = zeroVector.
Proof.
  unfold crossVectors, zeroVector; simpl; f_equal; ring.
Qed.

Lemma add_zero_r (v : Vector3 R) : add v zeroVector = v.
Proof.
  destruct v as [a b c]; unfold add, zeroVector; simpl.
  rewrite !Rplus_0_r; reflexivity.
Qed.

Lemma add_zero_l (v : Vector3 R) : add zeroVector v = v.
Proof. apply add_newVector3. Qed.

Lemma edgeTo_collapsed s x z dx dz :
  inGrid s (x + dx) (z + dz) = false -> edgeTo s x z dx dz = zeroVector.
Proof.
  intros H; unfold edgeTo, neighbor; rewrite H, subVectors_self.
  apply normalize_zero.
Qed.

Lemma spec_normal_skipping s x z : spec_normal s x z = skipping_normal s x z.
Proof.
  unfold spec_normal, skipping_normal, edgeIfNeighbor.
  destruct (inGrid s (x + 1) (z + 0)) eqn:R;
    destruct (inGrid s (x + 0) (z + 1)) eqn:B;
    destruct (inGrid s (x + -1) (z + 0)) eqn:L;
    destruct (inGrid s (x + 0) (z + -1)) eqn:T;
    rewrite ?(edgeTo_collapsed s x z 1 0 R), ?(edgeTo_collapsed s x z 0 1 B),
            ?(edgeTo_collapsed s x z (-1) 0 L), ?(edgeTo_collapsed s x z 0 (-1) T);
    cbn [faceNormal app fold_left];
    rewrite ?crossVectors_zero_l, ?crossVectors_zero_r, ?normalize_zero,
            ?add_zero_r, ?add_zero_l, ?add_newVector3;
    reflexivity.
Qed.

(** The vector operations on finite vectors stay finite. *)
Lemma subVectors_finite a b :
  subVectors (finite a) (finite b) = finite (subVectors a b).
Proof. reflexivity. Qed.

Lemma add_finite a b : add (finite a) (finite b) = finite (add a b).
Proof. reflexivity. Qed.

Lemma crossVectors_finite a b :
  crossVectors (finite a) (finite b) = finite (crossVectors a b).
Proof. reflexivity. Qed.

Lemma newVector3_finite : newVector3 = finite newVector3.
Proof. reflexivity. Qed.

Lemma normalize_finite v : normalize (finite v) = finite (normalize v).
Proof.
  destruct v as [a b c].
  unfold normalize, divideScalar, multiplyScalar, vlength, finite; simpl.
  assert (Hq : ~ a * a + b * b + c * c < 0) by nra.
  destruct (Rlt_dec (a * a + b * b + c * c) 0) as [H|_]; [contradiction|].
  simpl.
  destruct (Req_dec_T (sqrt (a * a + b * b + c * c)) 0) as [E|E]; simpl.
  - destruct (Req_dec_T 1 0) as [H|_]; [lra|]. reflexivity.
  - destruct (Req_dec_T (sqrt (a * a + b * b + c * c)) 0) as [H|_]; [contradiction|].
    reflexivity.
Qed.

Lemma aget_map_Some (a : list R) (k : Z) :
  (0 <= k < Z.of_nat (List.length a))%Z -> aget (map Some a) k = Some (aget a k).
Proof.
  intros Hk; unfold aget; destruct (Z.ltb_spec k 0); [lia|].
  simpl. rewrite (nth_indep _ None (Some 0)) by (rewrite length_map; lia).
  apply map_nth.
Qed.

Lemma position_finite (a : list R) (k : Z) :
  (0 <= k)%Z -> (k * 3 + 2 < Z.of_nat (List.length a))%Z ->
  mkVector3 (getX (map Some a) k) (getY (map Some a) k) (getZ (map Some a) k) =
  finite (mkVector3 (getX a k) (getY a k) (getZ a k)).
Proof.
  intros H0 H1; unfold getX, getY, getZ, finite; simpl.
  rewrite !aget_map_Some by lia; reflexivity.
Qed.

(** The normal computation in the arithmetic with NaN, on the positions of
    a grid: no component is NaN. *)
Lemma vertexNormal_finite (a : list R) (segments x z : Z) :
  (0 <= x <= segments)%Z -> (0 <= z <= segments)%Z ->
  Z.of_nat (List.length a) = ((segments + 1) * (segments + 1) * 3)%Z ->
  vertexNormal (map Some a) segments (z * (segments + 1) + x) =
  finite (vertexNormal a segments (z * (segments + 1) + x)).
Proof.
  intros Hx Hz Hlen.
  assert (Ex : ((z * (segments + 1) + x) mod (segments + 1) = x)%Z).
  { rewrite Z.add_comm, Z.mod_add by lia. apply Z.mod_small; lia. }
  assert (Ez : ((z * (segments + 1) + x) / (segments + 1) = z)%Z).
  { rewrite Z.add_comm, Z.div_add by lia. rewrite Z.div_small by lia; lia. }
  unfold vertexNormal; rewrite Ex, Ez.
  destruct (Z.ltb_spec 0 x), (Z.ltb_spec x segments),
           (Z.ltb_spec 0 z), (Z.ltb_spec z segments);
    rewrite !position_finite by nia;
    rewrite !subVectors_finite, !normalize_finite, !crossVectors_finite,
            !normalize_finite, newVector3_finite, !add_finite, normalize_finite;
    reflexivity.
Qed.

(** C9.  At a boundary sample, where a neighbour is replaced by the sample
    itself: the normal that [updateSnowGeometry] stores has no NaN component
    (the same computation in the arithmetic with NaN yields the stored,
    finite components); every collapsed edge is the zero vector, and the
    stored normal is the one obtained by skipping the cross products that
    involve a collapsed edge. *)
Theorem boundary_normal_without_NaN :
  forall (s : SnowFieldSystem) (x z : Z),
    wf s -> (0 <= x <= snowSegments s)%Z -> (0 <= z <= snowSegments s)%Z ->
    (x = 0 \/ x = snowSegments s \/ z = 0 \/ z = snowSegments s)%Z ->
    let t := updateSnowGeometry s in
    let i := sampleIndex s x z in
    vertexNormal (map Some (position t)) (snowSegments s) i =
      mkVector3 (Some (vx (storedNormal t i))) (Some (vy (storedNormal t i)))
                (Some (vz (storedNormal t i))) /\
    (forall dx dz, inGrid s (x + dx) (z + dz) = false ->
                   edgeTo s x z dx dz = zeroVector) /\
    storedNormal t i = skipping_normal s x z.
Proof.
  intros s x z W Hx Hz _ t i.
  destruct (updateSnowGeometry_spec s W) as (_ & _ & (Lp & _) & _ & _ & _ & Hn).
  destruct (Hn i (sampleIndex_range s x z W Hx Hz)) as (N1 & N2 & N3).
  fold t in Lp, N1, N2, N3.
  assert (E : storedNormal t i = vertexNormal (position t) (snowSegments s) i).
  { unfold storedNormal, getX, getY, getZ; rewrite N1, N2, N3.
    destruct (vertexNormal (position t) (snowSegments s) i); reflexivity. }
  split; [|split].
  - rewrite E; unfold i, sampleIndex.
    apply (vertexNormal_finite (position t) (snowSegments s) x z Hx Hz).
    rewrite Lp, (wf_position s W), (wf_count s W); lia.
  - intros dx dz; apply edgeTo_collapsed.
  - rewrite E; unfold t, i.
    rewrite (vertexNormal_spec_normal s x z W Hx Hz).
    apply spec_normal_skipping.
Qed.

Lemma boundary_normal_without_NaN_witness :
  wf grid2 /\ (0 <= 0 <= snowSegments grid2)%Z /\ (0 <= 1 <= snowSegments grid2)%Z /\
  (0 = 0 \/ 0 = snowSegments grid2 \/ 1 = 0 \/ 1 = snowSegments grid2)%Z /\
  let t := updateSnowGeometry grid2 in
  let i := sampleIndex grid2 0 1 in
  vertexNormal (map Some (position t)) (snowSegments grid2) i =
    mkVector3 (Some (vx (storedNormal t i))) (Some (vy (storedNormal t i)))
              (Some (vz (storedNormal t i))) /\
  (forall dx dz, inGrid grid2 (0 + dx) (1 + dz) = false ->
                 edgeTo grid2 0 1 dx dz = zeroVector) /\
  storedNormal t i = skipping_normal grid2 0 1.
Proof.
  assert (W : wf grid2) by apply construct_wf.
  assert (Hx : (0 <= 0 <= snowSegments grid2)%Z) by (rewrite grid2_segments; lia).
  assert (Hz : (0 <= 1 <= snowSegments grid2)%Z) by (rewrite grid2_segments; lia).
  assert (Hb : (0 = 0 \/ 0 = snowSegments grid2 \/ 1 = 0 \/ 1 = snowSegments grid2)%Z)
    by (left; reflexivity).
  split; [exact W|]; split; [exact Hx|]; split; [exact Hz|]; split; [exact Hb|].
  exact (boundary_normal_without_NaN grid2 0 1 W Hx Hz Hb).
Defined.

(** ** The fresh grid: positions and normals of the rotated plane *)

Lemma nth_flatten (l : list (Vector3 R)) (j : nat) (d : Vector3 R) :
  (j < List.length l)%nat ->
  nth (j * 3) (flatten l) 0 = vx (nth j l d) /\
  nth (j * 3 + 1) (flatten l) 0 = vy (nth j l d) /\
  nth (j * 3 + 2) (flatten l) 0 = vz (nth j l d).
Proof.
  revert j; induction l as [|v l IH]; intros j Hj; simpl in Hj; [lia|].
  destruct j as [|j]; [simpl; repeat split|].
  destruct (IH j) as (H0 & H1 & H2); [lia|].
  replace (S j * 3)%nat with (S (S (S (j * 3)))) by lia.
  replace (S (S (S (j * 3))) + 1)%nat with (S (S (S (j * 3 + 1)))) by lia.
  replace (S (S (S (j * 3))) + 2)%nat with (S (S (S (j * 3 + 2)))) by lia.
  unfold flatten in *; simpl; repeat split; assumption.
Qed.

Lemma nth_map_seq {A} (f : nat -> A) (n ix : nat) (d : A) :
  (ix < n)%nat -> nth ix (map f (seq 0 n)) d = f ix.
Proof.
  intros H.
  rewrite (nth_indep _ d (f O)) by (rewrite length_map, length_seq; exact H).
  rewrite (map_nth f (seq 0 n) O ix), seq_nth by exact H; reflexivity.
Qed.

Lemma nth_rows (n m a ix r : nat) :
  (ix < n)%nat -> (r < m)%nat ->
  nth (r * n + ix)
      (flat_map (fun iy => map (fun ix => (ix, iy)) (seq 0 n)) (seq a m))
      (O, O) = (ix, (a + r)%nat).
Proof.
  intros Hix; revert a r; induction m as [|m IH]; intros a r Hr; [lia|].
  simpl. destruct r as [|r].
  - rewrite app_nth1 by (rewrite length_map, length_seq; lia).
    rewrite Nat.mul_0_l, Nat.add_0_l, nth_map_seq by exact Hix. f_equal; lia.
  - rewrite app_nth2 by (rewrite length_map, length_seq; nia).
    rewrite length_map, length_seq.
    replace (S r * n + ix - n)%nat with (r * n + ix)%nat by nia.
    rewrite IH by lia. f_equal; lia.
Qed.

Lemma nth_gridPoints (g : Z) (ix iz : nat) :
  (ix < Z.to_nat (g + 1))%nat -> (iz < Z.to_nat (g + 1))%nat ->
  nth (iz * Z.to_nat (g + 1) + ix) (gridPoints g g) (O, O) = (ix, iz).
Proof.
  intros Hx Hz; unfold gridPoints; rewrite nth_rows by assumption; reflexivity.
Qed.

Lemma cos_neg_PI2 : cos (- PI / 2) = 0.
Proof.
  replace (- PI / 2) with (- (PI / 2)) by lra.
  rewrite cos_neg; apply cos_PI2.
Qed.

Lemma sin_neg_PI2 : sin (- PI / 2) = -1.
Proof.
  replace (- PI / 2) with (- (PI / 2)) by lra.
  rewrite sin_neg, sin_PI2; reflexivity.
Qed.

(** The sample at grid coordinates [(x, z)] of the fresh plane. *)
Lemma planePositions_at (size : R) (g x z : Z) :
  (0 <= x <= g)%Z -> (0 <= z <= g)%Z ->
  let i := (z * (g + 1) + x)%Z in
  aget (planePositions size g) (i * 3) = IZR x * (size / IZR g) - size / 2 /\
  aget (planePositions size g) (i * 3 + 1) = 0 /\
  aget (planePositions size g) (i * 3 + 2) = IZR z * (size / IZR g) - size / 2.
Proof.
  intros Hx Hz i.
  set (j := (Z.to_nat z * Z.to_nat (g + 1) + Z.to_nat x)%nat).
  assert (Hj : (j < List.length (gridPoints g g))%nat)
    by (rewrite gridPoints_length; unfold j; nia).
  unfold planePositions.
  set (f := fun p : nat * nat =>
              rotateX (- PI / 2) (planeVertex size size g g (fst p) (snd p))).
  destruct (nth_flatten (map f (gridPoints g g)) j (f (O, O)))
    as (H0 & H1 & H2); [rewrite length_map; exact Hj|].
  rewrite (map_nth f (gridPoints g g) (O, O) j) in H0, H1, H2.
  assert (G : nth j (gridPoints g g) (O, O) = (Z.to_nat x, Z.to_nat z))
    by (unfold j; apply nth_gridPoints; lia).
  rewrite G in H0, H1, H2.
  set (a := flatten (map f (gridPoints g g))) in *.
  assert (A : forall c, (c < 3)%nat ->
            aget a (i * 3 + Z.of_nat c) = nth (j * 3 + c) a 0).
  { intros c Hc; unfold aget, i.
    destruct (Z.ltb_spec ((z * (g + 1) + x) * 3 + Z.of_nat c) 0); [nia|].
    f_equal; unfold j; nia. }
  pose proof (A 0%nat ltac:(lia)) as A0; pose proof (A 1%nat ltac:(lia)) as A1.
  pose proof (A 2%nat ltac:(lia)) as A2.
  rewrite Z.add_0_r in A0; rewrite Nat.add_0_r in A0.
  change (Z.of_nat 1) with 1%Z in A1; change (Z.of_nat 2) with 2%Z in A2.
  rewrite A0, A1, A2, H0, H1, H2.
  unfold f, rotateX, planeVertex; simpl.
  rewrite cos_neg_PI2, sin_neg_PI2, !INR_IZR_INZ, !Z2Nat.id by lia.
  repeat split; ring.
Qed.

Lemma planeNormals_at (g i : Z) :
  (0 <= i < Z.of_nat (gridCount g))%Z ->
  aget (planeNormals g) (i * 3) = 0 /\
  aget (planeNormals g) (i * 3 + 1) = 1 /\
  aget (planeNormals g) (i * 3 + 2) = 0.
Proof.
  intros Hi.
  assert (Hj : (Z.to_nat i < List.length (gridPoints g g))%nat)
    by (rewrite gridPoints_length; unfold gridCount in Hi; lia).
  unfold planeNormals.
  set (f := fun _ : nat * nat => rotateX (- PI / 2) planeNormal).
  destruct (nth_flatten (map f (gridPoints g g)) (Z.to_nat i) (f (O, O)))
    as (H0 & H1 & H2); [rewrite length_map; exact Hj|].
  rewrite (map_nth f (gridPoints g g) (O, O) (Z.to_nat i)) in H0, H1, H2.
  unfold aget; cbn [undef RealNumber].
  destruct (Z.ltb_spec (i * 3) 0); [lia|].
  destruct (Z.ltb_spec (i * 3 + 1) 0); [lia|].
  destruct (Z.ltb_spec (i * 3 + 2) 0); [lia|].
  replace (Z.to_nat (i * 3)) with (Z.to_nat i * 3)%nat by lia.
  replace (Z.to_nat (i * 3 + 1)) with (Z.to_nat i * 3 + 1)%nat by lia.
  replace (Z.to_nat (i * 3 + 2)) with (Z.to_nat i * 3 + 2)%nat by lia.
  rewrite H0, H1, H2; unfold f, rotateX, planeNormal; simpl.
  rewrite cos_neg_PI2, sin_neg_PI2; repeat split; ring.
Qed.

(** ** resetSnow *)

Lemma reset_loop_spec s n :
  (n <= List.length (elevations s))%nat ->
  (n <= List.length (trackIntensity s))%nat ->
  let t := for_loop n resetSnow_body s in
  same_grid s t /\ same_attributes s t /\
  List.length (elevations t) = List.length (elevations s) /\
  List.length (trackIntensity t) = List.length (trackIntensity s) /\
  (forall k, (0 <= k < Z.of_nat n)%Z ->
     aget (elevations t) k = 0 /\ aget (trackIntensity t) k = 0).
Proof.
  intros He Ht.
  apply (for_loop_ind
           (fun n t => same_grid s t /\ same_attributes s t /\
              List.length (elevations t) = List.length (elevations s) /\
              List.length (trackIntensity t) = List.length (trackIntensity s) /\
              (forall k, (0 <= k < Z.of_nat n)%Z ->
                 aget (elevations t) k = 0 /\ aget (trackIntensity t) k = 0))).
  - unfold same_attributes; repeat split; auto using same_grid_refl; lia.
  - intros k t Hk (Hg & Ha & Hle & Hlt & Hin).
    destruct (resetSnow_body_frame (Z.of_nat k) t) as (Hg' & Ha' & Hle' & Hlt').
    split; [eapply same_grid_trans; eassumption|].
    split; [unfold same_attributes in *; intuition congruence|].
    split; [congruence|]. split; [congruence|].
    intros j Hj; unfold resetSnow_body; proj_simpl.
    destruct (Z.eq_dec j (Z.of_nat k)) as [->|Hne].
    + aget_simpl; split; reflexivity.
    + aget_simpl; apply Hin; lia.
Qed.

Lemma resetSnow_loop_wf s : wf s -> wf (for_loop (count s) resetSnow_body s).
Proof.
  intros W.
  destruct (reset_loop_spec s (count s)) as (Hg & (Hp & Hn & Hc) & Hle & Hlt & _).
  { rewrite (wf_elev s W); lia. }
  { apply (wf_track s W). }
  apply (wf_transport s); auto.
  - unfold same_lengths; rewrite Hp, Hn, Hc; repeat split.
  - intros i; rewrite Hp; split; reflexivity.
Qed.

(** ** The normals of a flat grid *)

(** A positive multiple of a unit vector normalises to the unit vector. *)
Lemma normalize_scaled (v u : Vector3 R) (k : R) :
  0 < k ->
  vx v = k * vx u -> vy v = k * vy u -> vz v = k * vz u ->
  vx u * vx u + vy u * vy u + vz u * vz u = 1 ->
  normalize v = u.
Proof.
  destruct v as [a b c], u as [p q r]; simpl; intros Hk -> -> -> Hu.
  unfold normalize, divideScalar, multiplyScalar, vlength; simpl.
  replace (k * p * (k * p) + k * q * (k * q) + k * r * (k * r))
    with (k * k) by (transitivity (k * k * (p * p + q * q + r * r)); [rewrite Hu|]; ring).
  rewrite sqrt_square by lra.
  destruct (Req_dec_T k 0); [lra|].
  f_equal; field; lra.
Qed.

Lemma normalize_down (v : Vector3 R) :
  vx v = 0 -> vy v < 0 -> vz v = 0 -> normalize v = downward.
Proof.
  intros Hx Hy Hz; apply (normalize_scaled v downward (- vy v)); simpl; lra.
Qed.

Lemma face_right_bottom : normalize (crossVectors unitX unitZ) = downward.
Proof. apply normalize_down; simpl; lra. Qed.

Lemma face_bottom_left :
  normalize (crossVectors unitZ (mkVector3 (-1) 0 0)) = downward.
Proof. apply normalize_down; simpl; lra. Qed.

Lemma face_left_top :
  normalize (crossVectors (mkVector3 (-1) 0 0) (mkVector3 0 0 (-1))) = downward.
Proof. apply normalize_down; simpl; lra. Qed.

Lemma face_top_right :
  normalize (crossVectors (mkVector3 0 0 (-1)) unitX) = downward.
Proof. apply normalize_down; simpl; lra. Qed.

Lemma flat_subdivision s : flat s -> 0 < snowSize s / IZR (snowSegments s).
Proof.
  intros F; apply Rdiv_lt_0_compat; [apply (flat_size s F)|].
  apply IZR_lt, (flat_segments s F).
Qed.

Lemma flat_currentPosition s x z :
  flat s -> (0 <= x <= snowSegments s)%Z -> (0 <= z <= snowSegments s)%Z ->
  currentPosition s (sampleIndex s x z) =
  mkVector3 (IZR x * (snowSize s / IZR (snowSegments s)) - snowSize s / 2) 0
            (IZR z * (snowSize s / IZR (snowSegments s)) - snowSize s / 2).
Proof.
  intros F Hx Hz; unfold currentPosition.
  rewrite (flat_elev s F) by (apply sampleIndex_range; [apply F|assumption..]).
  rewrite (flat_base s F); unfold sampleIndex.
  destruct (planePositions_at (snowSize s) (snowSegments s) x z Hx Hz) as (-> & -> & ->).
  f_equal; ring.
Qed.

Lemma flat_edge s x z dx dz :
  flat s -> (0 <= x <= snowSegments s)%Z -> (0 <= z <= snowSegments s)%Z ->
  inGrid s (x + dx) (z + dz) = true ->
  edgeTo s x z dx dz =
  normalize (mkVector3 (IZR dx * (snowSize s / IZR (snowSegments s))) 0
                       (IZR dz * (snowSize s / IZR (snowSegments s)))).
Proof.
  intros F Hx Hz Hin; unfold edgeTo, neighbor; rewrite Hin.
  unfold inGrid in Hin.
  apply andb_prop in Hin; destruct Hin as [Hin H4].
  apply andb_prop in Hin; destruct Hin as [Hin H3].
  apply andb_prop in Hin; destruct Hin as [H1 H2].
  apply Z.leb_le in H1, H2, H3, H4.
  rewrite !flat_currentPosition by (try exact F; lia).
  unfold subVectors; simpl; rewrite !plus_IZR.
  f_equal; f_equal; ring.
Qed.

Lemma flat_edge_right s x z :
  flat s -> (0 <= x <= snowSegments s)%Z -> (0 <= z <= snowSegments s)%Z ->
  inGrid s (x + 1) (z + 0) = true -> edgeTo s x z 1 0 = unitX.
Proof.
  intros F Hx Hz Hin; rewrite (flat_edge s x z 1 0 F Hx Hz Hin).
  pose proof (flat_subdivision s F).
  apply (normalize_scaled _ unitX (snowSize s / IZR (snowSegments s))); simpl; lra.
Qed.

Lemma flat_edge_bottom s x z :
  flat s -> (0 <= x <= snowSegments s)%Z -> (0 <= z <= snowSegments s)%Z ->
  inGrid s (x + 0) (z + 1) = true -> edgeTo s x z 0 1 = unitZ.
Proof.
  intros F Hx Hz Hin; rewrite (flat_edge s x z 0 1 F Hx Hz Hin).
  pose proof (flat_subdivision s F).
  apply (normalize_scaled _ unitZ (snowSize s / IZR (snowSegments s))); simpl; lra.
Qed.

Lemma flat_edge_left s x z :
  flat s -> (0 <= x <= snowSegments s)%Z -> (0 <= z <= snowSegments s)%Z ->
  inGrid s (x + -1) (z + 0) = true -> edgeTo s x z (-1) 0 = mkVector3 (-1) 0 0.
Proof.
  intros F Hx Hz Hin; rewrite (flat_edge s x z (-1) 0 F Hx Hz Hin).
  pose proof (flat_subdivision s F).
  apply (normalize_scaled _ (mkVector3 (-1) 0 0) (snowSize s / IZR (snowSegments s)));
    simpl; lra.
Qed.

Lemma flat_edge_top s x z :
  flat s -> (0 <= x <= snowSegments s)%Z -> (0 <= z <= snowSegments s)%Z ->
  inGrid s (x + 0) (z + -1) = true -> edgeTo s x z 0 (-1) = mkVector3 0 0 (-1).
Proof.
  intros F Hx Hz Hin; rewrite (flat_edge s x z 0 (-1) F Hx Hz Hin).
  pose proof (flat_subdivision s F).
  apply (normalize_scaled _ (mkVector3 0 0 (-1)) (snowSize s / IZR (snowSegments s)));
    simpl; lra.
Qed.

(** On a flat grid the estimator yields the downward unit vector at every
    sample. *)
Lemma flat_spec_normal s x z :
  flat s -> (0 <= x <= snowSegments s)%Z -> (0 <= z <= snowSegments s)%Z ->
  spec_normal s x z = downward.
Proof.
  intros F Hx Hz.
  pose proof (flat_segments s F) as Hseg.
  rewrite spec_normal_skipping; unfold skipping_normal, edgeIfNeighbor.
  assert (HR : inGrid s (x + 1) (z + 0) = (x <? snowSegments s)%Z).
  { unfold inGrid; destruct (Z.ltb_spec x (snowSegments s));
      repeat match goal with
             | |- context [(?a <=? ?b)%Z] => destruct (Z.leb_spec a b); try lia
             end; reflexivity. }
  assert (HB : inGrid s (x + 0) (z + 1) = (z <? snowSegments s)%Z).
  { unfold inGrid; destruct (Z.ltb_spec z (snowSegments s));
      repeat match goal with
             | |- context [(?a <=? ?b)%Z] => destruct (Z.leb_spec a b); try lia
             end; reflexivity. }
  assert (HL : inGrid s (x + -1) (z + 0) = (0 <? x)%Z).
  { unfold inGrid; destruct (Z.ltb_spec 0 x);
      repeat match goal with
             | |- context [(?a <=? ?b)%Z] => destruct (Z.leb_spec a b); try lia
             end; reflexivity. }
  assert (HT : inGrid s (x + 0) (z + -1) = (0 <? z)%Z).
  { unfold inGrid; destruct (Z.ltb_spec 0 z);
      repeat match goal with
             | |- context [(?a <=? ?b)%Z] => destruct (Z.leb_spec a b); try lia
             end; reflexivity. }
  destruct (inGrid s (x + 1) (z + 0)) eqn:R;
    destruct (inGrid s (x + 0) (z + 1)) eqn:B;
    destruct (inGrid s (x + -1) (z + 0)) eqn:L;
    destruct (inGrid s (x + 0) (z + -1)) eqn:T;
    symmetry in HR, HB, HL, HT;
    rewrite ?Z.ltb_lt, ?Z.ltb_ge in HR, HB, HL, HT; try lia;
    rewrite ?(flat_edge_right s x z F Hx Hz R), ?(flat_edge_bottom s x z F Hx Hz B),
            ?(flat_edge_left s x z F Hx Hz L), ?(flat_edge_top s x z F Hx Hz T);
    cbn [faceNormal app fold_left];
    rewrite ?face_right_bottom, ?face_bottom_left, ?face_left_top, ?face_top_right;
    apply normalize_down; simpl; lra.
Qed.

Lemma aget_repeat_1 (n : nat) (k : Z) :
  (0 <= k < Z.of_nat n)%Z -> aget (repeat 1 n) k = 1.
Proof.
  intros Hk; unfold aget; destruct (Z.ltb_spec k 0); [lia|].
  apply nth_repeat_lt; lia.
Qed.

Lemma resetSnow_flat (size : R) (segments : Z) (dbg : option (R * R))
  (l : list Press) :
  0 < size -> (0 < segments)%Z ->
  let fresh := createdField (mkOptions (Some size) (Some segments) dbg) in
  let u := for_loop (count (presses l fresh)) resetSnow_body (presses l fresh) in
  flat u /\ same_grid fresh u /\
  snowSize fresh = size /\ snowSegments fresh = segments /\
  (forall i, (0 <= i < Z.of_nat (count u))%Z -> aget (trackIntensity u) i = 0).
Proof.
  intros Hsize Hseg fresh u.
  destruct (createdField_spec (mkOptions (Some size) (Some segments) dbg))
    as (Hsz & Hsg & _ & _ & _ & _ & _ & Hb & _).
  fold fresh in Hsz, Hsg, Hb; simpl in Hsz, Hsg, Hb.
  destruct (Req_dec_T size 0) as [E|_]; [lra|].
  destruct (Z.eqb_spec segments 0) as [E|_]; [lia|].
  assert (W : wf fresh) by apply createdField_wf.
  pose proof (presses_wf l fresh W) as W0.
  pose proof (presses_same_grid l fresh W) as G0.
  destruct (reset_loop_spec (presses l fresh) (count (presses l fresh)))
    as (G1 & _ & _ & _ & Hzero).
  { rewrite (wf_elev _ W0); lia. }
  { apply (wf_track _ W0). }
  fold u in G1, Hzero.
  pose proof (same_grid_trans _ _ _ G0 G1) as G.
  pose proof G as (G_size & G_seg & _ & _ & G_base & _).
  assert (Hc : count u = count (presses l fresh)) by apply G1.
  split; [|split; [exact G|split; [exact Hsz|split; [exact Hsg|]]]].
  - constructor.
    + apply resetSnow_loop_wf, W0.
    + rewrite G_size, Hsz; exact Hsize.
    + rewrite G_seg, Hsg; exact Hseg.
    + rewrite G_base, G_size, G_seg, Hb, Hsz, Hsg; reflexivity.
    + intros i Hi; apply Hzero; rewrite <- Hc; exact Hi.
  - intros i Hi; apply Hzero; rewrite <- Hc; exact Hi.
Qed.

(** The buffers after [resetSnow], from any state pressed out of the field
    that [createSnowField] made. *)
Lemma resetSnow_buffers :
  forall (size : R) (segments : Z) (dbg : option (R * R)) (l : list Press),
    0 < size -> (0 < segments)%Z ->
    let fresh := createdField (mkOptions (Some size) (Some segments) dbg) in
    let s := resetSnow (presses l fresh) in
    position s = position fresh /\
    color s = color fresh /\
    (forall x z, (0 <= x <= segments)%Z -> (0 <= z <= segments)%Z ->
       storedNormal fresh (sampleIndex fresh x z) = upward /\
       storedNormal s (sampleIndex fresh x z) = downward) /\
    normal s <> normal fresh.
Proof.
  intros size segments dbg l Hsize Hseg fresh s.
  destruct (resetSnow_flat size segments dbg l Hsize Hseg) as (F & G & Hsz & Hsg & Htr).
  fold fresh in F, G, Hsz, Hsg, Htr.
  set (u := for_loop (count (presses l fresh)) resetSnow_body (presses l fresh)) in *.
  assert (Es : s = updateSnowGeometry u) by reflexivity.
  pose proof (flat_wf u F) as Wu.
  destruct (createdField_spec (mkOptions (Some size) (Some segments) dbg))
    as (_ & _ & _ & Hc & Hp & Hn & Hcol & Hb & _).
  fold fresh in Hc, Hp, Hn, Hcol, Hb.
  pose proof G as (G_size & G_seg & _ & G_count & G_base & _).
  destruct (updateSnowGeometry_spec u Wu)
    as (_ & _ & (Lp & Ln & Lc) & Hxz & Hy & Hco & _).
  rewrite <- Es in Lp, Ln, Lc, Hxz, Hy, Hco.
  assert (Normals : forall x z, (0 <= x <= segments)%Z -> (0 <= z <= segments)%Z ->
            storedNormal fresh (sampleIndex fresh x z) = upward /\
            storedNormal s (sampleIndex fresh x z) = downward).
  { intros x z Hx Hz; split.
    - unfold storedNormal, getX, getY, getZ; rewrite Hn.
      destruct (planeNormals_at (or_default_Z (opt_segments (mkOptions (Some size) (Some segments) dbg)) 100)
                  (sampleIndex fresh x z)) as (-> & -> & ->); [|reflexivity].
      rewrite <- Hc; apply sampleIndex_range; [apply createdField_wf|lia|lia].
    - replace (sampleIndex fresh x z) with (sampleIndex u x z)
        by (unfold sampleIndex; rewrite G_seg; reflexivity).
      rewrite Es, storedNormal_updated by (try exact Wu; rewrite G_seg; lia).
      apply flat_spec_normal; [exact F|rewrite G_seg; lia|rewrite G_seg; lia]. }
  split; [|split; [|split; [exact Normals|]]].
  - apply (aget_ext3 _ _ (count u)).
    + rewrite Lp; apply (wf_position u Wu).
    + rewrite G_count; apply (wf_position fresh); apply createdField_wf.
    + intros i Hi; destruct (Hxz i) as [-> ->].
      destruct (wf_xz u Wu i) as [-> ->].
      rewrite (Hy i Hi), (flat_elev u F i Hi), G_base, Hb, Hp.
      repeat split; ring.
  - apply (aget_ext3 _ _ (count u)).
    + rewrite Lc; apply (wf_color u Wu).
    + rewrite G_count; apply (wf_color fresh); apply createdField_wf.
    + intros i Hi; destruct (Hco i Hi) as (-> & -> & ->).
      rewrite (Htr i Hi), Hcol, <- Hc, <- G_count.
      rewrite !aget_repeat_1 by lia.
      repeat split; ring.
  - intros E.
    destruct (Normals 0%Z 0%Z) as [Hup Hdown]; [lia|lia|].
    unfold storedNormal in Hup, Hdown; rewrite E in Hdown; rewrite Hup in Hdown.
    unfold upward, downward in Hdown; injection Hdown; lra.
Qed.

(** C3 (the code departs from it).  After any sequence of presses on a
    constructed grid (sizes and segments positive), [resetSnow] (which ends with [updateSnowGeometry])
    restores the position and colour buffers of the fresh grid; the normal
    buffer it leaves holds [(0, -1, 0)] at every sample, whereas the fresh
    grid has [(0, 1, 0)] there: the normals are not reproduced. *)
Theorem resetSnow_normals_not_restored :
  forall (size : R) (segments : Z) (dbg : option (R * R)) (l : list Press),
    0 < size -> (0 < segments)%Z ->
    let o := mkOptions (Some size) (Some segments) dbg in
    let fresh := createdField o in
    let s := resetSnow (presses l (construct o)) in
    position s = position fresh /\
    color s = color fresh /\
    (forall x z, (0 <= x <= segments)%Z -> (0 <= z <= segments)%Z ->
       storedNormal fresh (sampleIndex fresh x z) = upward /\
       storedNormal s (sampleIndex fresh x z) = downward) /\
    normal s <> normal fresh.
Proof.
  intros size segments dbg l Hsize Hseg o fresh s.
  destruct (construct_reachable o) as [l0 E].
  unfold s; rewrite E, <- presses_app.
  exact (resetSnow_buffers size segments dbg (l0 ++ l) Hsize Hseg).
Qed.

Lemma resetSnow_normals_not_restored_witness :
  0 < 2 /\ (0 < 1)%Z /\
  let o := mkOptions (Some 2) (Some 1%Z) None in
  let fresh := createdField o in
  let s := resetSnow (presses [mkPress (-1) (-1) 1 0.1 0.6] (construct o)) in
  position s = position fresh /\
  color s = color fresh /\
  (forall x z, (0 <= x <= 1)%Z -> (0 <= z <= 1)%Z ->
     storedNormal fresh (sampleIndex fresh x z) = upward /\
     storedNormal s (sampleIndex fresh x z) = downward) /\
  normal s <> normal fresh.
Proof.
  assert (H2 : 0 < 2) by lra.
  assert (H1 : (0 < 1)%Z) by lia.
  split; [exact H2|]; split; [exact H1|].
  exact (resetSnow_normals_not_restored 2 1 None [mkPress (-1) (-1) 1 0.1 0.6] H2 H1).
Defined.

(** ** Concrete runs on the 2 x 2 grid *)

Lemma grid2_size : snowSize grid2 = 2 /\ subdivision grid2 = 2.
Proof.
  destruct (createdField_spec (mkOptions (Some 2) (Some 1%Z) None)) as (Hs & _ & Hsub & _).
  rewrite grid2_created, Hs, Hsub.
  cbn [or_default_R or_default_Z opt_size opt_segments Z.eqb].
  destruct (Req_dec_T 2 0); [lra|]. split; [reflexivity|lra].
Qed.

Lemma grid2_base (x z : Z) :
  (0 <= x <= 1)%Z -> (0 <= z <= 1)%Z ->
  aget (basePositions grid2) ((z * 2 + x) * 3) = IZR x * 2 - 1 /\
  aget (basePositions grid2) ((z * 2 + x) * 3 + 2) = IZR z * 2 - 1.
Proof.
  intros Hx Hz.
  destruct (createdField_spec (mkOptions (Some 2) (Some 1%Z) None))
    as (_ & _ & _ & _ & _ & _ & _ & Hb & _).
  rewrite grid2_created, Hb.
  cbn [or_default_R or_default_Z opt_size opt_segments Z.eqb].
  destruct (Req_dec_T 2 0); [lra|].
  destruct (planePositions_at 2 1 x z Hx Hz) as (E0 & _ & E2).
  change (1 + 1)%Z with 2%Z in E0, E2.
  rewrite E0, E2; split; lra.
Qed.

(** A point far outside the grid is clamped to a corner sample. *)
Example getVertexIndex_outside : getVertexIndex grid2 5 (-7) = 1%Z.
Proof.
  unfold getVertexIndex.
  destruct grid2_size as [-> ->]; rewrite grid2_segments.
  rewrite (Zfloor_eq 3 ((5 + 2 / 2) / 2)) by lra.
  rewrite (Zfloor_eq (-3) ((-7 + 2 / 2) / 2)) by lra.
  reflexivity.
Qed.

Example press_corner :
  let s := pressSnow (-1) (-1) 1 0.1 0.6 grid2 in
  aget (elevations s) 0 = - 0.1 /\ aget (trackIntensity s) 0 = 0.6 /\
  aget (elevations s) 3 = 0 /\ aget (trackIntensity s) 3 = 0.
Proof.
  intros s.
  assert (W : wf grid2) by apply construct_wf.
  destruct (fresh_zero grid2 grid2_fresh) as (_ & He & Ht).
  destruct (grid2_base 0 0) as [X0 Z0]; [lia|lia|].
  destruct (grid2_base 1 1) as [X3 Z3]; [lia|lia|].
  change ((0 * 2 + 0) * 3)%Z with (0 * 3)%Z in X0.
  change ((0 * 2 + 0) * 3 + 2)%Z with (0 * 3 + 2)%Z in Z0.
  change ((1 * 2 + 1) * 3)%Z with (3 * 3)%Z in X3.
  change ((1 * 2 + 1) * 3 + 2)%Z with (3 * 3 + 2)%Z in Z3.
  assert (R1 : 0 < 1) by lra.
  destruct (pressSnow_sample grid2 (-1) (-1) 1 0.1 0.6 0 W) as [In0 _];
    [rewrite grid2_count; lia|].
  destruct (pressSnow_sample grid2 (-1) (-1) 1 0.1 0.6 3 W) as [_ Out3];
    [rewrite grid2_count; lia|].
  fold s in In0, Out3.
  rewrite X0, Z0, He, Ht in In0. rewrite X3, Z3, He, Ht in Out3.
  replace ((0 * 2 - 1 - -1) ^ 2 + (0 * 2 - 1 - -1) ^ 2) with 0 in In0 by ring.
  rewrite sqrt_0 in In0.
  destruct (In0 ltac:(lra)) as [E0 T0].
  assert (D3 : sqrt ((1 * 2 - 1 - -1) ^ 2 + (1 * 2 - 1 - -1) ^ 2) >= 1).
  { apply Rle_ge.
    replace 1 with (sqrt 1) at 1 by apply sqrt_1.
    apply sqrt_le_1_alt; lra. }
  destruct (Out3 D3) as [E3 T3].
  rewrite E0, T0, E3, T3.
  unfold Rmin, Rmax.
  destruct (Rle_dec 0 (- (0.1) * (1 - 0 / 1))); [lra|].
  destruct (Rle_dec 0 (0.6 * (1 - 0 / 1))); [|lra].
  repeat split; lra.
Qed.

(** Two presses on the same centre, depth 0.1 then 0.05: the minimum wins,
    the elevation at the centre stays at - 0.1. *)
Example press_twice_min_wins :
  let s := pressSnow (-1) (-1) 1 0.05 0.6 (pressSnow (-1) (-1) 1 0.1 0.6 grid2) in
  aget (elevations s) 0 = - 0.1.
Proof.
  intros s.
  assert (W : wf grid2) by apply construct_wf.
  pose proof (pressSnow_wf (-1) (-1) 1 0.1 0.6 grid2 W) as W1.
  destruct press_corner as (E0 & _).
  destruct (pressSnow_spec (-1) (-1) 1 0.1 0.6 grid2 W) as ((_ & _ & _ & Hc & Hb & _) & _).
  destruct (grid2_base 0 0) as [X0 Z0]; [lia|lia|].
  change ((0 * 2 + 0) * 3)%Z with (0 * 3)%Z in X0.
  change ((0 * 2 + 0) * 3 + 2)%Z with (0 * 3 + 2)%Z in Z0.
  assert (R1 : 0 < 1) by lra.
  destruct (pressSnow_sample (pressSnow (-1) (-1) 1 0.1 0.6 grid2)
              (-1) (-1) 1 0.05 0.6 0 W1) as [In0 _];
    [rewrite Hc, grid2_count; lia|].
  fold s in In0. rewrite Hb, X0, Z0, E0 in In0.
  replace ((0 * 2 - 1 - -1) ^ 2 + (0 * 2 - 1 - -1) ^ 2) with 0 in In0 by ring.
  rewrite sqrt_0 in In0.
  destruct (In0 ltac:(lra)) as [E _].
  rewrite E; unfold Rmin.
  destruct (Rle_dec (- 0.1) (- (0.05) * (1 - 0 / 1))); lra.
Qed.

(** The record the code keeps of the original normals: [(0, 1, 0)]. *)
Lemma createdField_baseNormals (o : Options) (i : Z) :
  (0 <= i < Z.of_nat (count (createdField o)))%Z ->
  mkVector3 (getX (baseNormals (createdField o)) i) (getY (baseNormals (createdField o)) i)
            (getZ (baseNormals (createdField o)) i) = upward.
Proof.
  unfold createdField.
  destruct (init_with_spec (fun n => n) (or_default_R (opt_size o) 20)
              (or_default_Z (opt_segments o) 100))
    as (_ & _ & _ & Hc & _ & _ & _ & _ & _ & Hn & _).
  rewrite Hc; intros Hi; destruct (Hn i Hi) as (N0 & N1 & N2).
  unfold getX, getY, getZ, upward; rewrite N0, N1, N2; reflexivity.
Qed.

(** * Further properties *)

(** ** Instances *)

Lemma grid2_reachable : reachable grid2.
Proof. unfold grid2; apply reach_construct. Qed.

Lemma grid2_pressed_reachable : reachable grid2_pressed.
Proof.
  unfold grid2_pressed; eapply reach_step; [apply grid2_reachable|].
  apply step_press; unfold validPress; simpl; lra.
Qed.

Lemma grid2_pressed_grid : same_grid grid2 grid2_pressed.
Proof. unfold grid2_pressed; apply press_same_grid, construct_wf. Qed.

Lemma grid2_pressed_count : count grid2_pressed = 4%nat.
Proof.
  destruct grid2_pressed_grid as (_ & _ & _ & -> & _); apply grid2_count.
Qed.

Lemma grid2_pressed_size :
  snowSize grid2_pressed = 2 /\ snowSegments grid2_pressed = 1%Z /\
  subdivision grid2_pressed = 2.
Proof.
  destruct grid2_pressed_grid as (-> & -> & -> & _).
  destruct grid2_size as [-> ->]; rewrite grid2_segments; auto.
Qed.

Lemma main_initial_size : snowSize Main.initial = 20.
Proof.
  rewrite main_initial_created; unfold Main.created.
  pose proof (init_with_spec (fun n => (n * 5000)%nat) Main.snowSize Main.snowSegments)
    as H; cbv zeta in H.
  destruct H as (E1 & _); rewrite E1; reflexivity.
Qed.

(** ** The reachable states *)

Lemma vehiclePresses_valid px pz w : Forall validPress (vehiclePresses px pz w).
Proof.
  unfold vehiclePresses; repeat constructor; simpl; lra.
Qed.

Lemma step_presses_or_reset s t :
  step s t ->
  (exists l, Forall validPress l /\ t = presses l s) \/ t = resetSnow s \/
  t = updateSnowGeometry s.
Proof.
  intros [p s0 Hp|x z r d c s0 Hp|px pz w s0|s0|s0].
  - left; exists [p]; split; [constructor; [exact Hp|constructor]|reflexivity].
  - left; eexists [_]; split; [constructor; [exact Hp|constructor]|reflexivity].
  - left; exists (vehiclePresses px pz w); split;
      [apply vehiclePresses_valid|apply addVehicleTrack_presses].
  - right; left; reflexivity.
  - right; right; reflexivity.
Qed.

Lemma resetSnow_wf s : wf s -> wf (resetSnow s).
Proof.
  intros W; unfold resetSnow; apply updateSnowGeometry_wf, resetSnow_loop_wf, W.
Qed.

Lemma step_wf s t : step s t -> wf s -> wf t.
Proof.
  intros H W; destruct (step_presses_or_reset s t H) as [(l & _ & ->)| [-> | ->]].
  - apply presses_wf, W.
  - apply resetSnow_wf, W.
  - apply updateSnowGeometry_wf, W.
Qed.

Lemma resetSnow_same_grid s : wf s -> same_grid s (resetSnow s).
Proof.
  intros W; unfold resetSnow.
  destruct (reset_loop_spec s (count s)) as (G & _).
  { rewrite (wf_elev s W); lia. } { apply (wf_track s W). }
  destruct (updateSnowGeometry_frame (for_loop (count s) resetSnow_body s)) as (G' & _).
  eapply same_grid_trans; eassumption.
Qed.

Lemma step_same_grid s t : step s t -> wf s -> same_grid s t.
Proof.
  intros H W; destruct (step_presses_or_reset s t H) as [(l & _ & ->)| [-> | ->]].
  - apply presses_same_grid, W.
  - apply resetSnow_same_grid, W.
  - apply updateSnowGeometry_frame.
Qed.

(** After [updateSnowGeometry] the position and colour attributes follow the
    snow data. *)
Lemma updateSnowGeometry_in_step s :
  wf s ->
  let t := updateSnowGeometry s in
  (forall i, (0 <= i < Z.of_nat (count t))%Z ->
     getY (position t) i = getY (basePositions t) i + aget (elevations t) i) /\
  (forall i, (0 <= i < Z.of_nat (count t))%Z ->
     getX (color t) i = 1 - aget (trackIntensity t) i * 0.2 /\
     getY (color t) i = 1 - aget (trackIntensity t) i * 0.15 /\
     getZ (color t) i = 1 - aget (trackIntensity t) i * 0.1).
Proof.
  intros W t.
  destruct (updateSnowGeometry_spec s W)
    as ((_ & _ & _ & Hc & Hb & _) & (He & Ht) & _ & _ & Hy & Hcol & _).
  fold t in Hc, Hb, He, Ht, Hy, Hcol.
  unfold getX, getY, getZ; rewrite Hc, Hb, He, Ht; split; assumption.
Qed.

Lemma coherent_update s :
  wf s ->
  (forall i, (0 <= i < Z.of_nat (count s))%Z -> aget (elevations s) i <= 0) ->
  (forall i, (0 <= i < Z.of_nat (count s))%Z -> 0 <= aget (trackIntensity s) i <= 1) ->
  coherent (updateSnowGeometry s).
Proof.
  intros W He Ht.
  destruct (updateSnowGeometry_frame s) as ((_ & _ & _ & Hc & _) & (E & T) & _).
  destruct (updateSnowGeometry_in_step s W) as [Hp Hcol].
  constructor; try assumption.
  - apply updateSnowGeometry_wf, W.
  - intros i Hi; rewrite E; apply He; rewrite <- Hc; exact Hi.
  - intros i Hi; rewrite T; apply Ht; rewrite <- Hc; exact Hi.
Qed.

Lemma coherent_press p s : validPress p -> coherent s -> coherent (press p s).
Proof.
  intros Hp C. pose proof (coherent_wf s C) as W.
  unfold press, pressSnow.
  destruct (press_loop_spec (centerX p) (centerZ p) (radius p) (depth p)
              (colorIntensity p) s (count s)) as ((_ & _ & _ & Hc & _) & _).
  { rewrite (wf_elev s W); lia. } { apply (wf_track s W). }
  set (u := for_loop (count s) _ s) in *.
  assert (Eu : updateSnowGeometry u = press p s) by reflexivity.
  destruct (updateSnowGeometry_frame u) as (_ & (E & T) & _).
  rewrite Eu in E, T.
  apply coherent_update; [apply press_loop_wf, W| |]; intros i Hi; rewrite Hc in Hi.
  - rewrite <- E; apply (press_bounds p s i W Hp), (coherent_elevation s C i Hi).
  - rewrite <- T; apply (press_bounds p s i W Hp), (coherent_intensity s C i Hi).
Qed.

Lemma coherent_presses l s :
  Forall validPress l -> coherent s -> coherent (presses l s).
Proof.
  revert s; induction l as [|p l IH]; intros s Hv C; simpl; [exact C|].
  inversion Hv; subst; apply IH; [assumption|apply coherent_press; assumption].
Qed.

Lemma coherent_reset s : wf s -> coherent (resetSnow s).
Proof.
  intros W; unfold resetSnow.
  destruct (reset_loop_spec s (count s)) as ((_ & _ & _ & Hc & _) & _ & _ & _ & Hz).
  { rewrite (wf_elev s W); lia. } { apply (wf_track s W). }
  apply coherent_update; [apply resetSnow_loop_wf, W| |]; intros i Hi;
    rewrite Hc in Hi; destruct (Hz i Hi) as [E T]; rewrite ?E, ?T; lra.
Qed.

Lemma coherent_init (trackLength : nat -> nat) (size : R) (segments : Z) :
  (forall n, (n <= trackLength n)%nat) -> size <> 0 -> segments <> 0%Z ->
  coherent (init_with trackLength size segments).
Proof.
  intros Hn Hs Hg.
  destruct (init_with_spec trackLength size segments)
    as (_ & _ & _ & Hc & Hp & _ & Hcol & Hb & _ & _ & _ & _ & He & Ht).
  constructor.
  - apply init_with_wf; assumption.
  - intros i _; rewrite He; lra.
  - intros i _; rewrite Ht; lra.
  - intros i _; rewrite Hp, Hb, He; lra.
  - intros i Hi; rewrite Ht, Hcol; unfold getX, getY, getZ.
    rewrite Hc in Hi; rewrite !aget_repeat_1 by lia. repeat split; lra.
Qed.

Lemma construct_valid_presses (o : Options) :
  exists l, Forall validPress l /\ construct o = presses l (createdField o).
Proof.
  unfold construct, updateVehiclePosition_idle.
  repeat match goal with |- context [Req_dec_T ?a ?b] => destruct (Req_dec_T a b) end;
    first [ exists []; split; [constructor|reflexivity]
          | eexists; split; [apply vehiclePresses_valid|apply addVehicleTrack_presses] ].
Qed.

Lemma reachable_coherent s : reachable s -> coherent s.
Proof.
  induction 1 as [o| |s t _ IH Hst].
  - destruct (construct_valid_presses o) as (l & Hl & ->).
    apply coherent_presses; [exact Hl|].
    unfold createdField; apply coherent_init.
    + intros n; lia.
    + apply or_default_R_nonzero; lra.
    + apply or_default_Z_nonzero; lia.
  - rewrite main_initial_created; unfold Main.created; apply coherent_init.
    + intros n; lia.
    + unfold Main.snowSize; lra.
    + unfold Main.snowSegments; lia.
  - destruct (step_presses_or_reset s t Hst) as [(l & Hl & ->)| [-> | ->]].
    + apply coherent_presses; assumption.
    + apply coherent_reset, IH.
    + apply coherent_update; apply IH.
Qed.

(** X1.  In every state reached from construction (of the class or of
    [main.js]) by presses, tracks, resets and updates, in any order, every
    sample has [elevation <= 0] and [trackIntensity] in [[0, 1]]. *)
Theorem reachable_data_in_bounds :
  forall (s : SnowFieldSystem) (i : Z),
    reachable s -> (0 <= i < Z.of_nat (count s))%Z ->
    aget (elevations s) i <= 0 /\ 0 <= aget (trackIntensity s) i <= 1.
Proof.
  intros s i H Hi; pose proof (reachable_coherent s H) as C.
  split; [apply (coherent_elevation s C i Hi)|apply (coherent_intensity s C i Hi)].
Qed.

Lemma reachable_data_in_bounds_witness :
  reachable grid2_pressed /\ (0 <= 0 < Z.of_nat (count grid2_pressed))%Z /\
  aget (elevations grid2_pressed) 0 <= 0 /\
  0 <= aget (trackIntensity grid2_pressed) 0 <= 1.
Proof.
  assert (Hr : reachable grid2_pressed) by apply grid2_pressed_reachable.
  assert (Hi : (0 <= 0 < Z.of_nat (count grid2_pressed))%Z)
    by (rewrite grid2_pressed_count; lia).
  split; [exact Hr|]; split; [exact Hi|].
  exact (reachable_data_in_bounds grid2_pressed 0 Hr Hi).
Defined.



(** ** Reset, update and repeated presses *)

Lemma reset_loop_outside s n k :
  ~ (0 <= k < Z.of_nat n)%Z ->
  aget (elevations (for_loop n resetSnow_body s)) k = aget (elevations s) k /\
  aget (trackIntensity (for_loop n resetSnow_body s)) k = aget (trackIntensity s) k.
Proof.
  intros Hk.
  apply (for_loop_ind
           (fun m t => (m <= n)%nat ->
              aget (elevations t) k = aget (elevations s) k /\
              aget (trackIntensity t) k = aget (trackIntensity s) k)); [auto| |lia].
  intros m t Hm IH _; destruct IH as [E T]; [lia|].
  unfold resetSnow_body; proj_simpl.
  rewrite !aget_aset_other by lia; split; assumption.
Qed.

Lemma updateSnowGeometry_idempotent s :
  wf s -> updateSnowGeometry (updateSnowGeometry s) = updateSnowGeometry s.
Proof.
  intros W.
  destruct (updateSnowGeometry_frame s) as (G & D & _).
  apply updateSnowGeometry_congr; [apply updateSnowGeometry_wf, W|exact W| |].
  - unfold same_grid in *; intuition congruence.
  - unfold same_data in *; intuition congruence.
Qed.

(** X3.  [resetSnow] sets the elevation and the track intensity of every
    sample to zero, keeps the grid and the array lengths, and resetting twice
    is the same as resetting once. *)
Theorem resetSnow_clears :
  forall s : SnowFieldSystem,
    wf s ->
    elevations (resetSnow s) = repeat 0 (count s) /\
    List.length (trackIntensity (resetSnow s)) = List.length (trackIntensity s) /\
    (forall i, (0 <= i < Z.of_nat (count s))%Z ->
       aget (trackIntensity (resetSnow s)) i = 0) /\
    same_grid s (resetSnow s) /\
    resetSnow (resetSnow s) = resetSnow s.
Proof.
  intros s W.
  pose proof (resetSnow_wf s W) as Wr.
  pose proof (resetSnow_same_grid s W) as G.
  assert (L : forall u, wf u ->
            let t := for_loop (count u) resetSnow_body u in
            wf t /\ same_grid u t /\
            elevations (resetSnow u) = elevations t /\
            trackIntensity (resetSnow u) = trackIntensity t /\
            List.length (elevations t) = count u /\
            List.length (trackIntensity t) = List.length (trackIntensity u) /\
            (forall i, (0 <= i < Z.of_nat (count u))%Z ->
               aget (elevations t) i = 0 /\ aget (trackIntensity t) i = 0) /\
            (forall i, ~ (0 <= i < Z.of_nat (count u))%Z ->
               aget (trackIntensity t) i = aget (trackIntensity u) i)).
  { intros u Wu t.
    destruct (reset_loop_spec u (count u)) as (Gu & _ & Le & Lt & Hz).
    { rewrite (wf_elev u Wu); lia. } { apply (wf_track u Wu). }
    fold t in Gu, Le, Lt, Hz.
    destruct (updateSnowGeometry_frame t) as (_ & (E & T) & _).
    split; [apply resetSnow_loop_wf, Wu|]. split; [exact Gu|].
    split; [exact E|]. split; [exact T|].
    split; [rewrite Le; apply (wf_elev u Wu)|]. split; [exact Lt|].
    split; [exact Hz|].
    intros i Hi; apply (reset_loop_outside u (count u) i Hi). }
  destruct (L s W) as (W1 & G1 & E1 & T1 & Le1 & Lt1 & Z1 & O1).
  destruct (L (resetSnow s) Wr) as (W2 & G2 & E2 & T2 & Le2 & Lt2 & Z2 & O2).
  assert (Hc : count (resetSnow s) = count s) by apply G.
  rewrite Hc in *.
  split; [|split; [|split; [|split]]].
  - rewrite E1; apply aget_ext; [rewrite repeat_length; exact Le1|].
    intros k Hk; rewrite Le1 in Hk; rewrite aget_repeat_0; apply Z1; exact Hk.
  - rewrite T1; exact Lt1.
  - intros i Hi; rewrite T1; apply Z1; exact Hi.
  - exact G.
  - unfold resetSnow at 1 3; rewrite Hc.
    apply updateSnowGeometry_congr; try assumption.
    + unfold same_grid in *; intuition congruence.
    + split; apply aget_ext.
      * congruence.
      * intros k Hk; rewrite Le1 in Hk.
        destruct (Z1 k Hk) as [-> _]; destruct (Z2 k Hk) as [-> _]; reflexivity.
      * rewrite Lt2, T1; reflexivity.
      * intros k _.
        assert (Hcase : (0 <= k < Z.of_nat (count s))%Z \/
                        ~ (0 <= k < Z.of_nat (count s))%Z) by lia.
        destruct Hcase as [Hk|Hk].
        -- destruct (Z1 k Hk) as [_ ->]; destruct (Z2 k Hk) as [_ ->]; reflexivity.
        -- rewrite (O2 k Hk), T1; reflexivity.
Qed.

Lemma resetSnow_clears_witness :
  wf grid2_pressed /\
  elevations (resetSnow grid2_pressed) = repeat 0 (count grid2_pressed) /\
  resetSnow (resetSnow grid2_pressed) = resetSnow grid2_pressed.
Proof.
  assert (W : wf grid2_pressed)
    by (unfold grid2_pressed, press; apply pressSnow_wf, construct_wf).
  split; [exact W|].
  destruct (resetSnow_clears grid2_pressed W) as (He & _ & _ & _ & Hi).
  split; [exact He|exact Hi].
Defined.

(** X4.  The render buffers are a function of the snow data:
    [updateSnowGeometry] is idempotent, and after a press or a reset a
    further [updateSnowGeometry] changes nothing. *)
Theorem updateSnowGeometry_settled :
  forall s : SnowFieldSystem,
    wf s ->
    updateSnowGeometry (updateSnowGeometry s) = updateSnowGeometry s /\
    (forall x z r d c,
       updateSnowGeometry (pressSnow x z r d c s) = pressSnow x z r d c s) /\
    updateSnowGeometry (resetSnow s) = resetSnow s.
Proof.
  intros s W; split; [apply updateSnowGeometry_idempotent, W|split].
  - intros x z r d c; unfold pressSnow.
    apply updateSnowGeometry_idempotent, press_loop_wf, W.
  - unfold resetSnow; apply updateSnowGeometry_idempotent, resetSnow_loop_wf, W.
Qed.

Lemma updateSnowGeometry_settled_witness :
  wf grid2 /\
  updateSnowGeometry (updateSnowGeometry grid2) = updateSnowGeometry grid2 /\
  updateSnowGeometry (pressSnow 1 1 0.5 0.1 0.6 grid2) = pressSnow 1 1 0.5 0.1 0.6 grid2 /\
  updateSnowGeometry (resetSnow grid2) = resetSnow grid2.
Proof.
  assert (W : wf grid2) by apply construct_wf.
  split; [exact W|].
  destruct (updateSnowGeometry_settled grid2 W) as (H1 & H2 & H3).
  split; [exact H1|split; [apply H2|exact H3]].
Defined.

Lemma pressedElevation_absorbed s x z r d d' i e :
  d' <= d ->
  pressedElevation s x z r d' i (pressedElevation s x z r d i e) =
  pressedElevation s x z r d i e.
Proof.
  intros Hd; unfold pressedElevation.
  destruct (Rlt_dec (sampleDistance s x z i) r) as [Hlt|]; [|reflexivity].
  pose proof (influence_range _ _ (sampleDistance_nonneg s x z i) Hlt) as Hi.
  unfold Rmin; repeat destruct (Rle_dec _ _); nra.
Qed.

Lemma pressedIntensity_absorbed s x z r c c' i t :
  c' <= c ->
  pressedIntensity s x z r c' i (pressedIntensity s x z r c i t) =
  pressedIntensity s x z r c i t.
Proof.
  intros Hc; unfold pressedIntensity.
  destruct (Rlt_dec (sampleDistance s x z i) r) as [Hlt|]; [|reflexivity].
  pose proof (influence_range _ _ (sampleDistance_nonneg s x z i) Hlt) as Hi.
  unfold Rmax; repeat destruct (Rle_dec _ _); nra.
Qed.

(** X5.  A press is absorbed by an earlier press with the same centre and
    radius that is at least as deep and as intense: the second call leaves
    the whole state as it was.  In particular a press repeated is a press
    done once. *)
Theorem press_absorbed :
  forall (s : SnowFieldSystem) (x z r d c d' c' : R),
    wf s -> d' <= d -> c' <= c ->
    pressSnow x z r d' c' (pressSnow x z r d c s) = pressSnow x z r d c s.
Proof.
  intros s x z r d c d' c' W Hd Hc.
  pose proof (pressSnow_wf x z r d c s W) as Wp.
  destruct (pressSnow_spec x z r d c s W) as (Gp & LEp & LTp & INp & OUTp).
  set (sp := pressSnow x z r d c s) in *.
  unfold pressSnow at 1.
  destruct (press_loop_spec x z r d' c' sp (count sp))
    as (G1 & A1 & LE1 & LT1 & IN1 & OUT1).
  { rewrite (wf_elev sp Wp); lia. } { apply (wf_track sp Wp). }
  destruct (press_loop_spec x z r d c s (count s))
    as (G2 & A2 & LE2 & LT2 & IN2 & OUT2).
  { rewrite (wf_elev s W); lia. } { apply (wf_track s W). }
  destruct (updateSnowGeometry_frame (for_loop (count s) (pressSnow_body x z r d c) s))
    as (_ & (E & T) & _).
  fold (pressSnow x z r d c s) in E, T; fold sp in E, T.
  assert (Cp : count sp = count s) by apply Gp.
  assert (Bp : basePositions sp = basePositions s) by apply Gp.
  unfold sp at 3; unfold pressSnow.
  apply updateSnowGeometry_congr; try (apply press_loop_wf; assumption).
  - unfold same_grid in *; intuition congruence.
  - rewrite Cp in *.
    split; apply aget_ext; try congruence; intros k _;
      (assert (Hcase : (0 <= k < Z.of_nat (count s))%Z \/
                       ~ (0 <= k < Z.of_nat (count s))%Z) by lia);
      destruct Hcase as [Hk|Hk].
    + destruct (IN1 k Hk) as [-> _]; rewrite <- E.
      destruct (INp k Hk) as [-> _].
      rewrite (pressedElevation_grid s sp) by assumption.
      symmetry; apply pressedElevation_absorbed, Hd.
    + destruct (OUT1 k Hk) as [-> _]; rewrite <- E; reflexivity.
    + destruct (IN1 k Hk) as [_ ->]; rewrite <- T.
      destruct (INp k Hk) as [_ ->].
      rewrite (pressedIntensity_grid s sp) by assumption.
      symmetry; apply pressedIntensity_absorbed, Hc.
    + destruct (OUT1 k Hk) as [_ ->]; rewrite <- T; reflexivity.
Qed.

Lemma press_absorbed_witness :
  wf grid2 /\ 0.05 <= 0.1 /\ 0.4 <= 0.6 /\
  pressSnow 1 1 0.5 0.05 0.4 (pressSnow 1 1 0.5 0.1 0.6 grid2) =
  pressSnow 1 1 0.5 0.1 0.6 grid2.
Proof.
  assert (W : wf grid2) by apply construct_wf.
  assert (Hd : 0.05 <= 0.1) by lra.
  assert (Hc : 0.4 <= 0.6) by lra.
  split; [exact W|]; split; [exact Hd|]; split; [exact Hc|].
  exact (press_absorbed grid2 1 1 0.5 0.1 0.6 0.05 0.4 W Hd Hc).
Defined.




(** ** getVertexIndex and the sample positions *)

Lemma grounded_subdivision s : grounded s -> 0 < subdivision s.
Proof.
  intros G; rewrite (wf_subdivision s (grounded_wf s G)).
  apply Rdiv_lt_0_compat; [apply (grounded_size s G)|].
  apply IZR_lt, (grounded_segments s G).
Qed.

Lemma grounded_base_at s x z :
  grounded s -> (0 <= x <= snowSegments s)%Z -> (0 <= z <= snowSegments s)%Z ->
  getX (basePositions s) (sampleIndex s x z) = IZR x * subdivision s - snowSize s / 2 /\
  getY (basePositions s) (sampleIndex s x z) = 0 /\
  getZ (basePositions s) (sampleIndex s x z) = IZR z * subdivision s - snowSize s / 2.
Proof.
  intros G Hx Hz; unfold getX, getY, getZ.
  rewrite (grounded_base s G), (wf_subdivision s (grounded_wf s G)).
  apply (planePositions_at (snowSize s) (snowSegments s) x z Hx Hz).
Qed.

Lemma reachable_wf s : reachable s -> wf s.
Proof.
  induction 1 as [o| |s t _ IH Hst].
  - apply construct_wf.
  - rewrite main_initial_created; apply main_created_wf.
  - apply (step_wf s t Hst IH).
Qed.

Lemma reachable_base s :
  reachable s -> basePositions s = planePositions (snowSize s) (snowSegments s).
Proof.
  induction 1 as [o| |s t Hs IH Hst].
  - destruct (construct_spec o) as (-> & -> & _ & _ & -> & _); reflexivity.
  - rewrite main_initial_created; unfold Main.created.
    pose proof (init_with_spec (fun n => (n * 5000)%nat) Main.snowSize Main.snowSegments)
      as H; cbv zeta in H.
    destruct H as (E1 & E2 & _ & _ & _ & _ & _ & E8 & _).
    rewrite E8, E1, E2; reflexivity.
  - destruct (step_same_grid s t Hst (reachable_wf s Hs)) as (-> & -> & _ & _ & -> & _).
    exact IH.
Qed.

Lemma reachable_grounded s :
  reachable s -> 0 < snowSize s -> (0 < snowSegments s)%Z -> grounded s.
Proof.
  intros H Hs Hg; constructor; auto using reachable_wf, reachable_base.
Qed.




(** ** Construction and its first frame *)

(** X8.  With the default cube, a field of size at least 2 is constructed
    untouched (all elevations and intensities zero); a smaller field is
    constructed with one vehicle track already pressed, at the clamped cube
    position [(1 - size / 2, 1 - size / 2)]. *)
Theorem construct_first_frame :
  forall o : Options,
    opt_debugObject o = None ->
    (2 <= or_default_R (opt_size o) 20 ->
       construct o = createdField o /\ fresh (construct o)) /\
    (or_default_R (opt_size o) 20 < 2 ->
       construct o =
       addVehicleTrack (1 - or_default_R (opt_size o) 20 / 2)
                       (1 - or_default_R (opt_size o) 20 / 2) 0.2 (createdField o)).
Proof.
  intros o Hd.
  destruct (createdField_spec o)
    as (Hs & _ & _ & _ & _ & _ & _ & _ & _ & _ & He & Ht).
  split; intros Hsize.
  - pose proof (construct_created o Hd Hsize) as E.
    split; [exact E|]. split; [left; exists o; reflexivity|].
    rewrite E; split; assumption.
  - unfold construct, updateVehiclePosition_idle; rewrite Hd, Hs; simpl.
    set (size := or_default_R (opt_size o) 20) in *.
    assert (E : Rmax (- (size / 2 - 1)) (Rmin (size / 2 - 1) 0) = 1 - size / 2).
    { unfold Rmax, Rmin; repeat destruct (Rle_dec _ _); lra. }
    rewrite E.
    destruct (Req_dec_T (1 - size / 2) 0); [lra|reflexivity].
Qed.

Lemma construct_first_frame_witness :
  opt_debugObject (mkOptions (Some 2) (Some 1%Z) None) = None /\
  2 <= or_default_R (opt_size (mkOptions (Some 2) (Some 1%Z) None)) 20 /\
  grid2 = createdField (mkOptions (Some 2) (Some 1%Z) None) /\ fresh grid2.
Proof.
  assert (Hd : opt_debugObject (mkOptions (Some 2) (Some 1%Z) None) = None)
    by reflexivity.
  assert (Hs : 2 <= or_default_R (opt_size (mkOptions (Some 2) (Some 1%Z) None)) 20)
    by (simpl; destruct (Req_dec_T 2 0); lra).
  split; [exact Hd|]; split; [exact Hs|].
  exact (proj1 (construct_first_frame _ Hd) Hs).
Defined.

(** ** The stored normals are unit vectors that point down *)

(** [normalize] multiplies by a positive factor. *)
Lemma normalize_scale (v : Vector3 R) :
  exists k, 0 < k /\
    normalize v = mkVector3 (vx v * k) (vy v * k) (vz v * k).
Proof.
  destruct v as [a b c]; unfold normalize, divideScalar, multiplyScalar, vlength; simpl.
  pose proof (sqrt_pos (a * a + b * b + c * c)) as Hp.
  destruct (Req_dec_T (sqrt (a * a + b * b + c * c)) 0) as [E|E].
  - exists (1 / 1); split; [lra|reflexivity].
  - exists (1 / sqrt (a * a + b * b + c * c)); split; [|reflexivity].
    apply Rdiv_lt_0_compat; lra.
Qed.

(** A vector with a negative [y] normalises to a unit vector with a
    negative [y]. *)
Lemma normalize_unit_down (v : Vector3 R) :
  vy v < 0 ->
  vx (normalize v) * vx (normalize v) + vy (normalize v) * vy (normalize v) +
  vz (normalize v) * vz (normalize v) = 1 /\
  vy (normalize v) < 0.
Proof.
  destruct v as [a b c]; simpl; intros Hb.
  unfold normalize, divideScalar, multiplyScalar, vlength; simpl.
  set (q := a * a + b * b + c * c).
  assert (Hq : 0 < q) by (unfold q; nra).
  pose proof (sqrt_lt_R0 q Hq) as Hs.
  pose proof (sqrt_sqrt q (Rlt_le _ _ Hq)) as Hss.
  destruct (Req_dec_T (sqrt q) 0) as [E|E]; [lra|].
  assert (Hk : 0 < 1 / sqrt q) by (apply Rdiv_lt_0_compat; lra).
  split; [|nra].
  transitivity (q * (1 / sqrt q * (1 / sqrt q))); [unfold q; ring|].
  rewrite <- Hss at 1; field; lra.
Qed.

(** The raw edge between two samples of a constructed grid: a multiple of
    the subdivision along the axes, any height difference. *)
Lemma grounded_edge s x z dx dz :
  grounded s -> (0 <= x <= snowSegments s)%Z -> (0 <= z <= snowSegments s)%Z ->
  inGrid s (x + dx) (z + dz) = true ->
  exists k, 0 < k /\ vx (edgeTo s x z dx dz) = IZR dx * k /\
                     vz (edgeTo s x z dx dz) = IZR dz * k.
Proof.
  intros G Hx Hz Hin; unfold edgeTo, neighbor; rewrite Hin.
  unfold inGrid in Hin.
  apply andb_prop in Hin; destruct Hin as [Hin H4].
  apply andb_prop in Hin; destruct Hin as [Hin H3].
  apply andb_prop in Hin; destruct Hin as [H1 H2].
  apply Z.leb_le in H1, H2, H3, H4.
  destruct (grounded_base_at s x z G Hx Hz) as (X0 & _ & Z0).
  destruct (grounded_base_at s (x + dx) (z + dz) G) as (X1 & _ & Z1); [lia|lia|].
  unfold getX, getZ in X0, Z0, X1, Z1.
  destruct (normalize_scale (subVectors (currentPosition s (sampleIndex s (x + dx) (z + dz)))
                                         (currentPosition s (sampleIndex s x z))))
    as (k & Hk & ->).
  pose proof (grounded_subdivision s G) as Hsub.
  exists (subdivision s * k); split; [nra|].
  unfold subVectors, currentPosition; simpl.
  rewrite X0, Z0, X1, Z1, !plus_IZR; split; ring.
Qed.

(** The face normal of two adjacent edges taken in the estimator's order. *)
Lemma face_down (a b : Vector3 R) (dxa dza dxb dzb ka kb : R) :
  0 < ka -> 0 < kb ->
  vx a = dxa * ka -> vz a = dza * ka -> vx b = dxb * kb -> vz b = dzb * kb ->
  dza * dxb - dxa * dzb = -1 ->
  vy (normalize (crossVectors a b)) < 0.
Proof.
  intros Hka Hkb Xa Za Xb Zb Hd.
  apply normalize_unit_down; unfold crossVectors; simpl.
  rewrite Xa, Za, Xb, Zb.
  replace (dza * ka * (dxb * kb) - dxa * ka * (dzb * kb))
    with ((dza * dxb - dxa * dzb) * (ka * kb)) by ring.
  rewrite Hd; nra.
Qed.

Lemma grounded_normal_down s x z :
  grounded s -> (0 <= x <= snowSegments s)%Z -> (0 <= z <= snowSegments s)%Z ->
  vx (spec_normal s x z) * vx (spec_normal s x z) +
  vy (spec_normal s x z) * vy (spec_normal s x z) +
  vz (spec_normal s x z) * vz (spec_normal s x z) = 1 /\
  vy (spec_normal s x z) < 0.
Proof.
  intros G Hx Hz.
  pose proof (grounded_segments s G) as Hseg.
  rewrite spec_normal_skipping; unfold skipping_normal, edgeIfNeighbor.
  assert (HR : inGrid s (x + 1) (z + 0) = (x <? snowSegments s)%Z).
  { unfold inGrid; destruct (Z.ltb_spec x (snowSegments s));
      repeat match goal with
             | |- context [(?a <=? ?b)%Z] => destruct (Z.leb_spec a b); try lia
             end; reflexivity. }
  assert (HB : inGrid s (x + 0) (z + 1) = (z <? snowSegments s)%Z).
  { unfold inGrid; destruct (Z.ltb_spec z (snowSegments s));
      repeat match goal with
             | |- context [(?a <=? ?b)%Z] => destruct (Z.leb_spec a b); try lia
             end; reflexivity. }
  assert (HL : inGrid s (x + -1) (z + 0) = (0 <? x)%Z).
  { unfold inGrid; destruct (Z.ltb_spec 0 x);
      repeat match goal with
             | |- context [(?a <=? ?b)%Z] => destruct (Z.leb_spec a b); try lia
             end; reflexivity. }
  assert (HT : inGrid s (x + 0) (z + -1) = (0 <? z)%Z).
  { unfold inGrid; destruct (Z.ltb_spec 0 z);
      repeat match goal with
             | |- context [(?a <=? ?b)%Z] => destruct (Z.leb_spec a b); try lia
             end; reflexivity. }
  assert (FRB : inGrid s (x + 1) (z + 0) = true -> inGrid s (x + 0) (z + 1) = true ->
                vy (normalize (crossVectors (edgeTo s x z 1 0) (edgeTo s x z 0 1))) < 0).
  { intros R B.
    destruct (grounded_edge s x z 1 0 G Hx Hz R) as (ka & Hka & Xa & Za).
    destruct (grounded_edge s x z 0 1 G Hx Hz B) as (kb & Hkb & Xb & Zb).
    apply (face_down _ _ 1 0 0 1 ka kb); auto; lra. }
  assert (FBL : inGrid s (x + 0) (z + 1) = true -> inGrid s (x + -1) (z + 0) = true ->
                vy (normalize (crossVectors (edgeTo s x z 0 1) (edgeTo s x z (-1) 0))) < 0).
  { intros B L.
    destruct (grounded_edge s x z 0 1 G Hx Hz B) as (ka & Hka & Xa & Za).
    destruct (grounded_edge s x z (-1) 0 G Hx Hz L) as (kb & Hkb & Xb & Zb).
    apply (face_down _ _ 0 1 (-1) 0 ka kb); auto; lra. }
  assert (FLT : inGrid s (x + -1) (z + 0) = true -> inGrid s (x + 0) (z + -1) = true ->
                vy (normalize (crossVectors (edgeTo s x z (-1) 0) (edgeTo s x z 0 (-1)))) < 0).
  { intros L T.
    destruct (grounded_edge s x z (-1) 0 G Hx Hz L) as (ka & Hka & Xa & Za).
    destruct (grounded_edge s x z 0 (-1) G Hx Hz T) as (kb & Hkb & Xb & Zb).
    apply (face_down _ _ (-1) 0 0 (-1) ka kb); auto; lra. }
  assert (FTR : inGrid s (x + 0) (z + -1) = true -> inGrid s (x + 1) (z + 0) = true ->
                vy (normalize (crossVectors (edgeTo s x z 0 (-1)) (edgeTo s x z 1 0))) < 0).
  { intros T R.
    destruct (grounded_edge s x z 0 (-1) G Hx Hz T) as (ka & Hka & Xa & Za).
    destruct (grounded_edge s x z 1 0 G Hx Hz R) as (kb & Hkb & Xb & Zb).
    apply (face_down _ _ 0 (-1) 1 0 ka kb); auto; lra. }
  destruct (inGrid s (x + 1) (z + 0)) eqn:R;
    destruct (inGrid s (x + 0) (z + 1)) eqn:B;
    destruct (inGrid s (x + -1) (z + 0)) eqn:L;
    destruct (inGrid s (x + 0) (z + -1)) eqn:T;
    symmetry in HR, HB, HL, HT;
    rewrite ?Z.ltb_lt, ?Z.ltb_ge in HR, HB, HL, HT; try lia;
    cbn [faceNormal app fold_left];
    try (specialize (FRB eq_refl eq_refl)); try (specialize (FBL eq_refl eq_refl));
    try (specialize (FLT eq_refl eq_refl)); try (specialize (FTR eq_refl eq_refl));
    apply normalize_unit_down; unfold add, newVector3;
    cbn [vx vy vz nadd lit RealNumber]; lra.
Qed.

(** X9.  In every state reached from a construction with positive size and
    segments, whatever the deformation, the normal that [updateSnowGeometry]
    stores for a sample is a unit vector whose [y] component is negative. *)
Theorem stored_normals_unit_down :
  forall (s : SnowFieldSystem) (x z : Z),
    reachable s -> 0 < snowSize s -> (0 < snowSegments s)%Z ->
    (0 <= x <= snowSegments s)%Z -> (0 <= z <= snowSegments s)%Z ->
    let n := storedNormal (updateSnowGeometry s) (sampleIndex s x z) in
    vx n * vx n + vy n * vy n + vz n * vz n = 1 /\ vy n < 0.
Proof.
  intros s x z Hr Hsize Hseg Hx Hz n.
  pose proof (reachable_grounded s Hr Hsize Hseg) as G.
  unfold n; rewrite (storedNormal_updated s x z (grounded_wf s G) Hx Hz).
  apply grounded_normal_down; assumption.
Qed.

Lemma stored_normals_unit_down_witness :
  reachable grid2_pressed /\ 0 < snowSize grid2_pressed /\
  (0 < snowSegments grid2_pressed)%Z /\
  (0 <= 1 <= snowSegments grid2_pressed)%Z /\ (0 <= 0 <= snowSegments grid2_pressed)%Z /\
  let n := storedNormal (updateSnowGeometry grid2_pressed)
                        (sampleIndex grid2_pressed 1 0) in
  vx n * vx n + vy n * vy n + vz n * vz n = 1 /\ vy n < 0.
Proof.
  assert (Hr : reachable grid2_pressed) by apply grid2_pressed_reachable.
  destruct grid2_pressed_size as (Es & Eg & Eb).
  assert (H1 : 0 < snowSize grid2_pressed) by (rewrite Es; lra).
  assert (H2 : (0 < snowSegments grid2_pressed)%Z) by (rewrite Eg; lia).
  assert (H3 : (0 <= 1 <= snowSegments grid2_pressed)%Z) by (rewrite Eg; lia).
  assert (H4 : (0 <= 0 <= snowSegments grid2_pressed)%Z) by (rewrite Eg; lia).
  split; [exact Hr|]; split; [exact H1|]; split; [exact H2|]; split; [exact H3|].
  split; [exact H4|].
  exact (stored_normals_unit_down grid2_pressed 1 0 Hr H1 H2 H3 H4).
Defined.

(** ** The vehicle and the frame *)

Lemma equals_true (a b : Vector3 R) : equals a b = true <-> a = b.
Proof.
  destruct a as [a1 a2 a3], b as [b1 b2 b3]; unfold equals; simpl.
  destruct (Req_dec_T a1 b1), (Req_dec_T a2 b2), (Req_dec_T a3 b3);
    split; intros H; try discriminate; try reflexivity; try congruence.
Qed.


Lemma clamp_range (l x : R) : 0 <= l -> - l <= Rmax (- l) (Rmin l x) <= l.
Proof. intros H; unfold Rmax, Rmin; repeat destruct (Rle_dec _ _); lra. Qed.

Lemma clamp_within (l x : R) : - l <= x <= l -> Rmax (- l) (Rmin l x) = x.
Proof. intros H; unfold Rmax, Rmin; repeat destruct (Rle_dec _ _); lra. Qed.

Lemma clampToField_within s p :
  - fieldLimit s <= vx p <= fieldLimit s -> - fieldLimit s <= vz p <= fieldLimit s ->
  clampToField s p = p.
Proof.
  intros Hx Hz; destruct p as [x y z]; unfold clampToField; simpl in *.
  rewrite !clamp_within by assumption; reflexivity.
Qed.

Lemma moveByKeys_y k speed p : vy (moveByKeys k speed p) = vy p.
Proof. unfold moveByKeys; destruct k as [[] [] [] []]; reflexivity. Qed.

(** The frame in one equation: the new cube position, and the two cases. *)
Lemma updateVehiclePosition_cases s v :
  let p := clampToField s (moveByKeys (keys v) (movementSpeed v) (cubePosition v)) in
  let w' := updateVehiclePosition (s, v) in
  cubePosition (snd w') = p /\ lastPosition (snd w') = p /\
  keys (snd w') = keys v /\ movementSpeed (snd w') = movementSpeed v /\
  (p = lastPosition v -> fst w' = s) /\
  (p <> lastPosition v -> fst w' = addVehicleTrack (vx p) (vz p) 0.2 s).
Proof.
  intros p w'; unfold w', updateVehiclePosition; fold p.
  destruct (equals p (lastPosition v)) eqn:E; simpl.
  - apply equals_true in E.
    repeat split; auto; intros H; congruence.
  - assert (Hne : p <> lastPosition v).
    { intros H; apply equals_true in H; congruence. }
    repeat split; auto; intros H; congruence.
Qed.

(** X10.  One frame of the class: afterwards the remembered position is the
    cube's position, the keys and the speed are as before and the cube keeps
    its height; the field is changed only when the clamped cube position
    differs from the remembered one, and then by exactly one vehicle track at
    the new position. *)
Theorem frame_lays_track_when_moved :
  forall (s : SnowFieldSystem) (v : Vehicle),
    let w' := updateVehiclePosition (s, v) in
    lastPosition (snd w') = cubePosition (snd w') /\
    keys (snd w') = keys v /\ movementSpeed (snd w') = movementSpeed v /\
    vy (cubePosition (snd w')) = vy (cubePosition v) /\
    (cubePosition (snd w') = lastPosition v -> fst w' = s) /\
    (cubePosition (snd w') <> lastPosition v ->
       fst w' = addVehicleTrack (vx (cubePosition (snd w')))
                                (vz (cubePosition (snd w'))) 0.2 s).
Proof.
  intros s v w'.
  destruct (updateVehiclePosition_cases s v) as (P & L & K & M & Same & Moved).
  fold w' in P, L, K, M, Same, Moved.
  rewrite P, L; repeat split; auto.
  unfold clampToField; simpl; apply moveByKeys_y.
Qed.

Lemma frame_lays_track_when_moved_witness :
  let w' := updateVehiclePosition (grid2, parked initControls) in
  cubePosition (snd w') = lastPosition (parked initControls) /\ fst w' = grid2.
Proof.
  intros w'.
  assert (E : cubePosition (snd w') = lastPosition (parked initControls)).
  { destruct (updateVehiclePosition_cases grid2 (parked initControls)) as (P & _).
    fold w' in P; rewrite P.
    apply clampToField_within; unfold fieldLimit; destruct grid2_size as [-> _];
      simpl; lra. }
  split; [exact E|].
  destruct (frame_lays_track_when_moved grid2 (parked initControls))
    as (_ & _ & _ & _ & Same & _).
  exact (Same E).
Defined.

(** X11.  On a field of size at least 2 the cube is inside the square
    [[- limit, limit]] (with [limit = size / 2 - 1]) after every frame,
    wherever it was and whatever keys are down. *)
Theorem frame_keeps_cube_on_field :
  forall (s : SnowFieldSystem) (v : Vehicle),
    2 <= snowSize s ->
    let p := cubePosition (snd (updateVehiclePosition (s, v))) in
    - (snowSize s / 2 - 1) <= vx p <= snowSize s / 2 - 1 /\
    - (snowSize s / 2 - 1) <= vz p <= snowSize s / 2 - 1.
Proof.
  intros s v Hsize p.
  destruct (updateVehiclePosition_cases s v) as (P & _).
  unfold p; rewrite P; unfold clampToField, fieldLimit; simpl.
  split; apply clamp_range; lra.
Qed.

Lemma frame_keeps_cube_on_field_witness :
  2 <= snowSize Main.initial /\
  let p := cubePosition
             (snd (updateVehiclePosition
                     (Main.initial, parked (mkKeys false false false true)))) in
  - (snowSize Main.initial / 2 - 1) <= vx p <= snowSize Main.initial / 2 - 1 /\
  - (snowSize Main.initial / 2 - 1) <= vz p <= snowSize Main.initial / 2 - 1.
Proof.
  assert (H : 2 <= snowSize Main.initial) by (rewrite main_initial_size; lra).
  split; [exact H|].
  exact (frame_keeps_cube_on_field Main.initial _ H).
Defined.




Lemma vlength_unit (u : Vector3 R) :
  vx u * vx u + vy u * vy u + vz u * vz u = 1 -> vlength u = 1.
Proof.
  intros H; unfold vlength; simpl; rewrite H; apply sqrt_1.
Qed.

Lemma atan2_axis :
  atan2 0 (-1) = PI /\ atan2 0 1 = 0 /\ atan2 (-1) 0 = - (PI / 2) /\
  atan2 1 0 = PI / 2.
Proof.
  unfold atan2.
  repeat match goal with |- context [Rlt_dec ?a ?b] => destruct (Rlt_dec a b); try lra end;
    repeat match goal with |- context [Rle_dec ?a ?b] => destruct (Rle_dec a b); try lra end.
  replace (0 / -1) with 0 by field.
  replace (0 / 1) with 0 by field.
  rewrite atan_0; repeat split; lra.
Qed.

(** The rotation after a frame in which the cube moved by [k u], [u] a unit
    vector. *)
Lemma heading_of_move s v (u : Vector3 R) :
  (key_w (keys v) || key_s (keys v) || key_a (keys v) || key_d (keys v) = true)%bool ->
  0 < movementSpeed v ->
  subVectors (moveByKeys (keys v) (movementSpeed v) (cubePosition v)) (cubePosition v) =
    mkVector3 (movementSpeed v * vx u) (movementSpeed v * vy u) (movementSpeed v * vz u) ->
  vx u * vx u + vy u * vy u + vz u * vz u = 1 ->
  cubeRotationY (snd (updateVehiclePosition (s, v))) = atan2 (vx u) (vz u).
Proof.
  intros Hm Hs Hd Hu; unfold updateVehiclePosition.
  rewrite Hm, Hd.
  rewrite (normalize_scaled _ u (movementSpeed v) Hs) by (try reflexivity; exact Hu).
  rewrite (vlength_unit u Hu).
  destruct (Rgt_dec 1 0.001); [|lra].
  destruct (equals _ _); reflexivity.
Qed.

(** X13.  A frame with exactly one key down and a positive speed turns the
    cube to face its direction of travel: [PI] for [w] (towards [- z]), [0]
    for [s] (towards [+ z]), [- PI / 2] for [a] (towards [- x]) and [PI / 2]
    for [d] (towards [+ x]), also when the clamp then holds the cube back. *)
Theorem frame_turns_cube_to_heading :
  forall (s : SnowFieldSystem) (v : Vehicle),
    0 < movementSpeed v ->
    let r := cubeRotationY (snd (updateVehiclePosition (s, v))) in
    (keys v = mkKeys true false false false -> r = PI) /\
    (keys v = mkKeys false false true false -> r = 0) /\
    (keys v = mkKeys false true false false -> r = - (PI / 2)) /\
    (keys v = mkKeys false false false true -> r = PI / 2).
Proof.
  intros s v Hs r; destruct atan2_axis as (Aw & As & Aa & Ad).
  assert (D : forall k u,
            keys v = k ->
            (key_w k || key_s k || key_a k || key_d k = true)%bool ->
            subVectors (moveByKeys k (movementSpeed v) (cubePosition v)) (cubePosition v) =
              mkVector3 (movementSpeed v * vx u) (movementSpeed v * vy u)
                        (movementSpeed v * vz u) ->
            vx u * vx u + vy u * vy u + vz u * vz u = 1 ->
            r = atan2 (vx u) (vz u)).
  { intros k u Hk Hm Hd Hu; unfold r; apply heading_of_move; rewrite ?Hk; auto. }
  destruct (cubePosition v) as [x y z].
  repeat split; intros Hk.
  - rewrite (D _ (mkVector3 0 0 (-1)) Hk); simpl; auto;
      [unfold moveByKeys, subVectors; simpl; f_equal; ring|ring].
  - rewrite (D _ (mkVector3 0 0 1) Hk); simpl; auto;
      [unfold moveByKeys, subVectors; simpl; f_equal; ring|ring].
  - rewrite (D _ (mkVector3 (-1) 0 0) Hk); simpl; auto;
      [unfold moveByKeys, subVectors; simpl; f_equal; ring|ring].
  - rewrite (D _ (mkVector3 1 0 0) Hk); simpl; auto;
      [unfold moveByKeys, subVectors; simpl; f_equal; ring|ring].
Qed.

Lemma frame_turns_cube_to_heading_witness :
  let v := parked (mkKeys true false false false) in
  0 < movementSpeed v /\ keys v = mkKeys true false false false /\
  cubeRotationY (snd (updateVehiclePosition (Main.initial, v))) = PI.
Proof.
  intros v.
  assert (H : 0 < movementSpeed v) by (simpl; lra).
  split; [exact H|]; split; [reflexivity|].
  destruct (frame_turns_cube_to_heading Main.initial v H) as (Hw & _).
  exact (Hw eq_refl).
Defined.

Lemma clamp_over (l x : R) : 0 <= l -> l <= x -> Rmax (- l) (Rmin l x) = l.
Proof. intros; unfold Rmax, Rmin; repeat destruct (Rle_dec _ _); lra. Qed.

Lemma clamp_under (l x : R) : 0 <= l -> x <= - l -> Rmax (- l) (Rmin l x) = - l.
Proof. intros; unfold Rmax, Rmin; repeat destruct (Rle_dec _ _); lra. Qed.

(** X14.  Driving into the border leaves no track: with the cube on the
    border of the field, where it was last seen, and only the key that
    pushes it outward down, a frame leaves the cube and the field as they
    are. *)
Theorem frame_against_border :
  forall (s : SnowFieldSystem) (v : Vehicle),
    2 <= snowSize s -> 0 <= movementSpeed v ->
    lastPosition v = cubePosition v ->
    - (snowSize s / 2 - 1) <= vx (cubePosition v) <= snowSize s / 2 - 1 ->
    - (snowSize s / 2 - 1) <= vz (cubePosition v) <= snowSize s / 2 - 1 ->
    let w' := updateVehiclePosition (s, v) in
    (keys v = mkKeys false false false true /\
     vx (cubePosition v) = snowSize s / 2 - 1 \/
     keys v = mkKeys false true false false /\
     vx (cubePosition v) = - (snowSize s / 2 - 1) \/
     keys v = mkKeys false false true false /\
     vz (cubePosition v) = snowSize s / 2 - 1 \/
     keys v = mkKeys true false false false /\
     vz (cubePosition v) = - (snowSize s / 2 - 1)) ->
    fst w' = s /\ cubePosition (snd w') = cubePosition v.
Proof.
  intros s v Hsize Hspeed Hl Hx Hz w' Hcase.
  destruct (updateVehiclePosition_cases s v) as (P & _ & _ & _ & Same & _).
  fold w' in P, Same.
  assert (E : clampToField s (moveByKeys (keys v) (movementSpeed v) (cubePosition v))
              = cubePosition v).
  { destruct v as [[x y z] rot l k m]; cbn [cubePosition keys movementSpeed vx vy vz] in *.
    unfold clampToField, fieldLimit.
    destruct Hcase as [[-> ->]| [[-> ->]| [[-> ->]| [-> ->]]]];
      unfold moveByKeys; cbn [key_w key_a key_s key_d vx vy vz]; f_equal;
      first [ apply clamp_within; lra
            | apply clamp_over; lra
            | apply clamp_under; lra ]. }
  rewrite P, E; split; [apply Same; rewrite E, Hl; reflexivity|reflexivity].
Qed.

Lemma frame_against_border_witness :
  let v := parked (mkKeys false false false true) in
  2 <= snowSize grid2 /\ 0 <= movementSpeed v /\ lastPosition v = cubePosition v /\
  - (snowSize grid2 / 2 - 1) <= vx (cubePosition v) <= snowSize grid2 / 2 - 1 /\
  - (snowSize grid2 / 2 - 1) <= vz (cubePosition v) <= snowSize grid2 / 2 - 1 /\
  (keys v = mkKeys false false false true /\
   vx (cubePosition v) = snowSize grid2 / 2 - 1) /\
  fst (updateVehiclePosition (grid2, v)) = grid2 /\
  cubePosition (snd (updateVehiclePosition (grid2, v))) = cubePosition v.
Proof.
  intros v.
  assert (H1 : 2 <= snowSize grid2) by (destruct grid2_size as [-> _]; lra).
  assert (H2 : 0 <= movementSpeed v) by (simpl; lra).
  assert (H3 : lastPosition v = cubePosition v) by reflexivity.
  assert (H4 : - (snowSize grid2 / 2 - 1) <= vx (cubePosition v) <= snowSize grid2 / 2 - 1)
    by (destruct grid2_size as [-> _]; simpl; lra).
  assert (H5 : - (snowSize grid2 / 2 - 1) <= vz (cubePosition v) <= snowSize grid2 / 2 - 1)
    by (destruct grid2_size as [-> _]; simpl; lra).
  assert (H6 : keys v = mkKeys false false false true /\
               vx (cubePosition v) = snowSize grid2 / 2 - 1)
    by (split; [reflexivity|destruct grid2_size as [-> _]; simpl; lra]).
  split; [exact H1|]; split; [exact H2|]; split; [exact H3|]; split; [exact H4|].
  split; [exact H5|]; split; [exact H6|].
  exact (frame_against_border grid2 v H1 H2 H3 H4 H5 (or_introl H6)).
Defined.

(** Presses keep the grid parameters on any state. *)
Lemma pressSnow_same_grid_any x z r d c s : same_grid s (pressSnow x z r d c s).
Proof.
  unfold pressSnow.
  assert (G : same_grid s (for_loop (count s) (pressSnow_body x z r d c) s)).
  { apply (for_loop_ind (fun _ t => same_grid s t)); [apply same_grid_refl|].
    intros k t _ IH; eapply same_grid_trans; [exact IH|].
    apply pressSnow_body_frame. }
  eapply same_grid_trans; [exact G|apply updateSnowGeometry_frame].
Qed.

Lemma addVehicleTrack_same_grid_any px pz w s : same_grid s (addVehicleTrack px pz w s).
Proof.
  unfold addVehicleTrack; cbv zeta.
  repeat (eapply same_grid_trans; [|apply pressSnow_same_grid_any]).
  apply same_grid_refl.
Qed.

Lemma updateVehiclePosition_same_grid s v :
  same_grid s (fst (updateVehiclePosition (s, v))).
Proof.
  unfold updateVehiclePosition; destruct (equals _ _); simpl;
    [apply same_grid_refl|apply addVehicleTrack_same_grid_any].
Qed.

Lemma run_frames_S n w :
  run (repeat Frame (S n)) w = run (repeat Frame n) (updateVehiclePosition w).
Proof. reflexivity. Qed.

(** X15.  Holding [w] alone for [n] frames on a field of size at least 2
    drives the cube straight towards [- z], by the speed per frame, until
    the border stops it:
    [z = max (- limit, z0 - n * speed)], with [x] and the height unchanged. *)
Theorem drive_straight :
  forall (n : nat) (s : SnowFieldSystem) (v : Vehicle),
    2 <= snowSize s -> 0 <= movementSpeed v ->
    keys v = mkKeys true false false false ->
    - (snowSize s / 2 - 1) <= vx (cubePosition v) <= snowSize s / 2 - 1 ->
    - (snowSize s / 2 - 1) <= vz (cubePosition v) <= snowSize s / 2 - 1 ->
    cubePosition (snd (run (repeat Frame n) (s, v))) =
    mkVector3 (vx (cubePosition v)) (vy (cubePosition v))
              (Rmax (- (snowSize s / 2 - 1))
                    (vz (cubePosition v) - INR n * movementSpeed v)).
Proof.
  induction n as [|n IH]; intros s v Hsize Hspeed Hk Hx Hz.
  - simpl; destruct (cubePosition v) as [x y z]; simpl in *.
    f_equal; unfold Rmax; destruct (Rle_dec _ _); lra.
  - rewrite run_frames_S.
    destruct (updateVehiclePosition_cases s v) as (P & _ & K & M & _).
    pose proof (updateVehiclePosition_same_grid s v) as (Gs & _).
    destruct (updateVehiclePosition (s, v)) as [s' v'] eqn:Ew; cbn [fst snd] in *.
    assert (P' : cubePosition v' =
                 mkVector3 (vx (cubePosition v)) (vy (cubePosition v))
                           (Rmax (- (snowSize s / 2 - 1))
                                 (vz (cubePosition v) - movementSpeed v))).
    { rewrite P, Hk; destruct (cubePosition v) as [x y z]; simpl in *.
      unfold clampToField, fieldLimit, moveByKeys; simpl; f_equal;
        unfold Rmax, Rmin; repeat destruct (Rle_dec _ _); lra. }
    assert (Hn : 0 <= INR n * movementSpeed v)
      by (apply Rmult_le_pos; [apply pos_INR|exact Hspeed]).
    pose proof (IH s' v') as H.
    rewrite Gs, M, K, P' in H; cbn [vx vy vz] in H.
    rewrite H; try assumption.
    + rewrite S_INR; f_equal.
      unfold Rmax; repeat destruct (Rle_dec _ _); lra.
    + unfold Rmax; destruct (Rle_dec _ _); lra.
Qed.

Lemma drive_straight_witness :
  let v := parked (mkKeys true false false false) in
  2 <= snowSize Main.initial /\ 0 <= movementSpeed v /\
  keys v = mkKeys true false false false /\
  - (snowSize Main.initial / 2 - 1) <= vx (cubePosition v) <= snowSize Main.initial / 2 - 1 /\
  - (snowSize Main.initial / 2 - 1) <= vz (cubePosition v) <= snowSize Main.initial / 2 - 1 /\
  cubePosition (snd (run (repeat Frame 3) (Main.initial, v))) =
  mkVector3 (vx (cubePosition v)) (vy (cubePosition v))
            (Rmax (- (snowSize Main.initial / 2 - 1))
                  (vz (cubePosition v) - INR 3 * movementSpeed v)).
Proof.
  intros v.
  assert (H1 : 2 <= snowSize Main.initial) by (rewrite main_initial_size; lra).
  assert (H2 : 0 <= movementSpeed v) by (simpl; lra).
  assert (H3 : keys v = mkKeys true false false false) by reflexivity.
  assert (H4 : - (snowSize Main.initial / 2 - 1) <= vx (cubePosition v)
               <= snowSize Main.initial / 2 - 1)
    by (rewrite main_initial_size; simpl; lra).
  assert (H5 : - (snowSize Main.initial / 2 - 1) <= vz (cubePosition v)
               <= snowSize Main.initial / 2 - 1)
    by (rewrite main_initial_size; simpl; lra).
  split; [exact H1|]; split; [exact H2|]; split; [exact H3|]; split; [exact H4|].
  split; [exact H5|].
  exact (drive_straight 3 Main.initial v H1 H2 H3 H4 H5).
Defined.

(** X16.  The frame of [main.js] and the frame of the class do the same to
    the field, to the cube's position, to the remembered position and to the
    keys when the class runs at the speed 0.05 of [main.js]; only the
    class turns the cube. *)
Theorem mainAnimate_agrees_with_class :
  forall (s : SnowFieldSystem) (v : Vehicle),
    movementSpeed v = 0.05 ->
    fst (mainAnimate (s, v)) = fst (updateVehiclePosition (s, v)) /\
    cubePosition (snd (mainAnimate (s, v))) =
      cubePosition (snd (updateVehiclePosition (s, v))) /\
    lastPosition (snd (mainAnimate (s, v))) =
      lastPosition (snd (updateVehiclePosition (s, v))) /\
    keys (snd (mainAnimate (s, v))) = keys (snd (updateVehiclePosition (s, v))) /\
    cubeRotationY (snd (mainAnimate (s, v))) = cubeRotationY v.
Proof.
  intros s v Hs; unfold mainAnimate, updateVehiclePosition; rewrite Hs.
  destruct (equals _ _); cbn [fst snd cubePosition lastPosition keys cubeRotationY];
    repeat split; reflexivity.
Qed.

Lemma mainAnimate_agrees_with_class_witness :
  let v := parked (mkKeys false false false true) in
  movementSpeed v = 0.05 /\
  fst (mainAnimate (Main.initial, v)) = fst (updateVehiclePosition (Main.initial, v)) /\
  cubePosition (snd (mainAnimate (Main.initial, v))) =
    cubePosition (snd (updateVehiclePosition (Main.initial, v))).
Proof.
  intros v.
  assert (H : movementSpeed v = 0.05) by reflexivity.
  split; [exact H|].
  destruct (mainAnimate_agrees_with_class Main.initial v H) as (H1 & H2 & _).
  split; [exact H1|exact H2].
Defined.

(** The first frame of [init] is the first frame of [construct]. *)
Lemma startWorld_construct (o : Options) (cubeY rotation : R) (speed : option R) :
  fst (startWorld o cubeY rotation speed) = construct o.
Proof.
  unfold startWorld.
  set (v := mkVehicle _ _ _ _ _).
  destruct (updateVehiclePosition_cases (createdField o) v) as (_ & _ & _ & _ & Same & Moved).
  set (p := clampToField _ _) in *.
  assert (Hp : p = mkVector3
                     (Rmax (- (snowSize (createdField o) / 2 - 1))
                           (Rmin (snowSize (createdField o) / 2 - 1) (vx (startCube o cubeY))))
                     (vy (startCube o cubeY))
                     (Rmax (- (snowSize (createdField o) / 2 - 1))
                           (Rmin (snowSize (createdField o) / 2 - 1) (vz (startCube o cubeY)))))
    by reflexivity.
  unfold construct, updateVehiclePosition_idle.
  assert (Hc : (match opt_debugObject o with Some c => c | None => (0, 0) end)
               = (vx (startCube o cubeY), vz (startCube o cubeY)))
    by (unfold startCube; destruct (opt_debugObject o) as [[cx cz]|]; reflexivity).
  rewrite Hc; cbn [fst snd].
  destruct (Req_dec_T _ (vx (startCube o cubeY))) as [Ex|Ex];
    [destruct (Req_dec_T _ (vz (startCube o cubeY))) as [Ez|Ez]|].
  - apply Same; rewrite Hp, Ex, Ez; destruct (startCube o cubeY); reflexivity.
  - rewrite Moved; [rewrite Hp; reflexivity|].
    intros H; apply Ez; rewrite Hp in H; simpl in H.
    destruct (startCube o cubeY); simpl in *; congruence.
  - rewrite Moved; [rewrite Hp; reflexivity|].
    intros H; apply Ex; rewrite Hp in H; simpl in H.
    destruct (startCube o cubeY); simpl in *; congruence.
Qed.

(** X17.  The field of the system that [init] leaves (field, cube, keys,
    first frame) is the field of [construct]; the keys are up, the cube's
    position is the remembered one, and the speed is never 0 (an option of 0
    is replaced by 0.05). *)
Theorem startWorld_field :
  forall (o : Options) (cubeY rotation : R) (speed : option R),
    fst (startWorld o cubeY rotation speed) = construct o /\
    keys (snd (startWorld o cubeY rotation speed)) = initControls /\
    lastPosition (snd (startWorld o cubeY rotation speed)) =
      cubePosition (snd (startWorld o cubeY rotation speed)) /\
    movementSpeed (snd (startWorld o cubeY rotation speed)) <> 0.
Proof.
  intros o y rot speed; split; [apply startWorld_construct|].
  unfold startWorld.
  set (v := mkVehicle _ _ _ _ _).
  destruct (updateVehiclePosition_cases (createdField o) v) as (P & L & K & M & _).
  split; [exact K|split; [congruence|]].
  rewrite M; apply or_default_R_nonzero; lra.
Qed.

Lemma toLowerCase_single :
  forall (key : String.string) (c : Ascii.ascii),
    Keyboard.toLowerCase key = String.String c String.EmptyString ->
    exists c', key = String.String c' String.EmptyString /\ Keyboard.lowerAscii c' = c.
Proof.
  intros [|c' [|c'' t]] c H; simpl in H; try discriminate.
  exists c'; split; [reflexivity|congruence].
Qed.

Lemma lowerAscii_letter :
  forall c : Ascii.ascii,
    Ascii.nat_of_ascii (Keyboard.lowerAscii c) = 119%nat \/
    Ascii.nat_of_ascii (Keyboard.lowerAscii c) = 97%nat \/
    Ascii.nat_of_ascii (Keyboard.lowerAscii c) = 115%nat \/
    Ascii.nat_of_ascii (Keyboard.lowerAscii c) = 100%nat ->
    Ascii.nat_of_ascii c = Ascii.nat_of_ascii (Keyboard.lowerAscii c) \/
    (Ascii.nat_of_ascii c + 32)%nat = Ascii.nat_of_ascii (Keyboard.lowerAscii c).
Proof.
  intros [[] [] [] [] [] [] [] []]; vm_compute; intros H;
    first [left; reflexivity | right; reflexivity
          | exfalso; decompose [or] H; discriminate].
Qed.

Lemma toLowerCase_letter :
  forall (key : String.string) (lower upper : Ascii.ascii),
    (Ascii.nat_of_ascii lower = 119 \/ Ascii.nat_of_ascii lower = 97 \/
     Ascii.nat_of_ascii lower = 115 \/ Ascii.nat_of_ascii lower = 100)%nat ->
    (Ascii.nat_of_ascii upper + 32)%nat = Ascii.nat_of_ascii lower ->
    Keyboard.toLowerCase key = String.String lower String.EmptyString ->
    key = String.String lower String.EmptyString \/
    key = String.String upper String.EmptyString.
Proof.
  intros key lower upper Hl Hu H.
  destruct (toLowerCase_single _ _ H) as (c & -> & Hc).
  destruct (lowerAscii_letter c) as [E|E]; [rewrite Hc; exact Hl| |].
  - left; f_equal. rewrite Hc in E.
    rewrite <- (Ascii.ascii_nat_embedding c), E; apply Ascii.ascii_nat_embedding.
  - right; f_equal. rewrite Hc, <- Hu in E.
    rewrite <- (Ascii.ascii_nat_embedding c), <- (Ascii.ascii_nat_embedding upper).
    f_equal; lia.
Qed.

Lemma setKey_other :
  forall (k : Keys) (name : String.string) (v : bool),
    name <> Keyboard.w -> name <> Keyboard.a ->
    name <> Keyboard.s -> name <> Keyboard.d ->
    Keyboard.setKey k name v = k.
Proof.
  intros k name v Hw Ha Hs Hd; unfold Keyboard.setKey.
  apply String.eqb_neq in Hw, Ha, Hs, Hd.
  rewrite Hw, Ha, Hs, Hd; reflexivity.
Qed.

(** X18.  The key listeners: the names [w] and [W] set (on keydown) or clear
    (on keyup) the flag [w] and leave the other three, likewise for [a],
    [s], [d]; every other key name changes nothing. *)
Theorem key_listeners :
  forall (k : Keys) (key : String.string) (v : bool),
    let listen := fun k key => if v then Keyboard.keydown k key else Keyboard.keyup k key in
    (key = Keyboard.w \/ key = Keyboard.upper_w ->
     listen k key = mkKeys v (key_a k) (key_s k) (key_d k)) /\
    (key = Keyboard.a \/ key = Keyboard.upper_a ->
     listen k key = mkKeys (key_w k) v (key_s k) (key_d k)) /\
    (key = Keyboard.s \/ key = Keyboard.upper_s ->
     listen k key = mkKeys (key_w k) (key_a k) v (key_d k)) /\
    (key = Keyboard.d \/ key = Keyboard.upper_d ->
     listen k key = mkKeys (key_w k) (key_a k) (key_s k) v) /\
    (key <> Keyboard.w -> key <> Keyboard.upper_w ->
     key <> Keyboard.a -> key <> Keyboard.upper_a ->
     key <> Keyboard.s -> key <> Keyboard.upper_s ->
     key <> Keyboard.d -> key <> Keyboard.upper_d ->
     listen k key = k).
Proof.
  intros k key v listen.
  assert (L : listen k key = Keyboard.setKey k (Keyboard.toLowerCase key) v)
    by (unfold listen; destruct v; reflexivity).
  rewrite L; clear L listen.
  repeat split.
  - intros [-> | ->]; reflexivity.
  - intros [-> | ->]; reflexivity.
  - intros [-> | ->]; reflexivity.
  - intros [-> | ->]; reflexivity.
  - intros Hw HW Ha HA Hs HS Hd HD.
    apply setKey_other; intros E.
    + destruct (toLowerCase_letter key (Ascii.ascii_of_nat 119) (Ascii.ascii_of_nat 87) ltac:(vm_compute; auto)
                  ltac:(reflexivity) E); [apply Hw|apply HW]; assumption.
    + destruct (toLowerCase_letter key (Ascii.ascii_of_nat 97) (Ascii.ascii_of_nat 65) ltac:(vm_compute; auto)
                  ltac:(reflexivity) E); [apply Ha|apply HA]; assumption.
    + destruct (toLowerCase_letter key (Ascii.ascii_of_nat 115) (Ascii.ascii_of_nat 83) ltac:(vm_compute; auto)
                  ltac:(reflexivity) E); [apply Hs|apply HS]; assumption.
    + destruct (toLowerCase_letter key (Ascii.ascii_of_nat 100) (Ascii.ascii_of_nat 68) ltac:(vm_compute; auto)
                  ltac:(reflexivity) E); [apply Hd|apply HD]; assumption.
Qed.

Lemma key_listeners_witness :
  Keyboard.keydown initControls Keyboard.upper_w = mkKeys true false false false /\
  Keyboard.keyup (mkKeys true false false true) Keyboard.d = mkKeys true false false false.
Proof.
  split.
  - destruct (key_listeners initControls Keyboard.upper_w true) as (H & _).
    exact (H (or_intror eq_refl)).
  - destruct (key_listeners (mkKeys true false false true) Keyboard.d false)
      as (_ & _ & _ & H & _).
    exact (H (or_introl eq_refl)).
Defined.

(** ** Runs of key events and frames *)











